(** * NaviHive mock navigation client: catalog store, visibility filter,
      single-entity operations and the import-merge engine

    Shallow embedding of [src/API/mock.ts] ([MockNavigationClient] and the
    module-level collections [mockGroups], [mockSites], [mockConfigs]).

    Conventions of the embedding
    - a JavaScript [number] used as an identifier, a sort key or a 0/1 flag
      is a [Z]; NaN and fractions are outside the model, and the one
      arithmetic operation of the program, the [+ 1] of a new id, rounds to
      the nearest double ([to_double]);
    - an optional property ([id?: number]) is an [option]; [None] is
      [undefined];
    - the three module-level collections form the [Store] record, which
      every method reads and writes; they are taken to hold well-formed
      objects; methods are computations of the [Js] monad below, whose store
      survives a [throw];
    - [new Date().toISOString()] reads a clock: the n-th reading since the
      start of the program is [clock n], and the store counts the readings;
    - the artificial network delays ([await new Promise(setTimeout)]) and the
      writes to [localStorage] (which swallow their own failures and which
      no method reads back) are left out, and so is [login], which only
      builds a token and hands it to [setToken]. *)

From stdpp Require Import gmap strings list fin_maps pretty.

(** ** Entities *)

(** Modelled from the spec: the interfaces [Group], [Site], [ExportData],
    [ImportResult] and [GroupWithSites] are imported from [./http], which is
    not among the sources.  The fields are the ones listed in sections 3 and
    6 of the specification; [id], [is_public] and the two timestamps are
    optional because the code guards them ([g.id || 0], [g.id!]) and sets
    them itself on creation; [is_public] is a number, compared with [1]. *)
Module Group.
Record t := mk {
  id : option Z;
  name : string;
  order_num : Z;
  is_public : option Z;
  created_at : option string;
  updated_at : option string;
}.
End Group.
Abbreviation Group := Group.t.

(** Modelled from the spec: [Site] of [./http], as listed in section 3. *)
Module Site.
Record t := mk {
  id : option Z;
  group_id : Z;
  name : string;
  url : string;
  icon : string;
  description : string;
  notes : string;
  order_num : Z;
  is_public : option Z;
  created_at : option string;
  updated_at : option string;
}.
End Site.
Abbreviation Site := Site.t.

(** [Partial<Group>]: every property may be left out ([None]).  A property
    that is optional in [Group] may also be present with the value
    [undefined] ([Some None]); the object spread copies it all the same. *)
Module PartialGroup.
Record t := mk {
  id : option (option Z);
  name : option string;
  order_num : option Z;
  is_public : option (option Z);
  created_at : option (option string);
  updated_at : option (option string);
}.
End PartialGroup.
Abbreviation PartialGroup := PartialGroup.t.

Module PartialSite.
Record t := mk {
  id : option (option Z);
  group_id : option Z;
  name : option string;
  url : option string;
  icon : option string;
  description : option string;
  notes : option string;
  order_num : option Z;
  is_public : option (option Z);
  created_at : option (option string);
  updated_at : option (option string);
}.
End PartialSite.
Abbreviation PartialSite := PartialSite.t.

(** [{ ...group, id: group.id!, sites }]: the non-null assertion is erased
    at run time, so the entry is the group together with its sites. *)
Module GroupWithSites.
Record t := mk {
  group : Group;
  sites : list Site;
}.
End GroupWithSites.
Abbreviation GroupWithSites := GroupWithSites.t.

(** An entry of the argument of [updateGroupOrder] / [updateSiteOrder]. *)
Module Order.
Record t := mk {
  id : Z;
  order_num : Z;
}.
End Order.
Abbreviation Order := Order.t.

(** Modelled from the spec: the snapshot of section 6.  The TypeScript type
    promises arrays of objects, but the value comes from a parsed file, so at
    run time the snapshot itself, each of its collections and each array
    element may be [null] or [undefined]: that is [None] here. *)
Module ExportData.
Record t := mk {
  groups : option (list (option Group));
  sites : option (list (option Site));
  configs : option (gmap string string);
  version : string;
  exportDate : string;
}.
End ExportData.
Abbreviation ExportData := ExportData.t.

Module GroupStats.
Record t := mk {
  total : nat;
  created : nat;
  merged : nat;
}.
End GroupStats.

Module SiteStats.
Record t := mk {
  total : nat;
  created : nat;
  updated : nat;
  skipped : nat;
}.
End SiteStats.

Module Stats.
Record t := mk {
  groups : GroupStats.t;
  sites : SiteStats.t;
}.
End Stats.
Abbreviation Stats := Stats.t.

(** [{ success: true, stats }] or [{ success: false, error }]. *)
Inductive ImportResult :=
  | ImportSuccess (stats : Stats)
  | ImportFailure (error : string).

Definition success (r : ImportResult) : bool :=
  match r with
  | ImportSuccess _ => true
  | ImportFailure _ => false
  end.

(** ** The store and the [Js] monad *)

Record Store := mkStore {
  mockGroups : list Group;
  mockSites : list Site;
  mockConfigs : gmap string string;
  ticks : nat;
}.

(** What a [throw] carries: an [Error] object with its message, or any other
    value. *)
Inductive Thrown :=
  | ErrorObject (message : string)
  | OtherValue.

(** How a computation ends.  The collections are mutated in place, so the
    store reached so far is part of an abrupt completion too. *)
Inductive Completion (A : Type) :=
  | Normal (st : Store) (a : A)
  | Abrupt (st : Store) (e : Thrown).
Arguments Normal {A} st a.
Arguments Abrupt {A} st e.

Definition Js (A : Type) : Type := Store → Completion A.

Definition store_of {A} (c : Completion A) : Store :=
  match c with
  | Normal st _ => st
  | Abrupt st _ => st
  end.

Definition js_ret {A} (a : A) : Js A := λ st, Normal st a.

Definition js_bind {A B} (k : A → Js B) (m : Js A) : Js B :=
  λ st,
    match m st with
    | Normal st' a => k a st'
    | Abrupt st' e => Abrupt st' e
    end.

#[export] Instance Js_ret : MRet Js := @js_ret.
#[export] Instance Js_bind : MBind Js := @js_bind.

Definition throw {A} (e : Thrown) : Js A := λ st, Abrupt st e.

(** [try { m } catch (error) { h error }] *)
Definition try_catch {A} (m : Js A) (h : Thrown → Js A) : Js A :=
  λ st,
    match m st with
    | Normal st' a => Normal st' a
    | Abrupt st' e => h e st'
    end.

Definition gets {A} (f : Store → A) : Js A := λ st, Normal st (f st).

Definition set_mockGroups (l : list Group) : Js unit :=
  λ st, Normal (mkStore l (mockSites st) (mockConfigs st) (ticks st)) tt.

Definition set_mockSites (l : list Site) : Js unit :=
  λ st, Normal (mkStore (mockGroups st) l (mockConfigs st) (ticks st)) tt.

Definition set_mockConfigs (m : gmap string string) : Js unit :=
  λ st, Normal (mkStore (mockGroups st) (mockSites st) m (ticks st)) tt.

(** [for (const x of l) body] with the loop-carried local variables [acc]. *)
Fixpoint for_of {A L} (body : A → L → Js L) (l : list A) (acc : L) : Js L :=
  match l with
  | [] => mret acc
  | x :: l' => acc' ← body x acc; for_of body l' acc'
  end.

(** The message of the [TypeError] raised by a property read on
    [undefined]; on [null], which the embedding does not tell apart, the
    engine writes [null] in its place.  The wording is the engine's (here
    V8's), not the program's; nothing below depends on it. *)
Definition cannot_read (property : string) : Thrown :=
  ErrorObject ("Cannot read properties of undefined (reading '" +:+ property +:+ "')").

Definition cannot_convert : Thrown :=
  ErrorObject "Cannot convert undefined or null to object".

(** [o.property], the first property read on a value that may be missing. *)
Definition read {A} (property : string) (o : option A) : Js A :=
  match o with
  | Some a => mret a
  | None => throw (cannot_read property)
  end.

(** The double nearest to a positive integer, ties going to the even
    mantissa: every integer up to 2^53 is a double, the doubles from
    2^e to 2^(e+1), e >= 53, are the multiples of 2^(e-52). *)
Definition to_double (z : Z) : Z :=
  if decide (z < 2 ^ 53)%Z then z
  else
    let ulp := (2 ^ (Z.log2 z - 52))%Z in
    let q := (z / ulp)%Z in
    let r := (z mod ulp)%Z in
    if decide (2 * r < ulp)%Z then (q * ulp)%Z
    else if decide (ulp < 2 * r)%Z then ((q + 1) * ulp)%Z
    else if Z.even q then (q * ulp)%Z
    else ((q + 1) * ulp)%Z.

(** [Math.max(0, ...ids.map((id) => id || 0))] *)
Definition max_id (ids : list (option Z)) : Z :=
  foldr Z.max 0%Z (default 0%Z <$> ids).

(** [Math.max(0, ...ids.map((id) => id || 0)) + 1]; the sum is a double. *)
Definition next_id (ids : list (option Z)) : Z :=
  to_double (max_id ids + 1).

(** The client object: [token] and the public flag [isAuthenticated]. *)
Record Client := mkClient {
  token : option string;
  isAuthenticated : bool;
}.

Definition setToken (t : string) (c : Client) : Client :=
  mkClient (Some t) true.

Definition clearToken (c : Client) : Client :=
  mkClient None false.

Definition logout (c : Client) : Client := clearToken c.

(** [!!this.token]: the empty string is falsy. *)
Definition isLoggedIn (c : Client) : bool :=
  match token c with
  | Some t => bool_decide (t ≠ EmptyString)
  | None => false
  end.

(** [checkAuthStatus]: true exactly when there is a token. *)
Definition checkAuthStatus (c : Client) : bool := isLoggedIn c.

(** ** The methods of [MockNavigationClient] *)

Section Methods.

(** [clock n] is the string returned by the n-th evaluation of
    [new Date().toISOString()]. *)
Variable clock : nat → string.

Definition new_Date_toISOString : Js string :=
  λ st,
    Normal (mkStore (mockGroups st) (mockSites st) (mockConfigs st) (S (ticks st)))
           (clock (ticks st)).

(** *** Visibility filter and queries *)

Definition getGroups (c : Client) : Js (list Group) :=
  mockGroups ← gets mockGroups;
  if negb (isAuthenticated c)
  then mret (filter (λ g, Group.is_public g = Some 1%Z) mockGroups)
  else mret mockGroups.

Definition getGroupsWithSites (c : Client) : Js (list GroupWithSites) :=
  groups ← gets mockGroups;
  sites ← gets mockSites;
  let '(groups, sites) :=
    if negb (isAuthenticated c)
    then
      let groups := filter (λ g, Group.is_public g = Some 1%Z) groups in
      let publicGroupIds := Group.id <$> groups in
      (groups,
       filter (λ site, Site.is_public site = Some 1%Z
                       ∧ Some (Site.group_id site) ∈ publicGroupIds) sites)
    else (groups, sites) in
  mret ((λ group,
           GroupWithSites.mk group
             (filter (λ site, Some (Site.group_id site) = Group.id group) sites))
        <$> groups).

(** [mockGroups.find((g) => g.id === id) || null] *)
Definition getGroup (id : Z) : Js (option Group) :=
  mockGroups ← gets mockGroups;
  mret (snd <$> list_find (λ g, Group.id g = Some id) mockGroups).

Definition getSites (c : Client) (groupId : option Z) : Js (list Site) :=
  sites ← gets mockSites;
  mockGroups ← gets mockGroups;
  let sites :=
    if negb (isAuthenticated c)
    then
      let publicGroupIds :=
        Group.id <$> filter (λ g, Group.is_public g = Some 1%Z) mockGroups in
      filter (λ site, Site.is_public site = Some 1%Z
                      ∧ Some (Site.group_id site) ∈ publicGroupIds) sites
    else sites in
  match groupId with
  | Some groupId =>
      if decide (groupId = 0%Z) then mret sites
      else mret (filter (λ site, Site.group_id site = groupId) sites)
  | None => mret sites
  end.

Definition getSite (id : Z) : Js (option Site) :=
  mockSites ← gets mockSites;
  mret (snd <$> list_find (λ s, Site.id s = Some id) mockSites).

(** *** Groups *)

Definition createGroup (group : Group) : Js Group :=
  mockGroups ← gets mockGroups;
  let id := next_id (Group.id <$> mockGroups) in
  created_at ← new_Date_toISOString;
  updated_at ← new_Date_toISOString;
  let newGroup :=
    Group.mk (Some id) (Group.name group) (Group.order_num group)
             (Group.is_public group) (Some created_at) (Some updated_at) in
  set_mockGroups (mockGroups ++ [newGroup]);;
  mret newGroup.

(** [{ ...existing, ...group, updated_at }] *)
Definition spread_group (existing : Group) (group : PartialGroup)
    (updated_at : string) : Group :=
  Group.mk (default (Group.id existing) (PartialGroup.id group))
           (default (Group.name existing) (PartialGroup.name group))
           (default (Group.order_num existing) (PartialGroup.order_num group))
           (default (Group.is_public existing) (PartialGroup.is_public group))
           (default (Group.created_at existing) (PartialGroup.created_at group))
           (Some updated_at).

Definition updateGroup (id : Z) (group : PartialGroup) : Js (option Group) :=
  mockGroups ← gets mockGroups;
  match list_find (λ g, Group.id g = Some id) mockGroups with
  | None => mret None
  | Some (index, existing) =>
      updated_at ← new_Date_toISOString;
      let updated := spread_group existing group updated_at in
      set_mockGroups (<[index := updated]> mockGroups);;
      mret (Some updated)
  end.

Definition deleteGroup (id : Z) : Js bool :=
  mockGroups ← gets mockGroups;
  match list_find (λ g, Group.id g = Some id) mockGroups with
  | None => mret false
  | Some (index, _) =>
      set_mockGroups (delete index mockGroups);;
      mret true
  end.

(** *** Sites *)

Definition createSite (site : Site) : Js Site :=
  mockSites ← gets mockSites;
  let id := next_id (Site.id <$> mockSites) in
  created_at ← new_Date_toISOString;
  updated_at ← new_Date_toISOString;
  let newSite :=
    Site.mk (Some id) (Site.group_id site) (Site.name site) (Site.url site)
            (Site.icon site) (Site.description site) (Site.notes site)
            (Site.order_num site) (Site.is_public site)
            (Some created_at) (Some updated_at) in
  set_mockSites (mockSites ++ [newSite]);;
  mret newSite.

Definition spread_site (existing : Site) (site : PartialSite)
    (updated_at : string) : Site :=
  Site.mk (default (Site.id existing) (PartialSite.id site))
          (default (Site.group_id existing) (PartialSite.group_id site))
          (default (Site.name existing) (PartialSite.name site))
          (default (Site.url existing) (PartialSite.url site))
          (default (Site.icon existing) (PartialSite.icon site))
          (default (Site.description existing) (PartialSite.description site))
          (default (Site.notes existing) (PartialSite.notes site))
          (default (Site.order_num existing) (PartialSite.order_num site))
          (default (Site.is_public existing) (PartialSite.is_public site))
          (default (Site.created_at existing) (PartialSite.created_at site))
          (Some updated_at).

Definition updateSite (id : Z) (site : PartialSite) : Js (option Site) :=
  mockSites ← gets mockSites;
  match list_find (λ s, Site.id s = Some id) mockSites with
  | None => mret None
  | Some (index, existing) =>
      updated_at ← new_Date_toISOString;
      let updated := spread_site existing site updated_at in
      set_mockSites (<[index := updated]> mockSites);;
      mret (Some updated)
  end.

Definition deleteSite (id : Z) : Js bool :=
  mockSites ← gets mockSites;
  match list_find (λ s, Site.id s = Some id) mockSites with
  | None => mret false
  | Some (index, _) =>
      set_mockSites (delete index mockSites);;
      mret true
  end.

(** *** Batch reordering *)

(** [group.order_num = order.order_num] on the object found by id. *)
Definition set_group_order (group : Group) (order_num : Z) : Group :=
  Group.mk (Group.id group) (Group.name group) order_num
           (Group.is_public group) (Group.created_at group)
           (Group.updated_at group).

Definition set_site_order (site : Site) (order_num : Z) : Site :=
  Site.mk (Site.id site) (Site.group_id site) (Site.name site) (Site.url site)
          (Site.icon site) (Site.description site) (Site.notes site)
          order_num (Site.is_public site)
          (Site.created_at site) (Site.updated_at site).

Definition updateGroupOrder (groupOrders : list Order) : Js bool :=
  for_of (λ order (_ : unit),
            mockGroups ← gets mockGroups;
            match list_find (λ g, Group.id g = Some (Order.id order)) mockGroups with
            | Some (index, group) =>
                set_mockGroups
                  (<[index := set_group_order group (Order.order_num order)]> mockGroups)
            | None => mret tt
            end)
         groupOrders tt;;
  mret true.

Definition updateSiteOrder (siteOrders : list Order) : Js bool :=
  for_of (λ order (_ : unit),
            mockSites ← gets mockSites;
            match list_find (λ s, Site.id s = Some (Order.id order)) mockSites with
            | Some (index, site) =>
                set_mockSites
                  (<[index := set_site_order site (Order.order_num order)]> mockSites)
            | None => mret tt
            end)
         siteOrders tt;;
  mret true.

(** *** Configuration *)

(** [mockConfigs] is a plain object: next to the properties of its own,
    which are the [gmap] of the store, it inherits those of
    [Object.prototype], whose names these are. *)
Definition Object_prototype_keys : list string :=
  [ "constructor"; "__defineGetter__"; "__defineSetter__"; "hasOwnProperty";
    "__lookupGetter__"; "__lookupSetter__"; "isPrototypeOf";
    "propertyIsEnumerable"; "toString"; "valueOf"; "__proto__";
    "toLocaleString" ].

(** What [mockConfigs[key]] evaluates to when it is truthy: a string of the
    table, or the property of [Object.prototype] of that name (a function;
    the prototype itself for [__proto__]). *)
Inductive ConfigValue :=
  | OwnString (value : string)
  | Inherited (key : string).

(** [key in mockConfigs] *)
Definition has_property (key : string) (mockConfigs : gmap string string) : Prop :=
  is_Some (mockConfigs !! key) ∨ key ∈ Object_prototype_keys.

#[global] Instance has_property_dec key mockConfigs :
  Decision (has_property key mockConfigs).
Proof. unfold has_property. apply _. Defined.

(** [mockConfigs[key] = value].  An assignment to [__proto__] reaches the
    setter of [Object.prototype], which ignores a string, unless the object
    has a property of its own by that name (as [JSON.parse] can give it). *)
Definition assign (key value : string) (mockConfigs : gmap string string)
    : gmap string string :=
  if decide (key = "__proto__" ∧ mockConfigs !! key = None) then mockConfigs
  else <[key := value]> mockConfigs.

Definition getConfigs : Js (gmap string string) := gets mockConfigs.

(** [mockConfigs[key] || null]: the empty string is falsy; a property of
    the object's own shadows the inherited one. *)
Definition getConfig (key : string) : Js (option ConfigValue) :=
  mockConfigs ← gets mockConfigs;
  match mockConfigs !! key with
  | Some value =>
      if decide (value = EmptyString) then mret None else mret (Some (OwnString value))
  | None =>
      if decide (key ∈ Object_prototype_keys) then mret (Some (Inherited key))
      else mret None
  end.

Definition setConfig (key value : string) : Js bool :=
  mockConfigs ← gets mockConfigs;
  set_mockConfigs (assign key value mockConfigs);;
  mret true.

(** [delete mockConfigs[key]] removes a property of the object's own and
    does nothing for an inherited one. *)
Definition deleteConfig (key : string) : Js bool :=
  mockConfigs ← gets mockConfigs;
  if decide (has_property key mockConfigs) then
    set_mockConfigs (delete key mockConfigs);; mret true
  else mret false.

(** *** Export *)

Definition exportData : Js ExportData :=
  mockGroups ← gets mockGroups;
  mockSites ← gets mockSites;
  mockConfigs ← gets mockConfigs;
  exportDate ← new_Date_toISOString;
  mret (ExportData.mk (Some (Some <$> mockGroups)) (Some (Some <$> mockSites))
                      (Some mockConfigs) "1.0" exportDate).

(** *** Import (merge) *)

(** The local variables of [importData]: the statistics and the map from
    the snapshot's group ids to live group ids. *)
Record Locals := mkLocals {
  stats : Stats;
  groupMap : gmap Z Z;
}.

Definition groups_merged (s : Stats) : Stats :=
  Stats.mk
    (GroupStats.mk (GroupStats.total (Stats.groups s))
                   (GroupStats.created (Stats.groups s))
                   (S (GroupStats.merged (Stats.groups s))))
    (Stats.sites s).

Definition groups_created (s : Stats) : Stats :=
  Stats.mk
    (GroupStats.mk (GroupStats.total (Stats.groups s))
                   (S (GroupStats.created (Stats.groups s)))
                   (GroupStats.merged (Stats.groups s)))
    (Stats.sites s).

Definition sites_skipped (s : Stats) : Stats :=
  Stats.mk (Stats.groups s)
    (SiteStats.mk (SiteStats.total (Stats.sites s))
                  (SiteStats.created (Stats.sites s))
                  (SiteStats.updated (Stats.sites s))
                  (S (SiteStats.skipped (Stats.sites s)))).

Definition sites_updated (s : Stats) : Stats :=
  Stats.mk (Stats.groups s)
    (SiteStats.mk (SiteStats.total (Stats.sites s))
                  (SiteStats.created (Stats.sites s))
                  (S (SiteStats.updated (Stats.sites s)))
                  (SiteStats.skipped (Stats.sites s))).

Definition sites_created (s : Stats) : Stats :=
  Stats.mk (Stats.groups s)
    (SiteStats.mk (SiteStats.total (Stats.sites s))
                  (S (SiteStats.created (Stats.sites s)))
                  (SiteStats.updated (Stats.sites s))
                  (SiteStats.skipped (Stats.sites s))).

(** A number that passes [if (x)]: present and not zero. *)
Definition truthy (x : option Z) : option Z :=
  match x with
  | Some n => if decide (n = 0%Z) then None else Some n
  | None => None
  end.

(** [if (importGroup.id && existingGroup && existingGroup.id)
       groupMap.set(importGroup.id, existingGroup.id)] *)
Definition groupMap_set_existing (importGroup existingGroup : Group)
    (groupMap : gmap Z Z) : gmap Z Z :=
  match truthy (Group.id importGroup), truthy (Group.id existingGroup) with
  | Some id, Some existing_id => <[id := existing_id]> groupMap
  | _, _ => groupMap
  end.

(** [if (importGroup.id) groupMap.set(importGroup.id, newId)] *)
Definition groupMap_set_new (importGroup : Group) (newId : Z)
    (groupMap : gmap Z Z) : gmap Z Z :=
  match truthy (Group.id importGroup) with
  | Some id => <[id := newId]> groupMap
  | None => groupMap
  end.

(** The body of the first loop, for an element that is an object. *)
Definition importGroup_body (importGroup : Group) (loc : Locals) : Js Locals :=
  mockGroups ← gets mockGroups;
  match list_find (λ g, Group.name g = Group.name importGroup) mockGroups with
  | Some (_, existingGroup) =>
      mret (mkLocals
              (groups_merged (stats loc))
              (groupMap_set_existing importGroup existingGroup (groupMap loc)))
  | None =>
      let newId := next_id (Group.id <$> mockGroups) in
      created_at ← new_Date_toISOString;
      updated_at ← new_Date_toISOString;
      let newGroup :=
        Group.mk (Some newId) (Group.name importGroup)
                 (Group.order_num importGroup) (Group.is_public importGroup)
                 (Some created_at) (Some updated_at) in
      set_mockGroups (mockGroups ++ [newGroup]);;
      mret (mkLocals
              (groups_created (stats loc))
              (groupMap_set_new importGroup newId (groupMap loc)))
  end.

(** An element of [data.groups]; reading [importGroup.name] throws when the
    element is missing.  The read sits in the callback of [findIndex]: with
    no live group at all it is not reached, and the code throws one
    statement later, at [importGroup.id], after pushing a group without a
    name.  The store holds well-formed groups only, so that the failure is
    placed at the first read here too; only the store and the message of
    that failed import differ. *)
Definition importGroup (element : option Group) (loc : Locals) : Js Locals :=
  importGroup ← read "name" element;
  importGroup_body importGroup loc.

(** The body of the second loop, for an element that is an object. *)
Definition importSite_body (importSite : Site) (loc : Locals) : Js Locals :=
  match truthy (groupMap loc !! Site.group_id importSite) with
  | None => mret (mkLocals (sites_skipped (stats loc)) (groupMap loc))
  | Some newGroupId =>
      mockSites ← gets mockSites;
      match list_find (λ s, Site.group_id s = newGroupId
                            ∧ Site.url s = Site.url importSite) mockSites with
      | Some (existingSiteIndex, existingSite) =>
          updated_at ← new_Date_toISOString;
          set_mockSites
            (<[existingSiteIndex :=
                 Site.mk (Site.id existingSite) (Site.group_id existingSite)
                         (Site.name importSite) (Site.url existingSite)
                         (Site.icon importSite) (Site.description importSite)
                         (Site.notes importSite) (Site.order_num existingSite)
                         (Site.is_public existingSite)
                         (Site.created_at existingSite) (Some updated_at)]>
             mockSites);;
          mret (mkLocals (sites_updated (stats loc)) (groupMap loc))
      | None =>
          let newId := next_id (Site.id <$> mockSites) in
          created_at ← new_Date_toISOString;
          updated_at ← new_Date_toISOString;
          let newSite :=
            Site.mk (Some newId) newGroupId (Site.name importSite)
                    (Site.url importSite) (Site.icon importSite)
                    (Site.description importSite) (Site.notes importSite)
                    (Site.order_num importSite) (Site.is_public importSite)
                    (Some created_at) (Some updated_at) in
          set_mockSites (mockSites ++ [newSite]);;
          mret (mkLocals (sites_created (stats loc)) (groupMap loc))
      end
  end.

Definition importSite (element : option Site) (loc : Locals) : Js Locals :=
  importSite ← read "group_id" element;
  importSite_body importSite loc.

(** [Object.entries(configs).forEach(([key, value]) => mockConfigs[key] = value)] *)
Definition importConfigs (configs : option (gmap string string)) : Js unit :=
  match configs with
  | None => throw cannot_convert
  | Some configs =>
      mockConfigs ← gets mockConfigs;
      set_mockConfigs (map_fold assign mockConfigs configs)
  end.

(** The [try] block of [importData]. *)
Definition importData_try (data : option ExportData) : Js Stats :=
  data ← read "groups" data;
  groups ← read "length" (ExportData.groups data);
  sites ← read "length" (ExportData.sites data);
  let locals :=
    mkLocals (Stats.mk (GroupStats.mk (length groups) 0 0)
                       (SiteStats.mk (length sites) 0 0 0))
             ∅ in
  loc ← for_of importGroup groups locals;
  loc ← for_of importSite sites loc;
  importConfigs (ExportData.configs data);;
  mret (stats loc).

(** [error instanceof Error ? error.message : '未知错误'] *)
Definition error_message (e : Thrown) : string :=
  match e with
  | ErrorObject message => message
  | OtherValue => "未知错误"
  end.

Definition importData (data : option ExportData) : Js ImportResult :=
  try_catch (stats ← importData_try data; mret (ImportSuccess stats))
            (λ error, mret (ImportFailure (error_message error))).

End Methods.


(** ** The session token and [localStorage] *)

(** The part of [localStorage] the client object uses: the string stored
    under ['auth_token'].  [None] is an environment without [localStorage]
    ([typeof localStorage === 'undefined']); otherwise the table of its
    items. *)
Module Session.

(** [constructor()]: the field initialisers give [null] and [false]; with a
    [localStorage] the token is read back and [isAuthenticated] is
    [!!this.token]. *)
Definition constructor (localStorage : option (gmap string string)) : Client :=
  match localStorage with
  | Some items =>
      let token := items !! "auth_token" in
      mkClient token
        (match token with
         | Some t => bool_decide (t ≠ EmptyString)
         | None => false
         end)
  | None => mkClient None false
  end.

(** [setToken(token)] with its write to [localStorage]. *)
Definition setToken (token : string) (c : Client)
    (localStorage : option (gmap string string))
    : Client * option (gmap string string) :=
  (mkClient (Some token) true, insert "auth_token" token <$> localStorage).

(** [clearToken()] with its [removeItem]. *)
Definition clearToken (c : Client) (localStorage : option (gmap string string))
    : Client * option (gmap string string) :=
  (mkClient None false, delete "auth_token" <$> localStorage).

Definition logout (c : Client) (localStorage : option (gmap string string))
    : Client * option (gmap string string) :=
  clearToken c localStorage.

End Session.
(** ** Reasoning about [Js] computations *)

(** [hoare P m Q E]: started in a store satisfying [P], the computation [m]
    either returns [a] in a store satisfying [Q a], or throws in a store
    satisfying [E]. *)
Definition hoare {A} (P : Store → Prop) (m : Js A)
    (Q : A → Store → Prop) (E : Store → Prop) : Prop :=
  ∀ st, P st →
    match m st with
    | Normal st' a => Q a st'
    | Abrupt st' _ => E st'
    end.

Ltac js_unfold :=
  unfold mbind, mret, Js_bind, Js_ret, js_bind, js_ret, gets, throw, try_catch,
    set_mockGroups, set_mockSites, set_mockConfigs, new_Date_toISOString in *.

Ltac js_simpl := js_unfold; simpl in *.

(** ** Vocabulary of the statements *)

(** What the statistics returned by the [try] block satisfy. *)
Definition stats_conserved (data : option ExportData) (s : Stats) : Prop :=
  ∃ d groups sites,
    data = Some d
    ∧ ExportData.groups d = Some groups
    ∧ ExportData.sites d = Some sites
    ∧ GroupStats.total (Stats.groups s) = length groups
    ∧ SiteStats.total (Stats.sites s) = length sites
    ∧ GroupStats.created (Stats.groups s) + GroupStats.merged (Stats.groups s)
      = GroupStats.total (Stats.groups s)
    ∧ SiteStats.created (Stats.sites s) + SiteStats.updated (Stats.sites s)
      + SiteStats.skipped (Stats.sites s)
      = SiteStats.total (Stats.sites s).

(** The business identity of a site: the pair of its group and its url. *)
Definition site_key (s : Site) : Z * string := (Site.group_id s, Site.url s).

(** Identity invariant: the names of the live groups are pairwise distinct,
    and so are the (group_id, url) pairs of the live sites. *)
Definition identity_invariant (st : Store) : Prop :=
  NoDup (Group.name <$> mockGroups st) ∧ NoDup (site_key <$> mockSites st).

(** [gid] is the id of a live group. *)
Definition group_live (st : Store) (gid : Z) : Prop :=
  ∃ g, g ∈ mockGroups st ∧ Group.id g = Some gid.

(** Reference integrity: every live site belongs to a live group. *)
Definition reference_integrity (st : Store) : Prop :=
  ∀ s, s ∈ mockSites st → group_live st (Site.group_id s).

(** Every value of the map of group ids is the id of a live group. *)
Definition groupMap_live (st : Store) (m : gmap Z Z) : Prop :=
  ∀ k v, m !! k = Some v → group_live st v.

(** The sites of [st'] that were not already sites of [st] belong to live
    groups of [st'], and no group of [st] was lost. *)
Definition written_sites_live (st st' : Store) : Prop :=
  (∀ gid, group_live st gid → group_live st' gid)
  ∧ (∀ s, s ∈ mockSites st' → s ∈ mockSites st ∨ group_live st' (Site.group_id s)).

(** The value a computation returns, if it returns. *)
Definition result_of {A} (c : Completion A) : option A :=
  match c with
  | Normal _ a => Some a
  | Abrupt _ _ => None
  end.

(** The visibility rule in the words of the specification: a group passes
    for a visitor when it is public; a site passes when it is public and its
    [group_id] is the id of a group that passes. *)
Definition group_public (g : Group) : Prop := Group.is_public g = Some 1%Z.

Definition site_visible (groups : list Group) (s : Site) : Prop :=
  Site.is_public s = Some 1%Z
  ∧ Exists (λ g, group_public g ∧ Group.id g = Some (Site.group_id s)) groups.

#[export] Instance group_public_dec g : Decision (group_public g).
Proof. unfold group_public. apply _. Defined.

#[export] Instance site_visible_dec groups s : Decision (site_visible groups s).
Proof. unfold site_visible. apply _. Defined.

Section Vocabulary.

Variable clock : nat → string.

(** The group the first loop pushes for [importGroup] on store [st]. *)
Definition pushed_group (importGroup : Group) (st : Store) : Group :=
  Group.mk (Some (next_id (Group.id <$> mockGroups st)))
           (Group.name importGroup) (Group.order_num importGroup)
           (Group.is_public importGroup)
           (Some (clock (ticks st))) (Some (clock (S (ticks st)))).

(** What [groupMap.get(importSite.group_id)] yields when it is truthy. *)
Definition resolve (m : gmap Z Z) (importSite : Site) : option Z :=
  truthy (m !! Site.group_id importSite).

(** The site written over [existingSite] when [importSite] matches it. *)
Definition merged_site (existingSite importSite : Site) (updated_at : string) : Site :=
  Site.mk (Site.id existingSite) (Site.group_id existingSite)
          (Site.name importSite) (Site.url existingSite)
          (Site.icon importSite) (Site.description importSite)
          (Site.notes importSite) (Site.order_num existingSite)
          (Site.is_public existingSite)
          (Site.created_at existingSite) (Some updated_at).

(** The site the second loop pushes for [importSite] on store [st]. *)
Definition pushed_site (importSite : Site) (newGroupId : Z) (st : Store) : Site :=
  Site.mk (Some (next_id (Site.id <$> mockSites st))) newGroupId
          (Site.name importSite) (Site.url importSite) (Site.icon importSite)
          (Site.description importSite) (Site.notes importSite)
          (Site.order_num importSite) (Site.is_public importSite)
          (Some (clock (ticks st))) (Some (clock (S (ticks st)))).

(** The three ways the second loop treats an element. *)
Inductive site_step (importSite : Site) (loc : Locals) (st : Store) :
    Store → Locals → Prop :=
  | site_skip :
      resolve (groupMap loc) importSite = None →
      site_step importSite loc st st
        (mkLocals (sites_skipped (stats loc)) (groupMap loc))
  | site_update newGroupId index existingSite :
      resolve (groupMap loc) importSite = Some newGroupId →
      list_find (λ s, Site.group_id s = newGroupId ∧ Site.url s = Site.url importSite)
                (mockSites st) = Some (index, existingSite) →
      site_step importSite loc st
        (mkStore (mockGroups st)
           (<[index := merged_site existingSite importSite (clock (ticks st))]>
              (mockSites st))
           (mockConfigs st) (S (ticks st)))
        (mkLocals (sites_updated (stats loc)) (groupMap loc))
  | site_create newGroupId :
      resolve (groupMap loc) importSite = Some newGroupId →
      list_find (λ s, Site.group_id s = newGroupId ∧ Site.url s = Site.url importSite)
                (mockSites st) = None →
      site_step importSite loc st
        (mkStore (mockGroups st)
           (mockSites st ++ [pushed_site importSite newGroupId st])
           (mockConfigs st) (S (S (ticks st))))
        (mkLocals (sites_created (stats loc)) (groupMap loc)).

(** The two ways the first loop treats an element. *)
Inductive group_step (importGroup : Group) (loc : Locals) (st : Store) :
    Store → Locals → Prop :=
  | group_merge index existingGroup :
      list_find (λ g, Group.name g = Group.name importGroup) (mockGroups st)
        = Some (index, existingGroup) →
      group_step importGroup loc st st
        (mkLocals (groups_merged (stats loc))
           (groupMap_set_existing importGroup existingGroup (groupMap loc)))
  | group_create :
      list_find (λ g, Group.name g = Group.name importGroup) (mockGroups st) = None →
      group_step importGroup loc st
        (mkStore (mockGroups st ++ [pushed_group importGroup st])
                 (mockSites st) (mockConfigs st) (S (S (ticks st))))
        (mkLocals (groups_created (stats loc))
           (groupMap_set_new importGroup (next_id (Group.id <$> mockGroups st))
              (groupMap loc))).

End Vocabulary.


(** ** Further vocabulary *)

(** Surrogate ids are pairwise distinct within each collection. *)
Definition ids_unique (st : Store) : Prop :=
  NoDup (Group.id <$> mockGroups st) ∧ NoDup (Site.id <$> mockSites st).

(** The fields of a site that an import never writes on a live site. *)
Definition site_frame (s : Site)
    : option Z * Z * string * Z * option Z * option string :=
  (Site.id s, Site.group_id s, Site.url s, Site.order_num s,
   Site.is_public s, Site.created_at s).

(** A site with its [updated_at] forgotten. *)
Definition without_updated_at (s : Site) : Site :=
  Site.mk (Site.id s) (Site.group_id s) (Site.name s) (Site.url s)
          (Site.icon s) (Site.description s) (Site.notes s)
          (Site.order_num s) (Site.is_public s) (Site.created_at s) None.

(** A snapshot none of whose parts is missing. *)
Definition well_formed (data : option ExportData) : Prop :=
  ∃ d groups sites configs,
    data = Some d
    ∧ ExportData.groups d = Some groups
    ∧ ExportData.sites d = Some sites
    ∧ ExportData.configs d = Some configs
    ∧ Forall is_Some groups
    ∧ Forall is_Some sites.

(** The list a batch reordering leaves: each order in turn is written into
    the first element that bears its id, if there is one. *)
Definition reordered {A} (id_of : A → option Z) (set_order : A → Z → A)
    (orders : list Order) (l : list A) : list A :=
  foldl (λ l order,
           match list_find (λ x, id_of x = Some (Order.id order)) l with
           | Some (index, x) => <[index := set_order x (Order.order_num order)]> l
           | None => l
           end)
        l orders.

(** The elements of a snapshot's two sequences (none when the snapshot or
    the sequence is missing). *)
Definition snapshot_groups (data : option ExportData) : list (option Group) :=
  default [] (data ≫= ExportData.groups).

Definition snapshot_sites (data : option ExportData) : list (option Site) :=
  default [] (data ≫= ExportData.sites).

(** The table [importConfigs] leaves. *)
Definition merged_configs (live incoming : gmap string string) : gmap string string :=
  map_fold assign live incoming.

(** The largest id in use leaves room for [n] more up to 2^53, the range
    in which the sum [max + 1] of a new id is exact. *)
Definition room_for (n : nat) (ids : list (option Z)) : Prop :=
  (max_id ids + Z.of_nat n ≤ 2 ^ 53)%Z.

(** What [importData] returned, read as a property of the statistics and
    the store on success and of the store alone on failure. *)
Definition import_outcome (c : Completion ImportResult)
    (Q : Stats → Store → Prop) (E : Store → Prop) : Prop :=
  match c with
  | Normal st' (ImportSuccess s) => Q s st'
  | Normal st' (ImportFailure _) => E st'
  | Abrupt _ _ => False
  end.

(** The site [s'] of the store [st'] is filed for the snapshot [data]: it
    has the url of a snapshot site [s], and its group is a live group [e]
    that bears the name of a snapshot group [g] whose id is the [group_id]
    of [s]. *)
Definition filed_under (data : option ExportData) (st' : Store) (s' : Site) : Prop :=
  ∃ s g e,
    Some s ∈ snapshot_sites data
    ∧ Some g ∈ snapshot_groups data
    ∧ e ∈ mockGroups st'
    ∧ Group.id g = Some (Site.group_id s)
    ∧ Group.name e = Group.name g
    ∧ Group.id e = Some (Site.group_id s')
    ∧ Site.url s' = Site.url s.

(** Every entry of the map of group ids sends the id of a snapshot group to
    the id of a live group of the same name. *)
Definition groupMap_by_name (data : option ExportData) (st' : Store)
    (m : gmap Z Z) : Prop :=
  ∀ k v, m !! k = Some v →
    ∃ g e,
      Some g ∈ snapshot_groups data
      ∧ Group.id g = Some k
      ∧ e ∈ mockGroups st'
      ∧ Group.id e = Some v
      ∧ Group.name e = Group.name g.

(** A decidable closed proposition, settled by evaluation. *)
Ltac by_evaluation := apply (bool_decide_unpack _); vm_compute; exact I.

(** ** Sample stores and snapshots *)

(** A clock whose n-th reading is the n-th second of 2025-01-01 (n < 10). *)
Definition sample_clock (n : nat) : string :=
  "2025-01-01T00:00:0" +:+ pretty n +:+ ".000Z".

Definition empty_store : Store := mkStore [] [] ∅ 0.

Definition dev_group : Group :=
  Group.mk (Some 1%Z) "Dev" 0%Z (Some 1%Z) None None.

Definition site_x : Site :=
  Site.mk (Some 1%Z) 1%Z "X" "http://x" "x.png" "about x" "note" 0%Z (Some 1%Z)
          None None.

(** Scenario A of the specification: one group, one site in it. *)
Definition snapshot_A : ExportData :=
  ExportData.mk (Some [Some dev_group]) (Some [Some site_x]) (Some ∅)
                "1.0" "2025-01-01T00:00:00.000Z".

(** Scenario B: the live store already has a group named Dev, with id 5. *)
Definition store_B : Store :=
  mkStore [Group.mk (Some 5%Z) "Dev" 0%Z (Some 1%Z)
                    (Some "2024-06-01T00:00:00.000Z")
                    (Some "2024-06-01T00:00:00.000Z")]
          [] ∅ 0.

(** Scenario C: a site whose group the snapshot does not carry. *)
Definition snapshot_C : ExportData :=
  ExportData.mk (Some []) (Some [Some site_x]) (Some ∅)
                "1.0" "2025-01-01T00:00:00.000Z".

Definition empty_snapshot : ExportData :=
  ExportData.mk (Some []) (Some []) (Some ∅) "1.0" "2025-01-01T00:00:00.000Z".

(** A live catalog: a public group with a public and a private site, and a
    private group with a public site. *)
Definition live_dev : Group :=
  Group.mk (Some 1%Z) "Dev" 0%Z (Some 1%Z)
           (Some "2024-06-01T00:00:00.000Z") (Some "2024-06-01T00:00:00.000Z").

Definition live_private : Group :=
  Group.mk (Some 2%Z) "Private" 1%Z (Some 0%Z)
           (Some "2024-06-02T00:00:00.000Z") (Some "2024-06-02T00:00:00.000Z").

Definition live_x : Site :=
  Site.mk (Some 1%Z) 1%Z "X" "http://x" "x.png" "old" "old note" 0%Z (Some 1%Z)
          (Some "2024-06-03T00:00:00.000Z") (Some "2024-06-03T00:00:00.000Z").

Definition live_y : Site :=
  Site.mk (Some 2%Z) 1%Z "Y" "http://y" "y.png" "about y" "note" 1%Z (Some 0%Z)
          (Some "2024-06-04T00:00:00.000Z") (Some "2024-06-04T00:00:00.000Z").

Definition live_z : Site :=
  Site.mk (Some 3%Z) 2%Z "Z" "http://z" "z.png" "about z" "note" 0%Z (Some 1%Z)
          (Some "2024-06-05T00:00:00.000Z") (Some "2024-06-05T00:00:00.000Z").

Definition live_store : Store :=
  mkStore [live_dev; live_private] [live_x; live_y; live_z]
          {[ "site.title" := "NaviHive"; "site.customCss" := EmptyString ]}
          0.

Definition visitor : Client := mkClient None false.
Definition admin : Client := mkClient (Some "token") true.

(** An incoming site that matches the first site of [live_store]. *)
Definition incoming_x : Site :=
  Site.mk (Some 7%Z) 10%Z "X renamed" "http://x" "new.png" "new" "note" 9%Z
          (Some 0%Z) None None.

(** The local variables once a snapshot group with id 10 was merged into
    the live group 1. *)
Definition locals_10_to_1 : Locals :=
  mkLocals (Stats.mk (GroupStats.mk 1 0 1) (SiteStats.mk 1 0 0 0)) {[ 10%Z := 1%Z ]}.

(** A partial group that carries nothing but an id. *)
Definition partial_id_7 : PartialGroup :=
  PartialGroup.mk (Some (Some 7%Z)) None None None None None.

(** A partial group and a partial site that carry an order number only. *)
Definition partial_order_5 : PartialGroup :=
  PartialGroup.mk None None (Some 5%Z) None None None.

Definition partial_site_order_5 : PartialSite :=
  PartialSite.mk None None None None None None None (Some 5%Z) None None None.

(** The store and the statistics after [snapshot_A] was imported into the
    empty store. *)
Definition store_A : Store :=
  mkStore
    [Group.mk (Some 1%Z) "Dev" 0%Z (Some 1%Z)
              (Some "2025-01-01T00:00:00.000Z") (Some "2025-01-01T00:00:01.000Z")]
    [Site.mk (Some 1%Z) 1%Z "X" "http://x" "x.png" "about x" "note" 0%Z (Some 1%Z)
             (Some "2025-01-01T00:00:02.000Z") (Some "2025-01-01T00:00:03.000Z")]
    ∅ 4.

Definition stats_A : Stats :=
  Stats.mk (GroupStats.mk 1 1 0) (SiteStats.mk 1 1 0 0).

(** [live_store] once its first group was deleted: the two sites of that
    group are left behind. *)
Definition orphaned_store : Store :=
  store_of (deleteGroup 1%Z live_store).

Definition ops_group : Group :=
  Group.mk None "Ops" 2%Z (Some 1%Z) None None.

Definition site_w : Site :=
  Site.mk None 1%Z "W" "http://w" "w.png" "about w" "note" 2%Z (Some 1%Z)
          None None.

(** Orders for the two live groups and for an id that nothing bears. *)
Definition sample_orders : list Order :=
  [Order.mk 2%Z 7%Z; Order.mk 1%Z 5%Z; Order.mk 9%Z 3%Z].

(** The site that importing [snapshot_A] into [store_B] creates. *)
Definition site_x_in_5 : Site :=
  Site.mk (Some 1%Z) 5%Z "X" "http://x" "x.png" "about x" "note" 0%Z (Some 1%Z)
          (Some "2025-01-01T00:00:00.000Z") (Some "2025-01-01T00:00:01.000Z").

(** The entry of the public group of [live_store] for a visitor. *)
Definition dev_entry : GroupWithSites :=
  GroupWithSites.mk live_dev [live_x].

(** A partial group that carries a name in use, a partial site that carries
    a url in use in its group, and partial records that carry an id. *)
Definition partial_name_Dev : PartialGroup :=
  PartialGroup.mk None (Some "Dev") None None None None.

Definition partial_url_x : PartialSite :=
  PartialSite.mk None None None (Some "http://x") None None None None None None None.

Definition partial_site_id_9 : PartialSite :=
  PartialSite.mk (Some (Some 9%Z)) None None None None None None None None None None.

Definition partial_own_id_1 : PartialGroup :=
  PartialGroup.mk (Some (Some 1%Z)) None (Some 5%Z) None None None.

Definition partial_site_own_id_1 : PartialSite :=
  PartialSite.mk (Some (Some 1%Z)) None None None None None None (Some 5%Z)
                 None None None.

(** [live_store] once its last group was deleted: site Z is left behind,
    and the next group to be created takes the id 2 again. *)
Definition store_without_private : Store :=
  store_of (deleteGroup 2%Z live_store).

(** A snapshot with a new group and a site of it at the url of Z. *)
Definition snapshot_ops : ExportData :=
  ExportData.mk
    (Some [Some (Group.mk (Some 10%Z) "Ops" 2%Z (Some 1%Z) None None)])
    (Some [Some (Site.mk (Some 1%Z) 10%Z "Z of Ops" "http://z" "ops.png" "ops" "note"
                         0%Z (Some 1%Z) None None)])
    (Some ∅) "1.0" "2025-01-01T00:00:00.000Z".

(** A store whose only group bears the id 2^53. *)
Definition store_at_2_53 : Store :=
  mkStore [Group.mk (Some (2 ^ 53)%Z) "Dev" 0%Z (Some 1%Z) None None] [] ∅ 0.

(** A snapshot whose settings carry a key named like a property that a
    plain object inherits. *)
Definition snapshot_proto : ExportData :=
  ExportData.mk (Some []) (Some [])
                (Some {[ "__proto__" := "x"; "site.title" := "Imported" ]})
                "1.0" "2025-01-01T00:00:00.000Z".
(** ** The rules of the logic *)

Section Logic.

Context {A : Type}.

Lemma hoare_ret (P : Store → Prop) (a : A) (Q : A → Store → Prop) E :
  (∀ st, P st → Q a st) → hoare P (mret a) Q E.
Proof. intros H st HP. js_simpl. auto. Qed.

Lemma hoare_throw (P : Store → Prop) e (Q : A → Store → Prop) (E : Store → Prop) :
  (∀ st, P st → E st) → hoare P (throw e) Q E.
Proof. intros H st HP. js_simpl. auto. Qed.

Lemma hoare_conseq (P P' : Store → Prop) (m : Js A)
    (Q Q' : A → Store → Prop) (E E' : Store → Prop) :
  hoare P' m Q' E' →
  (∀ st, P st → P' st) → (∀ a st, Q' a st → Q a st) → (∀ st, E' st → E st) →
  hoare P m Q E.
Proof.
  intros Hm HP HQ HE st Hst. specialize (Hm st (HP st Hst)).
  destruct (m st); auto.
Qed.

Lemma hoare_read (P : Store → Prop) property (o : option A)
    (Q : A → Store → Prop) (E : Store → Prop) :
  (∀ a st, o = Some a → P st → Q a st) → (∀ st, o = None → P st → E st) →
  hoare P (read property o) Q E.
Proof. intros HQ HE st HP. destruct o; js_simpl; auto. Qed.

End Logic.

Lemma hoare_bind {A B} (P : Store → Prop) (m : Js A) (k : A → Js B)
    (R : A → Store → Prop) (Q : B → Store → Prop) E :
  hoare P m R E → (∀ a, hoare (R a) (k a) Q E) → hoare P (m ≫= k) Q E.
Proof.
  intros Hm Hk st HP. specialize (Hm st HP). js_simpl.
  destruct (m st) as [st' a|st' e]; [by apply Hk | done].
Qed.

(** The loop rule: the invariant speaks of the elements still to come, of
    the local variables and of the store. *)
Lemma hoare_for_of {A L} (body : A → L → Js L)
    (Inv : list A → L → Store → Prop) (E : Store → Prop) :
  (∀ x l acc, hoare (Inv (x :: l) acc) (body x acc) (Inv l) E) →
  ∀ l acc, hoare (Inv l acc) (for_of body l acc) (Inv []) E.
Proof.
  intros Hbody l. induction l as [|x l IH]; intros acc; simpl.
  - intros st HI. by js_simpl.
  - eapply hoare_bind; [apply Hbody | intros acc'; apply IH].
Qed.
(** ** The two loops of [importData], one element at a time *)

Section ImportSteps.

Variable clock : nat → string.

Lemma truthy_Some x n : truthy x = Some n ↔ x = Some n ∧ n ≠ 0%Z.
Proof.
  unfold truthy. destruct x as [k|]; [|by split; [|intros []]].
  destruct (decide (k = 0%Z)); split; try done.
  - intros [??]. by simplify_eq.
  - intros ?. by simplify_eq.
  - intros [??]. by simplify_eq.
Qed.

Lemma truthy_None x : truthy x = None ↔ x = None ∨ x = Some 0%Z.
Proof.
  unfold truthy. destruct x as [k|]; [|by split; [left|]].
  destruct (decide (k = 0%Z)); split; try done.
  - intros _. right. by f_equal.
  - intros [?|?]; by simplify_eq.
Qed.

(** A fresh id is at least 1. *)
Lemma max_id_nonneg ids : (0 ≤ max_id ids)%Z.
Proof.
  unfold max_id. induction ids as [|id ids IH]; [done|].
  rewrite fmap_cons. simpl. lia.
Qed.

Lemma max_id_above ids k : Some k ∈ ids → (k ≤ max_id ids)%Z.
Proof.
  unfold max_id. induction ids as [|id ids IH]; intros Hin.
  - by apply elem_of_nil in Hin.
  - rewrite fmap_cons. simpl.
    apply elem_of_cons in Hin as [<-|Hin]; simpl; [lia|].
    specialize (IH Hin). lia.
Qed.

Lemma max_id_snoc ids k : max_id (ids ++ [Some k]) = (max_id ids `max` k)%Z.
Proof.
  unfold max_id. induction ids as [|id ids IH].
  - simpl. lia.
  - rewrite <-app_comm_cons, !fmap_cons. simpl. rewrite IH. lia.
Qed.

Lemma to_double_exact z : (z ≤ 2 ^ 53)%Z → to_double z = z.
Proof.
  intros Hz. destruct (decide (z = 2 ^ 53)%Z) as [->|Hne]; [by vm_compute|].
  unfold to_double. rewrite decide_True; [done|lia].
Qed.

Lemma to_double_positive z : (1 ≤ z)%Z → (1 ≤ to_double z)%Z.
Proof.
  intros Hz. unfold to_double. destruct (decide (z < 2 ^ 53)%Z) as [|Hbig]; [done|].
  assert (53 ≤ Z.log2 z)%Z as Hlog by (apply Z.log2_le_pow2; lia).
  pose proof (Z.log2_spec z ltac:(lia)) as [Hlow _].
  set (ulp := (2 ^ (Z.log2 z - 52))%Z).
  assert (0 < ulp)%Z as Hulp by (apply Z.pow_pos_nonneg; lia).
  assert (ulp ≤ z)%Z as Hle.
  { etrans; [|exact Hlow]. apply Z.pow_le_mono_r; lia. }
  assert (1 ≤ z / ulp)%Z as Hq.
  { apply Z.div_le_lower_bound; lia. }
  simpl. repeat case_decide; try destruct (Z.even _); nia.
Qed.

Lemma next_id_positive ids : (1 ≤ next_id ids)%Z.
Proof.
  unfold next_id. apply to_double_positive. pose proof (max_id_nonneg ids). lia.
Qed.

Lemma next_id_exact ids : room_for 1 ids → next_id ids = (max_id ids + 1)%Z.
Proof. unfold room_for, next_id. intros H. apply to_double_exact. lia. Qed.

Lemma truthy_next_id ids : truthy (Some (next_id ids)) = Some (next_id ids).
Proof.
  apply truthy_Some. split; [done|]. pose proof (next_id_positive ids). lia.
Qed.

Lemma importGroup_body_merge importGroup loc st index existingGroup :
  list_find (λ g, Group.name g = Group.name importGroup) (mockGroups st)
    = Some (index, existingGroup) →
  importGroup_body clock importGroup loc st =
    Normal st
      (mkLocals (groups_merged (stats loc))
         (groupMap_set_existing importGroup existingGroup (groupMap loc))).
Proof. intros Hfind. unfold importGroup_body. js_simpl. by rewrite Hfind. Qed.

Lemma importGroup_body_create importGroup loc st :
  list_find (λ g, Group.name g = Group.name importGroup) (mockGroups st) = None →
  importGroup_body clock importGroup loc st =
    Normal
      (mkStore (mockGroups st ++ [pushed_group clock importGroup st])
               (mockSites st) (mockConfigs st) (S (S (ticks st))))
      (mkLocals (groups_created (stats loc))
         (groupMap_set_new importGroup (next_id (Group.id <$> mockGroups st))
            (groupMap loc))).
Proof. intros Hfind. unfold importGroup_body. js_simpl. by rewrite Hfind. Qed.

Lemma importSite_body_skip importSite loc st :
  resolve (groupMap loc) importSite = None →
  importSite_body clock importSite loc st =
    Normal st (mkLocals (sites_skipped (stats loc)) (groupMap loc)).
Proof.
  unfold resolve, importSite_body. by intros ->.
Qed.

Lemma importSite_body_update importSite loc st newGroupId index existingSite :
  resolve (groupMap loc) importSite = Some newGroupId →
  list_find (λ s, Site.group_id s = newGroupId ∧ Site.url s = Site.url importSite)
            (mockSites st) = Some (index, existingSite) →
  importSite_body clock importSite loc st =
    Normal
      (mkStore (mockGroups st)
               (<[index := merged_site existingSite importSite (clock (ticks st))]>
                  (mockSites st))
               (mockConfigs st) (S (ticks st)))
      (mkLocals (sites_updated (stats loc)) (groupMap loc)).
Proof.
  unfold resolve, importSite_body. intros -> Hfind.
  js_simpl. by rewrite Hfind.
Qed.

Lemma importSite_body_create importSite loc st newGroupId :
  resolve (groupMap loc) importSite = Some newGroupId →
  list_find (λ s, Site.group_id s = newGroupId ∧ Site.url s = Site.url importSite)
            (mockSites st) = None →
  importSite_body clock importSite loc st =
    Normal
      (mkStore (mockGroups st)
               (mockSites st ++ [pushed_site clock importSite newGroupId st])
               (mockConfigs st) (S (S (ticks st))))
      (mkLocals (sites_created (stats loc)) (groupMap loc)).
Proof.
  unfold resolve, importSite_body. intros -> Hfind.
  js_simpl. by rewrite Hfind.
Qed.

(** Neither loop body throws on an object, and each takes one of the steps
    above. *)
Lemma importGroup_body_step importGroup loc st :
  ∃ st' loc', importGroup_body clock importGroup loc st = Normal st' loc'
              ∧ group_step clock importGroup loc st st' loc'.
Proof.
  destruct (list_find (λ g, Group.name g = Group.name importGroup) (mockGroups st))
    as [[index existingGroup]|] eqn:Hfind.
  - eexists _, _. split; [by eapply importGroup_body_merge|by econstructor].
  - eexists _, _. split; [by eapply importGroup_body_create|by econstructor].
Qed.

Lemma importSite_body_step importSite loc st :
  ∃ st' loc', importSite_body clock importSite loc st = Normal st' loc'
              ∧ site_step clock importSite loc st st' loc'.
Proof.
  destruct (resolve (groupMap loc) importSite) as [newGroupId|] eqn:Hres.
  - destruct (list_find (λ s, Site.group_id s = newGroupId
                              ∧ Site.url s = Site.url importSite) (mockSites st))
      as [[index existingSite]|] eqn:Hfind.
    + eexists _, _. split; [by eapply importSite_body_update|by econstructor].
    + eexists _, _. split; [by eapply importSite_body_create|by econstructor].
  - eexists _, _. split; [by eapply importSite_body_skip|by econstructor].
Qed.

(** A rule for each loop body: a property of the stepped store and locals
    follows from the step relation. *)
Lemma hoare_importGroup (P : Store → Prop) element loc
    (Q : Locals → Store → Prop) (E : Store → Prop) :
  (∀ importGroup st st' loc', element = Some importGroup → P st →
     group_step clock importGroup loc st st' loc' → Q loc' st') →
  (∀ st, element = None → P st → E st) →
  hoare P (importGroup clock element loc) Q E.
Proof.
  intros HQ HE st HP. unfold importGroup. destruct element as [g|]; js_simpl.
  - destruct (importGroup_body_step g loc st) as (st' & loc' & -> & Hstep). eauto.
  - auto.
Qed.

Lemma hoare_importSite (P : Store → Prop) element loc
    (Q : Locals → Store → Prop) (E : Store → Prop) :
  (∀ importSite st st' loc', element = Some importSite → P st →
     site_step clock importSite loc st st' loc' → Q loc' st') →
  (∀ st, element = None → P st → E st) →
  hoare P (importSite clock element loc) Q E.
Proof.
  intros HQ HE st HP. unfold importSite. destruct element as [s|]; js_simpl.
  - destruct (importSite_body_step s loc st) as (st' & loc' & -> & Hstep). eauto.
  - auto.
Qed.

End ImportSteps.

(** ** Statistics and completion of [importData] *)

Section ImportResults.

Variable clock : nat → string.

(** [importData] reports success exactly when its [try] block returns. *)
Lemma importData_unfold data st :
  importData clock data st =
    match importData_try clock data st with
    | Normal st' stats => Normal st' (ImportSuccess stats)
    | Abrupt st' e => Normal st' (ImportFailure (error_message e))
    end.
Proof.
  unfold importData. js_simpl. by destruct (importData_try clock data st).
Qed.

Lemma importData_success data st st' stats :
  importData clock data st = Normal st' (ImportSuccess stats) ↔
  importData_try clock data st = Normal st' stats.
Proof.
  rewrite importData_unfold.
  destruct (importData_try clock data st); split; intros; by simplify_eq.
Qed.

(** Both counters of the first loop add up to the number of elements seen;
    the site counters are not touched. *)
Lemma importGroup_counters n sites_stats groups :
  ∀ loc,
    hoare (λ _,
             GroupStats.total (Stats.groups (stats loc)) = n
             ∧ GroupStats.created (Stats.groups (stats loc))
               + GroupStats.merged (Stats.groups (stats loc)) + length groups = n
             ∧ Stats.sites (stats loc) = sites_stats)
          (for_of (importGroup clock) groups loc)
          (λ loc' _,
             GroupStats.total (Stats.groups (stats loc')) = n
             ∧ GroupStats.created (Stats.groups (stats loc'))
               + GroupStats.merged (Stats.groups (stats loc')) = n
             ∧ Stats.sites (stats loc') = sites_stats)
          (λ _, True).
Proof.
  intros loc.
  eapply hoare_conseq;
    [apply (hoare_for_of (importGroup clock)
              (λ rem loc _,
                 GroupStats.total (Stats.groups (stats loc)) = n
                 ∧ GroupStats.created (Stats.groups (stats loc))
                   + GroupStats.merged (Stats.groups (stats loc)) + length rem = n
                 ∧ Stats.sites (stats loc) = sites_stats)
              (λ _, True))
    | done | simpl; intros ?? (?&?&?); split_and!; (done || lia) | done].
  intros element rem acc. apply hoare_importGroup; [|done].
  intros g st st' loc' _ (Htotal & Hsum & Hsites) Hstep.
  destruct Hstep; simpl in *; split_and!; (done || lia).
Qed.

Lemma importSite_counters m groups_stats sites :
  ∀ loc,
    hoare (λ _,
             SiteStats.total (Stats.sites (stats loc)) = m
             ∧ SiteStats.created (Stats.sites (stats loc))
               + SiteStats.updated (Stats.sites (stats loc))
               + SiteStats.skipped (Stats.sites (stats loc)) + length sites = m
             ∧ Stats.groups (stats loc) = groups_stats)
          (for_of (importSite clock) sites loc)
          (λ loc' _,
             SiteStats.total (Stats.sites (stats loc')) = m
             ∧ SiteStats.created (Stats.sites (stats loc'))
               + SiteStats.updated (Stats.sites (stats loc'))
               + SiteStats.skipped (Stats.sites (stats loc')) = m
             ∧ Stats.groups (stats loc') = groups_stats)
          (λ _, True).
Proof.
  intros loc.
  eapply hoare_conseq;
    [apply (hoare_for_of (importSite clock)
              (λ rem loc _,
                 SiteStats.total (Stats.sites (stats loc)) = m
                 ∧ SiteStats.created (Stats.sites (stats loc))
                   + SiteStats.updated (Stats.sites (stats loc))
                   + SiteStats.skipped (Stats.sites (stats loc)) + length rem = m
                 ∧ Stats.groups (stats loc) = groups_stats)
              (λ _, True))
    | done | simpl; intros ?? (?&?&?); split_and!; (done || lia) | done].
  intros element rem acc. apply hoare_importSite; [|done].
  intros s st st' loc' _ (Htotal & Hsum & Hgroups) Hstep.
  destruct Hstep; simpl in *; split_and!; (done || lia).
Qed.

Lemma importData_try_conserves data :
  hoare (λ _, True) (importData_try clock data)
        (λ s _, stats_conserved data s) (λ _, True).
Proof.
  unfold importData_try.
  eapply hoare_bind with (R := λ d _, data = Some d);
    [by apply hoare_read|]. intros d.
  eapply hoare_bind with (R := λ groups _, data = Some d ∧ ExportData.groups d = Some groups);
    [by apply hoare_read|]. intros groups.
  eapply hoare_bind
    with (R := λ sites _, data = Some d ∧ ExportData.groups d = Some groups
                          ∧ ExportData.sites d = Some sites);
    [apply hoare_read; [by intros ?? -> [??]|done]|]. intros sites.
  eapply hoare_bind
    with (R := λ loc _,
            (data = Some d ∧ ExportData.groups d = Some groups
             ∧ ExportData.sites d = Some sites)
            ∧ GroupStats.total (Stats.groups (stats loc)) = length groups
            ∧ GroupStats.created (Stats.groups (stats loc))
              + GroupStats.merged (Stats.groups (stats loc)) = length groups
            ∧ Stats.sites (stats loc) = SiteStats.mk (length sites) 0 0 0).
  { intros st Hd.
    pose proof (importGroup_counters (length groups) (SiteStats.mk (length sites) 0 0 0)
                  groups
                  (mkLocals (Stats.mk (GroupStats.mk (length groups) 0 0)
                                      (SiteStats.mk (length sites) 0 0 0)) ∅)
                  st) as Hloop.
    simpl in Hloop. destruct (for_of _ _ _ st); [|done].
    split; [done|]. apply Hloop. split_and!; [done|lia|done]. }
  intros loc1.
  eapply hoare_bind
    with (R := λ loc _, stats_conserved data (stats loc)).
  { intros st (Hd & Htotal & Hsum & Hsites).
    pose proof (importSite_counters (length sites) (Stats.groups (stats loc1))
                  sites loc1 st) as Hloop.
    simpl in Hloop. destruct (for_of _ _ _ st) as [st' loc2|]; [|done].
    destruct Hloop as (Htotal' & Hsum' & Hgroups'); [rewrite Hsites; simpl; split_and!; [done|lia|done]|].
    destruct Hd as (? & ? & ?). exists d, groups, sites. rewrite Hgroups'. split_and!; [done..|lia|lia]. }
  intros loc2. eapply hoare_bind with (R := λ _ _, stats_conserved data (stats loc2)).
  - intros st H. unfold importConfigs.
    destruct (ExportData.configs d); by js_simpl.
  - intros _. by apply hoare_ret.
Qed.

(** C2. Whenever [importData] returns [success: true], the totals are the
    lengths of the snapshot's two sequences, created + merged = total for the
    groups, and created + updated + skipped = total for the sites. *)
Theorem importData_stats_conservation data st st' s :
  importData clock data st = Normal st' (ImportSuccess s) →
  ∃ d groups sites,
    data = Some d
    ∧ ExportData.groups d = Some groups
    ∧ ExportData.sites d = Some sites
    ∧ GroupStats.total (Stats.groups s) = length groups
    ∧ SiteStats.total (Stats.sites s) = length sites
    ∧ GroupStats.created (Stats.groups s) + GroupStats.merged (Stats.groups s)
      = GroupStats.total (Stats.groups s)
    ∧ SiteStats.created (Stats.sites s) + SiteStats.updated (Stats.sites s)
      + SiteStats.skipped (Stats.sites s)
      = SiteStats.total (Stats.sites s).
Proof.
  intros Hrun%importData_success.
  pose proof (importData_try_conserves data st I) as H.
  by rewrite Hrun in H.
Qed.

(** The [try] block throws nothing but [Error] objects. *)
Lemma for_of_throws_Error {A L} (body : A → L → Js L) :
  (∀ x acc st st' e, body x acc st = Abrupt st' e → ∃ message, e = ErrorObject message) →
  ∀ l acc st st' e,
    for_of body l acc st = Abrupt st' e → ∃ message, e = ErrorObject message.
Proof.
  intros Hbody l. induction l as [|x l IH]; intros acc st st' e; simpl.
  - by js_simpl.
  - js_simpl. destruct (body x acc st) as [st1 acc1|st1 e1] eqn:Hx.
    + apply IH.
    + intros; simplify_eq. eauto.
Qed.

Lemma importData_try_throws_Error data st st' e :
  importData_try clock data st = Abrupt st' e → ∃ message, e = ErrorObject message.
Proof.
  unfold importData_try, read, cannot_read. js_simpl.
  destruct data as [d|]; simpl; [|intros; simplify_eq; eauto].
  destruct (ExportData.groups d) as [groups|]; simpl; [|intros; simplify_eq; eauto].
  destruct (ExportData.sites d) as [sites|]; simpl; [|intros; simplify_eq; eauto].
  destruct (for_of (importGroup clock) groups _ st) as [st1 loc1|st1 e1] eqn:H1.
  - destruct (for_of (importSite clock) sites loc1 st1) as [st2 loc2|st2 e2] eqn:H2.
    + unfold importConfigs, cannot_convert. destruct (ExportData.configs d); js_simpl;
        intros; simplify_eq; eauto.
    + intros; simplify_eq. revert H2. apply for_of_throws_Error.
      intros [s|] acc sa sb e'; unfold importSite, read, cannot_read; js_simpl.
      * destruct (importSite_body_step clock s acc sa) as (?&?&->&_). done.
      * intros; simplify_eq; eauto.
  - intros; simplify_eq. revert H1. apply for_of_throws_Error.
    intros [g|] acc sa sb e'; unfold importGroup, read, cannot_read; js_simpl.
    + destruct (importGroup_body_step clock g acc sa) as (?&?&->&_). done.
    + intros; simplify_eq; eauto.
Qed.

(** C3. [importData] completes normally on every input, also on a snapshot
    that is missing, lacks a collection or has missing elements: it returns
    [success: true] with the statistics when its [try] block returns, and
    [success: false] with the message of the [Error] thrown when the block
    throws. *)
Theorem importData_never_throws data st :
  ∃ st' result,
    importData clock data st = Normal st' result
    ∧ ((∃ s, result = ImportSuccess s
             ∧ importData_try clock data st = Normal st' s)
       ∨ (∃ message, result = ImportFailure message
             ∧ importData_try clock data st = Abrupt st' (ErrorObject message))).
Proof.
  rewrite importData_unfold.
  destruct (importData_try clock data st) as [st' s|st' e] eqn:Htry.
  - exists st', (ImportSuccess s). eauto.
  - destruct (importData_try_throws_Error _ _ _ _ Htry) as [message ->].
    exists st', (ImportFailure message). simpl. eauto.
Qed.

(** On a well-formed snapshot (every collection present, every element an
    object) the import succeeds. *)
Lemma for_of_cons {A L} (body : A → L → Js L) x l acc st :
  for_of body (x :: l) acc st =
    match body x acc st with
    | Normal st' acc' => for_of body l acc' st'
    | Abrupt st' e => Abrupt st' e
    end.
Proof. done. Qed.

Lemma importGroups_total groups :
  ∀ loc st, ∃ st' loc',
    for_of (importGroup clock) (Some <$> groups) loc st = Normal st' loc'.
Proof.
  induction groups as [|g groups IH]; intros loc st.
  - by eexists _, _.
  - rewrite fmap_cons, for_of_cons.
    change (importGroup clock (Some g) loc st) with (importGroup_body clock g loc st).
    destruct (importGroup_body_step clock g loc st) as (st1 & loc1 & -> & _).
    apply IH.
Qed.

Lemma importSites_total sites :
  ∀ loc st, ∃ st' loc',
    for_of (importSite clock) (Some <$> sites) loc st = Normal st' loc'.
Proof.
  induction sites as [|s sites IH]; intros loc st.
  - by eexists _, _.
  - rewrite fmap_cons, for_of_cons.
    change (importSite clock (Some s) loc st) with (importSite_body clock s loc st).
    destruct (importSite_body_step clock s loc st) as (st1 & loc1 & -> & _).
    apply IH.
Qed.

Lemma importData_well_formed groups sites configs version exportDate st :
  ∃ st' s,
    importData clock
      (Some (ExportData.mk (Some (Some <$> groups)) (Some (Some <$> sites))
                           (Some configs) version exportDate)) st
    = Normal st' (ImportSuccess s).
Proof.
  rewrite importData_unfold. unfold importData_try, read, importConfigs. js_simpl.
  destruct (importGroups_total groups
              (mkLocals (Stats.mk (GroupStats.mk (length (Some <$> groups)) 0 0)
                                  (SiteStats.mk (length (Some <$> sites)) 0 0 0)) ∅) st)
    as (st1 & loc1 & ->).
  destruct (importSites_total sites loc1 st1) as (st2 & loc2 & ->).
  by eexists _, _.
Qed.

End ImportResults.

(** ** What an import changes in a matched site *)

Section ImportFrame.

Variable clock : nat → string.

Lemma resolve_Some m importSite newGroupId :
  resolve m importSite = Some newGroupId ↔
  m !! Site.group_id importSite = Some newGroupId ∧ newGroupId ≠ 0%Z.
Proof. apply truthy_Some. Qed.

Lemma resolve_None m importSite :
  resolve m importSite = None ↔
  m !! Site.group_id importSite = None ∨ m !! Site.group_id importSite = Some 0%Z.
Proof. apply truthy_None. Qed.

(** C4. When the incoming site resolves to a live group and [findIndex]
    finds a live site with that group and the same url, the import writes
    [name], [icon], [description], [notes] (from the incoming site) and
    [updated_at] (from the clock) into that site; its [url], [group_id],
    [id], [is_public], [order_num] and [created_at] stay as they were, every
    other site stays as it was, and the groups are not touched. *)
Theorem import_update_frame incoming loc st newGroupId index existingSite :
  groupMap loc !! Site.group_id incoming = Some newGroupId →
  newGroupId ≠ 0%Z →
  list_find (λ s, Site.group_id s = newGroupId ∧ Site.url s = Site.url incoming)
            (mockSites st) = Some (index, existingSite) →
  ∃ st' loc' updated,
    importSite clock (Some incoming) loc st = Normal st' loc'
    ∧ mockSites st' !! index = Some updated
    ∧ (Site.name updated = Site.name incoming
       ∧ Site.icon updated = Site.icon incoming
       ∧ Site.description updated = Site.description incoming
       ∧ Site.notes updated = Site.notes incoming
       ∧ Site.updated_at updated = Some (clock (ticks st)))
    ∧ (Site.url updated = Site.url existingSite
       ∧ Site.group_id updated = Site.group_id existingSite
       ∧ Site.id updated = Site.id existingSite
       ∧ Site.is_public updated = Site.is_public existingSite
       ∧ Site.order_num updated = Site.order_num existingSite
       ∧ Site.created_at updated = Site.created_at existingSite)
    ∧ (∀ j, j ≠ index → mockSites st' !! j = mockSites st !! j)
    ∧ length (mockSites st') = length (mockSites st)
    ∧ mockGroups st' = mockGroups st
    ∧ mockConfigs st' = mockConfigs st.
Proof.
  intros Hget Hnz Hfind.
  assert (resolve (groupMap loc) incoming = Some newGroupId) as Hres
    by by apply resolve_Some.
  eexists _, _, (merged_site existingSite incoming (clock (ticks st))).
  split.
  { unfold importSite, read. js_simpl.
    by rewrite (importSite_body_update clock _ _ _ _ _ _ Hres Hfind). }
  apply list_find_Some in Hfind as (Hlookup & _ & _).
  simpl. split_and!; try done.
  - apply list_lookup_insert_eq. by eapply lookup_lt_Some.
  - intros j Hj. by apply list_lookup_insert_ne.
  - by rewrite length_insert.
Qed.

End ImportFrame.

(** ** Store invariants across [importData] *)

Section ImportInvariants.

Variable clock : nat → string.

(** An invariant [Inv] of the locals and the store that both kinds of step
    keep, and that implies a store property [E] indifferent to the
    configuration table, gives [E] after [importData], however it ends. *)
Lemma importData_try_invariant (P E : Store → Prop) (Inv : Locals → Store → Prop) data :
  (∀ st s, P st → Inv (mkLocals s ∅) st) →
  (∀ loc g st st' loc', Inv loc st → group_step clock g loc st st' loc' → Inv loc' st') →
  (∀ loc s st st' loc', Inv loc st → site_step clock s loc st st' loc' → Inv loc' st') →
  (∀ loc st, Inv loc st → E st) →
  (∀ st configs,
     E st → E (mkStore (mockGroups st) (mockSites st) configs (ticks st))) →
  (∀ st, P st → E st) →
  hoare P (importData_try clock data) (λ _, E) E.
Proof.
  intros Hinit Hgroup Hsite HE Hconfigs HPE. unfold importData_try.
  eapply hoare_bind with (R := λ _, P); [by apply hoare_read; auto|]. intros d.
  eapply hoare_bind with (R := λ _, P); [by apply hoare_read; auto|]. intros groups.
  eapply hoare_bind with (R := λ _, P); [by apply hoare_read; auto|]. intros sites.
  eapply hoare_bind with (R := Inv).
  { eapply hoare_conseq;
      [apply (hoare_for_of (importGroup clock) (λ _, Inv) E)
      | by intros; apply Hinit | done | done].
    intros element rem acc. apply hoare_importGroup; [|by eauto].
    intros g st st' loc' _ HI Hstep. by eapply Hgroup. }
  intros loc1. eapply hoare_bind with (R := Inv).
  { eapply hoare_conseq;
      [apply (hoare_for_of (importSite clock) (λ _, Inv) E) | done..].
    intros element rem acc. apply hoare_importSite; [|by eauto].
    intros s st st' loc' _ HI Hstep. by eapply Hsite. }
  intros loc2. eapply hoare_bind with (R := λ _, E).
  - intros st HI. unfold importConfigs.
    destruct (ExportData.configs d); js_simpl; eauto.
  - intros _ st Hst. by js_simpl.
Qed.

Lemma importData_invariant (P E : Store → Prop) data st :
  hoare P (importData_try clock data) (λ _, E) E →
  P st → E (store_of (importData clock data st)).
Proof.
  intros Htry HP. specialize (Htry st HP). rewrite importData_unfold.
  by destruct (importData_try clock data st).
Qed.

(** *** Identity *)

Lemma list_find_None_fmap {A B} `{EqDecision B} (f : A → B) (y : B) (l : list A) :
  list_find (λ x, f x = y) l = None → y ∉ f <$> l.
Proof.
  rewrite list_find_None, Forall_forall. intros Hnone Hin.
  apply list_elem_of_fmap in Hin as (x & -> & Hx). by apply (Hnone x).
Qed.

Lemma NoDup_snoc_fresh {A} (l : list A) (x : A) :
  NoDup l → x ∉ l → NoDup (l ++ [x]).
Proof.
  intros Hl Hx. apply NoDup_app. split_and!; [done| |apply NoDup_singleton].
  intros y Hy ->%list_elem_of_singleton. done.
Qed.

Lemma group_step_identity g loc st st' loc' :
  group_step clock g loc st st' loc' → identity_invariant st → identity_invariant st'.
Proof.
  intros Hstep [Hgroups Hsites]. destruct Hstep as [index existing Hfind|Hfind]; [done|].
  split; [|done]. simpl. rewrite fmap_app. apply NoDup_snoc_fresh; [done|].
  simpl. by apply (list_find_None_fmap Group.name).
Qed.

Lemma site_find_None_key (newGroupId : Z) (url : string) (l : list Site) :
  list_find (λ s, Site.group_id s = newGroupId ∧ Site.url s = url) l = None →
  (newGroupId, url) ∉ site_key <$> l.
Proof.
  rewrite list_find_None, Forall_forall. intros Hnone Hin.
  apply list_elem_of_fmap in Hin as (s & Hkey & Hs).
  apply (Hnone s Hs). unfold site_key in Hkey. by simplify_eq.
Qed.

(** Writing the merged site over the matched one leaves the keys alone. *)
Lemma merged_site_keys index existingSite incoming updated_at (l : list Site) :
  l !! index = Some existingSite →
  site_key <$> <[index := merged_site existingSite incoming updated_at]> l
    = site_key <$> l.
Proof.
  intros Hlookup. rewrite list_fmap_insert. apply list_insert_id.
  by rewrite list_lookup_fmap, Hlookup.
Qed.

Lemma site_step_identity s loc st st' loc' :
  site_step clock s loc st st' loc' → identity_invariant st → identity_invariant st'.
Proof.
  intros Hstep [Hgroups Hsites].
  destruct Hstep as [Hres|gid index existing Hres Hfind|gid Hres Hfind]; [done|..].
  - split; [done|]. simpl. apply list_find_Some in Hfind as (Hlookup & _ & _).
    by rewrite merged_site_keys.
  - split; [done|]. simpl. rewrite fmap_app. apply NoDup_snoc_fresh; [done|].
    simpl. by apply site_find_None_key.
Qed.

Lemma importData_identity data st :
  identity_invariant st → identity_invariant (store_of (importData clock data st)).
Proof.
  apply (importData_invariant identity_invariant identity_invariant).
  apply importData_try_invariant with (Inv := λ _, identity_invariant); try done.
  - intros loc g st0 st' loc' HI Hstep. by eapply group_step_identity.
  - intros loc s st0 st' loc' HI Hstep. by eapply site_step_identity.
Qed.

(** *** References *)

Lemma group_live_push st gid group sites configs n :
  group_live st gid →
  group_live (mkStore (mockGroups st ++ [group]) sites configs n) gid.
Proof.
  intros (g & Hg & Hid). exists g. split; [|done]. simpl.
  apply elem_of_app. by left.
Qed.

Lemma groupMap_live_set_existing st importGroup existingGroup m :
  groupMap_live st m → existingGroup ∈ mockGroups st →
  groupMap_live st (groupMap_set_existing importGroup existingGroup m).
Proof.
  intros Hm Hin. unfold groupMap_set_existing.
  destruct (truthy (Group.id importGroup)) as [a|]; [|done].
  destruct (truthy (Group.id existingGroup)) as [b|] eqn:Hb; [|done].
  apply truthy_Some in Hb as [Hb _].
  intros k v. rewrite lookup_insert. case_decide; [|by apply Hm].
  intros; simplify_eq. by exists existingGroup.
Qed.

Lemma groupMap_live_set_new st importGroup newId m :
  groupMap_live st m → group_live st newId →
  groupMap_live st (groupMap_set_new importGroup newId m).
Proof.
  intros Hm Hlive. unfold groupMap_set_new.
  destruct (truthy (Group.id importGroup)) as [a|]; [|done].
  intros k v. rewrite lookup_insert. case_decide; [|by apply Hm].
  intros; by simplify_eq.
Qed.

Lemma group_step_written st0 g loc st st' loc' :
  group_step clock g loc st st' loc' →
  written_sites_live st0 st ∧ groupMap_live st (groupMap loc) →
  written_sites_live st0 st' ∧ groupMap_live st' (groupMap loc').
Proof.
  intros Hstep [[Hmono Hsites] Hmap].
  destruct Hstep as [index existing Hfind|Hfind]; simpl.
  - split; [done|]. apply groupMap_live_set_existing; [done|].
    apply list_find_Some in Hfind as (Hlookup & _ & _).
    by eapply list_elem_of_lookup_2.
  - split; [split|].
    + intros gid Hgid. by apply group_live_push, Hmono.
    + simpl. intros s Hs. destruct (Hsites s Hs) as [?|?]; [by left|right].
      by apply group_live_push.
    + apply groupMap_live_set_new.
      * intros k v Hkv. by apply group_live_push, (Hmap k).
      * exists (pushed_group clock g st). split; [|done].
        simpl. apply elem_of_app. right. by apply list_elem_of_singleton.
Qed.

Lemma site_step_written st0 s loc st st' loc' :
  site_step clock s loc st st' loc' →
  written_sites_live st0 st ∧ groupMap_live st (groupMap loc) →
  written_sites_live st0 st' ∧ groupMap_live st' (groupMap loc').
Proof.
  intros Hstep [[Hmono Hsites] Hmap].
  destruct Hstep as [Hres|gid index existing Hres Hfind|gid Hres Hfind]; [done|..].
  - apply resolve_Some in Hres as [Hget _].
    apply list_find_Some in Hfind as (Hlookup & [Hgid _] & _).
    split; [split; [done|]|done]. simpl. intros s' Hs'.
    apply list_elem_of_lookup in Hs' as [j Hj].
    destruct (decide (j = index)) as [->|Hne].
    + rewrite list_lookup_insert_eq in Hj by by eapply lookup_lt_Some.
      injection Hj as <-. right. simpl. rewrite Hgid. by apply (Hmap _ _ Hget).
    + rewrite list_lookup_insert_ne in Hj by done.
      apply list_elem_of_lookup_2 in Hj. apply (Hsites _ Hj).
  - apply resolve_Some in Hres as [Hget _].
    split; [split; [done|]|done]. simpl. intros s' Hs'.
    apply elem_of_app in Hs' as [Hs'|Hs'].
    + apply (Hsites _ Hs').
    + apply list_elem_of_singleton in Hs' as ->.
      right. simpl. by apply (Hmap _ _ Hget).
Qed.

Lemma importData_written_sites_live data st :
  written_sites_live st (store_of (importData clock data st)).
Proof.
  apply (importData_invariant (λ st', st' = st) (written_sites_live st)); [|done].
  apply importData_try_invariant
    with (Inv := λ loc st', written_sites_live st st' ∧ groupMap_live st' (groupMap loc)).
  - intros st' s ->. split; [split; auto|]. intros k v Hkv. simpl in Hkv. by rewrite lookup_empty in Hkv.
  - intros loc g st1 st' loc' HI Hstep. by eapply group_step_written.
  - intros loc s st1 st' loc' HI Hstep. by eapply site_step_written.
  - by intros loc st' [? _].
  - by intros st' configs [? ?].
  - intros st' ->. split; auto.
Qed.

End ImportInvariants.

(** ** Importing the same snapshot twice *)

Section ImportTwice.

Variable clock : nat → string.

Lemma for_of_cons_Normal {A L} (body : A → L → Js L) x l acc st st1 acc1 :
  for_of body (x :: l) acc st = Normal st1 acc1 →
  ∃ st' acc', body x acc st = Normal st' acc'
              ∧ for_of body l acc' st' = Normal st1 acc1.
Proof.
  simpl. js_simpl. destruct (body x acc st) as [st' acc'|]; [|done]. eauto.
Qed.

Lemma importGroup_Normal element loc st st' loc' :
  importGroup clock element loc st = Normal st' loc' →
  ∃ g, element = Some g ∧ group_step clock g loc st st' loc'.
Proof.
  unfold importGroup, read. destruct element as [g|]; js_simpl; [|done].
  destruct (importGroup_body_step clock g loc st) as (st2 & loc2 & -> & Hstep).
  intros; simplify_eq. eauto.
Qed.

Lemma importSite_Normal element loc st st' loc' :
  importSite clock element loc st = Normal st' loc' →
  ∃ s, element = Some s ∧ site_step clock s loc st st' loc'.
Proof.
  unfold importSite, read. destruct element as [s|]; js_simpl; [|done].
  destruct (importSite_body_step clock s loc st) as (st2 & loc2 & -> & Hstep).
  intros; simplify_eq. eauto.
Qed.

(** The first loop only appends groups; the second loop only appends sites
    or rewrites a site under its own key, and touches neither the groups nor
    the map of group ids. *)
Lemma group_step_prefix g loc st st' loc' :
  group_step clock g loc st st' loc' → mockGroups st `prefix_of` mockGroups st'.
Proof. intros [index existing Hfind|Hfind]; simpl; [done|by apply prefix_app_r]. Qed.

Lemma importGroups_prefix groups :
  ∀ loc st st1 loc1,
    for_of (importGroup clock) groups loc st = Normal st1 loc1 →
    mockGroups st `prefix_of` mockGroups st1.
Proof.
  induction groups as [|element groups IH]; intros loc st st1 loc1.
  - simpl. js_simpl. by intros; simplify_eq.
  - intros (st' & loc' & (g & _ & Hstep)%importGroup_Normal & Hrest)%for_of_cons_Normal.
    etrans; [by eapply group_step_prefix|by eapply IH].
Qed.

Lemma site_step_keys s loc st st' loc' :
  site_step clock s loc st st' loc' →
  site_key <$> mockSites st ⊆ site_key <$> mockSites st'.
Proof.
  intros [Hres|gid index existing Hres Hfind|gid Hres Hfind]; simpl; [done|..].
  - apply list_find_Some in Hfind as (Hlookup & _ & _). by rewrite merged_site_keys.
  - rewrite fmap_app. intros k Hk. apply elem_of_app. by left.
Qed.

Lemma site_step_frame s loc st st' loc' :
  site_step clock s loc st st' loc' →
  mockGroups st' = mockGroups st ∧ groupMap loc' = groupMap loc.
Proof. by intros [Hres|gid index existing Hres Hfind|gid Hres Hfind]. Qed.

Lemma importSites_frame sites :
  ∀ loc st st1 loc1,
    for_of (importSite clock) sites loc st = Normal st1 loc1 →
    mockGroups st1 = mockGroups st
    ∧ groupMap loc1 = groupMap loc
    ∧ site_key <$> mockSites st ⊆ site_key <$> mockSites st1.
Proof.
  induction sites as [|element sites IH]; intros loc st st1 loc1.
  - simpl. js_simpl. by intros; simplify_eq.
  - intros (st' & loc' & (s & _ & Hstep)%importSite_Normal & Hrest)%for_of_cons_Normal.
    destruct (site_step_frame _ _ _ _ _ Hstep) as [Hg Hm].
    destruct (IH _ _ _ _ Hrest) as (Hg' & Hm' & Hk').
    split_and!; [congruence..|].
    etrans; [by eapply site_step_keys|done].
Qed.

(** A site step that does not skip leaves a site under the resolved key. *)
Lemma site_step_key_present s loc st st' loc' newGroupId :
  site_step clock s loc st st' loc' →
  resolve (groupMap loc) s = Some newGroupId →
  (newGroupId, Site.url s) ∈ site_key <$> mockSites st'.
Proof.
  intros [Hres|gid index existing Hres Hfind|gid Hres Hfind] Hres'; simplify_eq; simpl.
  - apply list_find_Some in Hfind as (Hlookup & [Hgid Hurl] & _).
    rewrite merged_site_keys by done.
    apply list_elem_of_fmap. exists existing. split; [|by eapply list_elem_of_lookup_2].
    unfold site_key. by rewrite Hgid, Hurl.
  - rewrite fmap_app. apply elem_of_app. right. by apply list_elem_of_singleton.
Qed.

Lemma site_key_find (newGroupId : Z) (url : string) (l : list Site) :
  (newGroupId, url) ∈ site_key <$> l →
  is_Some (list_find (λ s, Site.group_id s = newGroupId ∧ Site.url s = url) l).
Proof.
  intros (s & Hkey & Hs)%list_elem_of_fmap.
  apply (list_find_elem_of _ _ s); [done|]. unfold site_key in Hkey. by simplify_eq.
Qed.

(** The second loop skips exactly the sites whose group id the map does not
    send to a number other than zero. *)
Lemma importSites_skipped sites :
  ∀ loc st st1 loc1,
    for_of (importSite clock) (Some <$> sites) loc st = Normal st1 loc1 →
    SiteStats.skipped (Stats.sites (stats loc1))
    = SiteStats.skipped (Stats.sites (stats loc))
      + length (filter (λ s, resolve (groupMap loc) s = None) sites).
Proof.
  induction sites as [|s sites IH]; intros loc st st1 loc1.
  - simpl. js_simpl. intros; simplify_eq. simpl. lia.
  - rewrite fmap_cons.
    intros (st' & loc' & (s' & [= <-] & Hstep)%importSite_Normal & Hrest)%for_of_cons_Normal.
    apply IH in Hrest. rewrite Hrest.
    destruct (site_step_frame _ _ _ _ _ Hstep) as [_ ->].
    rewrite filter_cons.
    destruct Hstep as [Hres|gid index existing Hres Hfind|gid Hres Hfind]; simpl.
    + rewrite decide_True by done. simpl. lia.
    + rewrite decide_False by congruence. lia.
    + rewrite decide_False by congruence. lia.
Qed.

(** *** Replaying the first loop on the store it produced *)

Lemma importGroups_replay groups :
  ∀ loc st st1 loc1,
    for_of (importGroup clock) groups loc st = Normal st1 loc1 →
    ∀ stB locB,
      mockGroups st1 `prefix_of` mockGroups stB →
      groupMap locB = groupMap loc →
      ∃ locB',
        for_of (importGroup clock) groups locB stB = Normal stB locB'
        ∧ groupMap locB' = groupMap loc1
        ∧ Stats.sites (stats locB') = Stats.sites (stats locB)
        ∧ GroupStats.total (Stats.groups (stats locB'))
          = GroupStats.total (Stats.groups (stats locB))
        ∧ GroupStats.created (Stats.groups (stats locB'))
          = GroupStats.created (Stats.groups (stats locB))
        ∧ GroupStats.merged (Stats.groups (stats locB'))
          = GroupStats.merged (Stats.groups (stats locB)) + length groups.
Proof.
  induction groups as [|element groups IH]; intros loc st st1 loc1.
  - simpl. js_simpl. intros ? stB locB _ Hmap; simplify_eq.
    exists locB. split_and!; (done || lia).
  - intros (st' & loc' & (g & -> & Hstep)%importGroup_Normal & Hrest)%for_of_cons_Normal
      stB locB Hprefix Hmap.
    pose proof (importGroups_prefix _ _ _ _ _ Hrest) as Hgrow.
    assert (∃ index existing,
              list_find (λ x, Group.name x = Group.name g) (mockGroups stB)
                = Some (index, existing)
              ∧ groupMap_set_existing g existing (groupMap locB) = groupMap loc')
      as (index & existing & HfindB & HmapB).
    { destruct Hstep as [index existing Hfind|Hfind]; simpl in *.
      - exists index, existing. split; [|by rewrite Hmap].
        destruct Hgrow as [ext1 Hext1]. destruct Hprefix as [ext2 Hext2].
        rewrite Hext2, Hext1. by do 2 apply list_find_app_l.
      - exists (length (mockGroups st)), (pushed_group clock g st).
        split.
        2: { unfold groupMap_set_existing, groupMap_set_new.
             change (Group.id (pushed_group clock g st))
               with (Some (next_id (Group.id <$> mockGroups st))).
             rewrite truthy_next_id, Hmap. by destruct (truthy (Group.id g)). }
        destruct Hgrow as [ext1 Hext1]. destruct Hprefix as [ext2 Hext2].
        rewrite Hext2, Hext1, <-!(assoc_L (++)).
        rewrite list_find_app_r by done. simpl.
        rewrite decide_True by done. done. }
    destruct (IH _ _ _ _ Hrest stB
                (mkLocals (groups_merged (stats locB))
                   (groupMap_set_existing g existing (groupMap locB)))
                Hprefix HmapB)
      as (locB' & Hrun & Hmap' & Hsites & Htotal & Hcreated & Hmerged).
    exists locB'. split.
    { simpl. unfold importGroup, read. js_simpl.
      rewrite (importGroup_body_merge clock _ _ _ _ _ HfindB). done. }
    simpl in *. split_and!; (done || lia).
Qed.

(** *** Replaying the second loop on a store that has all its keys *)

Lemma importSites_replay sites :
  ∀ loc st st1 loc1,
    for_of (importSite clock) sites loc st = Normal st1 loc1 →
    ∀ stB locB,
      groupMap locB = groupMap loc →
      site_key <$> mockSites st1 ⊆ site_key <$> mockSites stB →
      ∃ stB' locB',
        for_of (importSite clock) sites locB stB = Normal stB' locB'
        ∧ Stats.groups (stats locB') = Stats.groups (stats locB)
        ∧ SiteStats.total (Stats.sites (stats locB'))
          = SiteStats.total (Stats.sites (stats locB))
        ∧ SiteStats.created (Stats.sites (stats locB'))
          = SiteStats.created (Stats.sites (stats locB))
        ∧ SiteStats.skipped (Stats.sites (stats locB'))
          + SiteStats.skipped (Stats.sites (stats loc))
          = SiteStats.skipped (Stats.sites (stats locB))
            + SiteStats.skipped (Stats.sites (stats loc1))
        ∧ SiteStats.updated (Stats.sites (stats locB'))
          + SiteStats.skipped (Stats.sites (stats locB'))
          = SiteStats.updated (Stats.sites (stats locB))
            + SiteStats.skipped (Stats.sites (stats locB)) + length sites.
Proof.
  induction sites as [|element sites IH]; intros loc st st1 loc1.
  - simpl. js_simpl. intros ? stB locB _ _; simplify_eq.
    exists stB, locB. split_and!; (done || lia).
  - intros (st' & loc' & (s & -> & Hstep)%importSite_Normal & Hrest)%for_of_cons_Normal
      stB locB Hmap Hkeys.
    destruct (importSites_frame _ _ _ _ _ Hrest) as (_ & _ & Hgrow).
    destruct (site_step_frame _ _ _ _ _ Hstep) as [_ Hmap'].
    destruct (resolve (groupMap loc) s) as [newGroupId|] eqn:Hres.
    + (* resolved: the first import left a site under this key *)
      pose proof (site_step_key_present _ _ _ _ _ _ Hstep Hres) as Hkey.
      apply Hgrow, Hkeys, site_key_find in Hkey as [[index existing] HfindB].
      pose proof HfindB as (HlookupB & _ & _)%list_find_Some.
      assert (resolve (groupMap locB) s = Some newGroupId) as HresB by by rewrite Hmap.
      destruct (IH _ _ _ _ Hrest
                  (mkStore (mockGroups stB)
                     (<[index := merged_site existing s (clock (ticks stB))]> (mockSites stB))
                     (mockConfigs stB) (S (ticks stB)))
                  (mkLocals (sites_updated (stats locB)) (groupMap locB)))
        as (stB' & locB' & Hrun & Hgroups & Htotal & Hcreated & Hskipped & Hupdated).
      { simpl. congruence. }
      { simpl. by rewrite merged_site_keys. }
      exists stB', locB'. split.
      { simpl. unfold importSite, read. js_simpl.
        by rewrite (importSite_body_update clock _ _ _ _ _ _ HresB HfindB). }
      assert (SiteStats.skipped (Stats.sites (stats loc'))
              = SiteStats.skipped (Stats.sites (stats loc))) as Hsame.
      { destruct Hstep; simpl; [congruence|done..]. }
      simpl in *. split_and!; (done || lia).
    + (* unresolved: skipped both times *)
      assert (resolve (groupMap locB) s = None) as HresB by by rewrite Hmap.
      assert (st' = st ∧ loc' = mkLocals (sites_skipped (stats loc)) (groupMap loc))
        as [-> ->].
      { destruct Hstep; [done|congruence..]. }
      destruct (IH _ _ _ _ Hrest stB
                  (mkLocals (sites_skipped (stats locB)) (groupMap locB)))
        as (stB' & locB' & Hrun & Hgroups & Htotal & Hcreated & Hskipped & Hupdated);
        [simpl; congruence|done|].
      exists stB', locB'. split.
      { simpl. unfold importSite, read. js_simpl.
        by rewrite (importSite_body_skip clock _ _ _ HresB). }
      simpl in *. split_and!; (done || lia).
Qed.

(** *** The shape of a successful run *)

Lemma importData_try_Normal data st st' s :
  importData_try clock data st = Normal st' s ↔
  ∃ d groups sites configs stA locA stB locB,
    data = Some d
    ∧ ExportData.groups d = Some groups
    ∧ ExportData.sites d = Some sites
    ∧ ExportData.configs d = Some configs
    ∧ for_of (importGroup clock) groups
        (mkLocals (Stats.mk (GroupStats.mk (length groups) 0 0)
                            (SiteStats.mk (length sites) 0 0 0)) ∅) st
      = Normal stA locA
    ∧ for_of (importSite clock) sites locA stA = Normal stB locB
    ∧ st' = mkStore (mockGroups stB) (mockSites stB)
              (map_fold assign (mockConfigs stB) configs)
              (ticks stB)
    ∧ s = stats locB.
Proof.
  unfold importData_try, read, importConfigs. split.
  - destruct data as [d|]; js_simpl; [|done].
    destruct (ExportData.groups d) as [groups|] eqn:Hg; simpl; [|done].
    destruct (ExportData.sites d) as [sites|] eqn:Hs; simpl; [|done].
    destruct (for_of (importGroup clock) groups _ st) as [stA locA|] eqn:HA; [|done].
    destruct (for_of (importSite clock) sites locA stA) as [stB locB|] eqn:HB; [|done].
    destruct (ExportData.configs d) as [configs|] eqn:Hc; simpl; [|done].
    js_simpl. intros; simplify_eq.
    eexists d, groups, sites, configs, stA, locA, stB, locB. split_and!; done.
  - intros (d & groups & sites & configs & stA & locA & stB & locB
            & -> & Hg & Hs & Hc & HA & HB & -> & ->).
    js_simpl. rewrite Hg, Hs. simpl. rewrite HA, HB, Hc. done.
Qed.

(** What the second of two successive imports of one snapshot reports. *)
Lemma import_twice data st st1 stats1 :
  importData clock data st = Normal st1 (ImportSuccess stats1) →
  ∃ st2 stats2,
    importData clock data st1 = Normal st2 (ImportSuccess stats2)
    ∧ GroupStats.total (Stats.groups stats2) = GroupStats.total (Stats.groups stats1)
    ∧ GroupStats.created (Stats.groups stats2) = 0
    ∧ GroupStats.merged (Stats.groups stats2) = GroupStats.total (Stats.groups stats2)
    ∧ SiteStats.total (Stats.sites stats2) = SiteStats.total (Stats.sites stats1)
    ∧ SiteStats.created (Stats.sites stats2) = 0
    ∧ SiteStats.skipped (Stats.sites stats2) = SiteStats.skipped (Stats.sites stats1)
    ∧ SiteStats.updated (Stats.sites stats2) + SiteStats.skipped (Stats.sites stats2)
      = SiteStats.total (Stats.sites stats2).
Proof.
  intros (d & groups & sites & configs & stA & locA & stB & locB
          & -> & Hg & Hs & Hc & HA & HB & -> & ->)%importData_success%importData_try_Normal.
  destruct (importSites_frame _ _ _ _ _ HB) as (HgroupsB & HmapB & _).
  set (st1 := mkStore (mockGroups stB) (mockSites stB)
                (map_fold assign (mockConfigs stB) configs)
                (ticks stB)).
  set (loc0 := mkLocals (Stats.mk (GroupStats.mk (length groups) 0 0)
                                  (SiteStats.mk (length sites) 0 0 0)) ∅) in *.
  destruct (importGroups_replay _ _ _ _ _ HA st1 loc0)
    as (locA2 & HA2 & HmapA2 & HsitesA2 & HtotalA2 & HcreatedA2 & HmergedA2);
    [by simpl; rewrite HgroupsB|done|].
  destruct (importSites_replay _ _ _ _ _ HB st1 locA2)
    as (stB2 & locB2 & HB2 & HgroupsB2 & HtotalB2 & HcreatedB2 & HskippedB2 & HupdatedB2);
    [done..|].
  eexists _, (stats locB2). split.
  { apply importData_success, importData_try_Normal.
    by eexists d, groups, sites, configs, st1, locA2, stB2, locB2. }
  (* the statistics of the first run *)
  pose proof (importGroup_counters clock (length groups)
                (SiteStats.mk (length sites) 0 0 0) groups loc0 st) as H1.
  rewrite HA in H1.
  destruct H1 as (Htg1 & _ & Hsites1); [subst loc0; split_and!; simpl; (done || lia)|].
  pose proof (importSite_counters clock (length sites)
                (Stats.groups (stats locA)) sites locA stA) as H2.
  rewrite HB in H2.
  destruct H2 as (Hts1 & _ & Hgroups1); [rewrite Hsites1; split_and!; simpl; (done || lia)|].
  rewrite HgroupsB2, Hgroups1, HtotalA2, HcreatedA2, HmergedA2, HtotalB2, HcreatedB2,
    HsitesA2, Htg1, Hts1.
  rewrite HsitesA2, Hsites1 in HskippedB2. rewrite HsitesA2 in HupdatedB2.
  subst loc0. simpl in *. split_and!; lia.
Qed.

(** C1. When an import succeeds without skipping any site (no site of the
    snapshot has an unresolved group reference) and the same snapshot is
    imported again right away, the second import succeeds and reports no
    group created, every group merged, no site created and every site
    updated. *)
Theorem import_twice_idempotent data st st1 stats1 :
  importData clock data st = Normal st1 (ImportSuccess stats1) →
  SiteStats.skipped (Stats.sites stats1) = 0 →
  ∃ st2 stats2,
    importData clock data st1 = Normal st2 (ImportSuccess stats2)
    ∧ GroupStats.created (Stats.groups stats2) = 0
    ∧ GroupStats.merged (Stats.groups stats2) = GroupStats.total (Stats.groups stats2)
    ∧ SiteStats.created (Stats.sites stats2) = 0
    ∧ SiteStats.updated (Stats.sites stats2) = SiteStats.total (Stats.sites stats2).
Proof.
  intros Hrun Hskipped.
  destruct (import_twice _ _ _ _ Hrun)
    as (st2 & stats2 & Hrun2 & _ & Hcreated & Hmerged & _ & Hsites & Hsk & Hupd).
  exists st2, stats2. split_and!; (done || lia).
Qed.

End ImportTwice.

(** ** Single-entity operations *)

Section Crud.

Variable clock : nat → string.

Lemma NoDup_insert_fresh {A} (l : list A) (i : nat) (y : A) :
  NoDup l → y ∉ l → NoDup (<[i := y]> l).
Proof.
  revert i. induction l as [|a l IH]; intros i Hl Hy; [done|].
  apply NoDup_cons in Hl as [Ha Hl]. apply not_elem_of_cons in Hy as [Hya Hy].
  destruct i as [|i]; simpl.
  - by apply NoDup_cons.
  - apply NoDup_cons. split; [|by apply IH].
    intros Hin. apply list_elem_of_lookup in Hin as [j Hj].
    destruct (decide (j = i)) as [->|Hne].
    + destruct (decide (i < length l)) as [Hlt|Hge].
      * rewrite list_lookup_insert_eq in Hj by done. by simplify_eq.
      * rewrite list_insert_ge in Hj by lia. by apply list_elem_of_lookup_2 in Hj.
    + rewrite list_lookup_insert_ne in Hj by done. by apply list_elem_of_lookup_2 in Hj.
Qed.

(** Overwriting an element keeps the keys distinct when the new key is the
    old one or is not in use. *)
Lemma NoDup_fmap_insert {A B} (f : A → B) (l : list A) (i : nat) (x x' : A) :
  NoDup (f <$> l) → l !! i = Some x →
  f x' = f x ∨ f x' ∉ f <$> l →
  NoDup (f <$> <[i := x']> l).
Proof.
  intros Hl Hi Hkey. rewrite list_fmap_insert. destruct Hkey as [->|Hfresh].
  - rewrite list_insert_id; [done|]. by rewrite list_lookup_fmap, Hi.
  - by apply NoDup_insert_fresh.
Qed.

(** Conversely, distinct keys after the overwrite mean that the new key is
    the old one or was not in use. *)
Lemma NoDup_fmap_insert_inv {A B} `{EqDecision B} (f : A → B) (l : list A)
    (i : nat) (x x' : A) :
  l !! i = Some x →
  NoDup (f <$> <[i := x']> l) →
  f x' = f x ∨ f x' ∉ f <$> l.
Proof.
  intros Hi Hl. destruct (decide (f x' = f x)) as [|Hne]; [by left|right].
  intros [j Hj]%list_elem_of_lookup.
  assert (j ≠ i) as Hji.
  { intros ->. rewrite list_lookup_fmap, Hi in Hj. simpl in Hj. congruence. }
  rewrite list_fmap_insert in Hl. apply Hji.
  apply (NoDup_lookup _ j i (f x') Hl).
  - by rewrite list_lookup_insert_ne.
  - apply list_lookup_insert_eq. rewrite length_fmap. by eapply lookup_lt_Some.
Qed.

Lemma NoDup_delete {A} (l : list A) i : NoDup l → NoDup (delete i l).
Proof. intros Hl. eapply sublist_NoDup; [done|apply sublist_delete]. Qed.

Lemma NoDup_snoc_inv {A} (l : list A) (x : A) : NoDup (l ++ [x]) → x ∉ l.
Proof.
  intros (_ & Hdisjoint & _)%NoDup_app Hin.
  apply (Hdisjoint x Hin), list_elem_of_here.
Qed.

(** *** What each operation does to the store *)

Lemma createGroup_run group st :
  createGroup clock group st =
    Normal (mkStore (mockGroups st ++ [pushed_group clock group st])
                    (mockSites st) (mockConfigs st) (S (S (ticks st))))
           (pushed_group clock group st).
Proof. done. Qed.

Lemma createSite_run site st :
  createSite clock site st =
    Normal (mkStore (mockGroups st)
                    (mockSites st ++ [pushed_site clock site (Site.group_id site) st])
                    (mockConfigs st) (S (S (ticks st))))
           (pushed_site clock site (Site.group_id site) st).
Proof. done. Qed.

Lemma updateGroup_found id group st index existing :
  list_find (λ g, Group.id g = Some id) (mockGroups st) = Some (index, existing) →
  updateGroup clock id group st =
    Normal (mkStore (<[index := spread_group existing group (clock (ticks st))]>
                       (mockGroups st))
                    (mockSites st) (mockConfigs st) (S (ticks st)))
           (Some (spread_group existing group (clock (ticks st)))).
Proof. intros Hfind. unfold updateGroup. js_simpl. by rewrite Hfind. Qed.

Lemma updateGroup_not_found id group st :
  list_find (λ g, Group.id g = Some id) (mockGroups st) = None →
  updateGroup clock id group st = Normal st None.
Proof. intros Hfind. unfold updateGroup. js_simpl. by rewrite Hfind. Qed.

Lemma updateSite_found id site st index existing :
  list_find (λ s, Site.id s = Some id) (mockSites st) = Some (index, existing) →
  updateSite clock id site st =
    Normal (mkStore (mockGroups st)
                    (<[index := spread_site existing site (clock (ticks st))]>
                       (mockSites st))
                    (mockConfigs st) (S (ticks st)))
           (Some (spread_site existing site (clock (ticks st)))).
Proof. intros Hfind. unfold updateSite. js_simpl. by rewrite Hfind. Qed.

Lemma updateSite_not_found id site st :
  list_find (λ s, Site.id s = Some id) (mockSites st) = None →
  updateSite clock id site st = Normal st None.
Proof. intros Hfind. unfold updateSite. js_simpl. by rewrite Hfind. Qed.

(** *** Identity *)

Lemma createGroup_identity group st :
  identity_invariant st →
  Group.name group ∉ Group.name <$> mockGroups st →
  identity_invariant (store_of (createGroup clock group st)).
Proof.
  intros [Hgroups Hsites] Hfresh. rewrite createGroup_run. split; [|done].
  simpl. rewrite fmap_app. by apply NoDup_snoc_fresh.
Qed.

Lemma createSite_identity site st :
  identity_invariant st →
  site_key site ∉ site_key <$> mockSites st →
  identity_invariant (store_of (createSite clock site st)).
Proof.
  intros [Hgroups Hsites] Hfresh. rewrite createSite_run. split; [done|].
  simpl. rewrite fmap_app. by apply NoDup_snoc_fresh.
Qed.

Lemma updateGroup_identity id group st :
  identity_invariant st →
  (∀ index existing name,
     list_find (λ g, Group.id g = Some id) (mockGroups st) = Some (index, existing) →
     PartialGroup.name group = Some name →
     name = Group.name existing ∨ name ∉ Group.name <$> mockGroups st) →
  identity_invariant (store_of (updateGroup clock id group st)).
Proof.
  intros [Hgroups Hsites] Hname.
  destruct (list_find (λ g, Group.id g = Some id) (mockGroups st))
    as [[index existing]|] eqn:Hfind.
  - rewrite (updateGroup_found _ _ _ _ _ Hfind). split; [|done]. simpl.
    pose proof Hfind as (Hlookup & _ & _)%list_find_Some.
    eapply NoDup_fmap_insert; [done..|]. simpl.
    destruct (PartialGroup.name group) as [name|] eqn:Hp; simpl; [|by left].
    by eapply Hname.
  - by rewrite updateGroup_not_found.
Qed.

Lemma updateSite_identity id site st :
  identity_invariant st →
  (∀ index existing,
     list_find (λ s, Site.id s = Some id) (mockSites st) = Some (index, existing) →
     let key := (default (Site.group_id existing) (PartialSite.group_id site),
                 default (Site.url existing) (PartialSite.url site)) in
     key = site_key existing ∨ key ∉ site_key <$> mockSites st) →
  identity_invariant (store_of (updateSite clock id site st)).
Proof.
  intros [Hgroups Hsites] Hkey.
  destruct (list_find (λ s, Site.id s = Some id) (mockSites st))
    as [[index existing]|] eqn:Hfind.
  - rewrite (updateSite_found _ _ _ _ _ Hfind). split; [done|]. simpl.
    pose proof Hfind as (Hlookup & _ & _)%list_find_Some.
    eapply NoDup_fmap_insert; [done..|]. by apply (Hkey index).
  - by rewrite updateSite_not_found.
Qed.

Lemma createGroup_identity_inv group st :
  identity_invariant (store_of (createGroup clock group st)) →
  Group.name group ∉ Group.name <$> mockGroups st.
Proof.
  rewrite createGroup_run. intros [Hgroups _]. simpl in Hgroups.
  rewrite fmap_app in Hgroups. by apply NoDup_snoc_inv in Hgroups.
Qed.

Lemma createSite_identity_inv site st :
  identity_invariant (store_of (createSite clock site st)) →
  site_key site ∉ site_key <$> mockSites st.
Proof.
  rewrite createSite_run. intros [_ Hsites]. simpl in Hsites.
  rewrite fmap_app in Hsites. by apply NoDup_snoc_inv in Hsites.
Qed.

Lemma updateGroup_identity_inv id group st index existing name :
  identity_invariant (store_of (updateGroup clock id group st)) →
  list_find (λ g, Group.id g = Some id) (mockGroups st) = Some (index, existing) →
  PartialGroup.name group = Some name →
  name = Group.name existing ∨ name ∉ Group.name <$> mockGroups st.
Proof.
  intros Hinv Hfind Hname. rewrite (updateGroup_found _ _ _ _ _ Hfind) in Hinv.
  destruct Hinv as [Hgroups _]. simpl in Hgroups.
  apply list_find_Some in Hfind as (Hlookup & _ & _).
  apply (NoDup_fmap_insert_inv _ _ _ _ _ Hlookup) in Hgroups.
  simpl in Hgroups. by rewrite Hname in Hgroups.
Qed.

Lemma updateSite_identity_inv id site st index existing :
  identity_invariant (store_of (updateSite clock id site st)) →
  list_find (λ s, Site.id s = Some id) (mockSites st) = Some (index, existing) →
  let key := (default (Site.group_id existing) (PartialSite.group_id site),
              default (Site.url existing) (PartialSite.url site)) in
  key = site_key existing ∨ key ∉ site_key <$> mockSites st.
Proof.
  intros Hinv Hfind. rewrite (updateSite_found _ _ _ _ _ Hfind) in Hinv.
  destruct Hinv as [_ Hsites]. simpl in Hsites.
  apply list_find_Some in Hfind as (Hlookup & _ & _).
  by apply (NoDup_fmap_insert_inv _ _ _ _ _ Hlookup) in Hsites.
Qed.

Lemma deleteGroup_identity id st :
  identity_invariant st → identity_invariant (store_of (deleteGroup id st)).
Proof.
  intros [Hgroups Hsites]. unfold deleteGroup. js_simpl.
  destruct (list_find _ (mockGroups st)) as [[index g]|]; [|done].
  split; [|done]. simpl. rewrite list_fmap_delete. by apply NoDup_delete.
Qed.

Lemma deleteSite_identity id st :
  identity_invariant st → identity_invariant (store_of (deleteSite id st)).
Proof.
  intros [Hgroups Hsites]. unfold deleteSite. js_simpl.
  destruct (list_find _ (mockSites st)) as [[index s]|]; [|done].
  split; [done|]. simpl. rewrite list_fmap_delete. by apply NoDup_delete.
Qed.

(** *** Surrogate ids under update *)

(** What an update does to the ids: the matched entity takes the id the
    partial record carries, if it carries one. *)
Lemma updateGroup_ids id group st :
  Group.id <$> mockGroups (store_of (updateGroup clock id group st))
    = match list_find (λ g, Group.id g = Some id) (mockGroups st),
            PartialGroup.id group with
      | Some (index, _), Some new_id => <[index := new_id]> (Group.id <$> mockGroups st)
      | _, _ => Group.id <$> mockGroups st
      end.
Proof.
  destruct (list_find (λ g, Group.id g = Some id) (mockGroups st))
    as [[index existing]|] eqn:Hfind.
  - rewrite (updateGroup_found _ _ _ _ _ Hfind). simpl.
    apply list_find_Some in Hfind as (Hlookup & _ & _).
    rewrite list_fmap_insert. simpl.
    destruct (PartialGroup.id group) as [new_id|]; simpl; [done|].
    apply list_insert_id. by rewrite list_lookup_fmap, Hlookup.
  - by rewrite updateGroup_not_found.
Qed.

Lemma updateSite_ids id site st :
  Site.id <$> mockSites (store_of (updateSite clock id site st))
    = match list_find (λ s, Site.id s = Some id) (mockSites st),
            PartialSite.id site with
      | Some (index, _), Some new_id => <[index := new_id]> (Site.id <$> mockSites st)
      | _, _ => Site.id <$> mockSites st
      end.
Proof.
  destruct (list_find (λ s, Site.id s = Some id) (mockSites st))
    as [[index existing]|] eqn:Hfind.
  - rewrite (updateSite_found _ _ _ _ _ Hfind). simpl.
    apply list_find_Some in Hfind as (Hlookup & _ & _).
    rewrite list_fmap_insert. simpl.
    destruct (PartialSite.id site) as [new_id|]; simpl; [done|].
    apply list_insert_id. by rewrite list_lookup_fmap, Hlookup.
  - by rewrite updateSite_not_found.
Qed.

(** C6 (as amended). [updateGroup] and [updateSite] leave every id as it
    was when the partial record carries no [id] property or carries the id
    the update was called with.  When the record carries an [id] property
    and an entity bears the id the update was called with, the first such
    entity takes the carried id (which may be another number or
    [undefined]) and all other ids stay. *)
Theorem update_overwrites_id_from_record id group site st :
  ((PartialGroup.id group = None ∨ PartialGroup.id group = Some (Some id)) →
   Group.id <$> mockGroups (store_of (updateGroup clock id group st))
     = Group.id <$> mockGroups st)
  ∧ ((PartialSite.id site = None ∨ PartialSite.id site = Some (Some id)) →
     Site.id <$> mockSites (store_of (updateSite clock id site st))
       = Site.id <$> mockSites st)
  ∧ (∀ index existing new_id,
       list_find (λ g, Group.id g = Some id) (mockGroups st) = Some (index, existing) →
       PartialGroup.id group = Some new_id →
       Group.id <$> mockGroups (store_of (updateGroup clock id group st))
         = <[index := new_id]> (Group.id <$> mockGroups st))
  ∧ (∀ index existing new_id,
       list_find (λ s, Site.id s = Some id) (mockSites st) = Some (index, existing) →
       PartialSite.id site = Some new_id →
       Site.id <$> mockSites (store_of (updateSite clock id site st))
         = <[index := new_id]> (Site.id <$> mockSites st)).
Proof.
  split_and!.
  - intros Hid. rewrite updateGroup_ids.
    destruct (list_find (λ g, Group.id g = Some id) (mockGroups st))
      as [[index existing]|] eqn:Hfind; [|done].
    destruct Hid as [->| ->]; [done|].
    apply list_find_Some in Hfind as (Hlookup & Hexisting & _).
    apply list_insert_id. by rewrite list_lookup_fmap, Hlookup, <-Hexisting.
  - intros Hid. rewrite updateSite_ids.
    destruct (list_find (λ s, Site.id s = Some id) (mockSites st))
      as [[index existing]|] eqn:Hfind; [|done].
    destruct Hid as [->| ->]; [done|].
    apply list_find_Some in Hfind as (Hlookup & Hexisting & _).
    apply list_insert_id. by rewrite list_lookup_fmap, Hlookup, <-Hexisting.
  - intros index existing new_id Hfind Hid. by rewrite updateGroup_ids, Hfind, Hid.
  - intros index existing new_id Hfind Hid. by rewrite updateSite_ids, Hfind, Hid.
Qed.

End Crud.

(** ** References across [importData] *)

Section References.

Variable clock : nat → string.

(** C8 (as amended). Whatever the snapshot and however [importData] ends,
    every id that referred to a live group before still does, and every
    site of the resulting store that is not, as it stands, a site of the
    store before (every site the import created or rewrote) belongs to a
    live group; so reference integrity, when it holds before the import,
    holds after it. *)
Theorem importData_reference_integrity data st :
  (∀ gid, group_live st gid →
          group_live (store_of (importData clock data st)) gid)
  ∧ (∀ s, s ∈ mockSites (store_of (importData clock data st)) →
          s ∈ mockSites st
          ∨ group_live (store_of (importData clock data st)) (Site.group_id s))
  ∧ (reference_integrity st →
     reference_integrity (store_of (importData clock data st))).
Proof.
  destruct (importData_written_sites_live clock data st) as [Hmono Hsites].
  split_and!; [done..|]. intros Hbefore s Hs.
  destruct (Hsites s Hs) as [Hold|Hlive]; [|done].
  by apply Hmono, Hbefore.
Qed.

End References.

(** ** Batch reordering *)

(** Neither reordering method reads the clock or writes [updated_at]. *)
Lemma updateGroupOrder_keeps_updated_at groupOrders :
  ∀ st, ∃ st',
    updateGroupOrder groupOrders st = Normal st' true
    ∧ Group.updated_at <$> mockGroups st' = Group.updated_at <$> mockGroups st
    ∧ mockSites st' = mockSites st
    ∧ ticks st' = ticks st.
Proof.
  unfold updateGroupOrder.
  induction groupOrders as [|order groupOrders IH]; intros st.
  - exists st. by js_simpl.
  - simpl. js_simpl.
    destruct (list_find (λ g, Group.id g = Some (Order.id order)) (mockGroups st))
      as [[index group]|] eqn:Hfind.
    + destruct (IH (mkStore
                      (<[index := set_group_order group (Order.order_num order)]>
                         (mockGroups st))
                      (mockSites st) (mockConfigs st) (ticks st)))
        as (st' & Hrun & Hupd & Hsites & Hticks).
      exists st'. split; [done|]. split; [|done]. rewrite Hupd. simpl.
      apply list_find_Some in Hfind as (Hlookup & _ & _).
      rewrite list_fmap_insert. apply list_insert_id.
      by rewrite list_lookup_fmap, Hlookup.
    + destruct (IH st) as (st' & Hrun & Hupd & Hsites & Hticks). by exists st'.
Qed.

Lemma updateSiteOrder_keeps_updated_at siteOrders :
  ∀ st, ∃ st',
    updateSiteOrder siteOrders st = Normal st' true
    ∧ Site.updated_at <$> mockSites st' = Site.updated_at <$> mockSites st
    ∧ mockGroups st' = mockGroups st
    ∧ ticks st' = ticks st.
Proof.
  unfold updateSiteOrder.
  induction siteOrders as [|order siteOrders IH]; intros st.
  - exists st. by js_simpl.
  - simpl. js_simpl.
    destruct (list_find (λ s, Site.id s = Some (Order.id order)) (mockSites st))
      as [[index site]|] eqn:Hfind.
    + destruct (IH (mkStore (mockGroups st)
                      (<[index := set_site_order site (Order.order_num order)]>
                         (mockSites st))
                      (mockConfigs st) (ticks st)))
        as (st' & Hrun & Hupd & Hgroups & Hticks).
      exists st'. split; [done|]. split; [|done]. rewrite Hupd. simpl.
      apply list_find_Some in Hfind as (Hlookup & _ & _).
      rewrite list_fmap_insert. apply list_insert_id.
      by rewrite list_lookup_fmap, Hlookup.
    + destruct (IH st) as (st' & Hrun & Hupd & Hgroups & Hticks). by exists st'.
Qed.

(** ** Visibility *)

Lemma public_group_ids (groups : list Group) (gid : Z) :
  Some gid ∈ Group.id <$> filter (λ g, Group.is_public g = Some 1%Z) groups ↔
  Exists (λ g, group_public g ∧ Group.id g = Some gid) groups.
Proof.
  rewrite Exists_exists, list_elem_of_fmap. split.
  - intros (g & Hid & [Hpub Hg]%list_elem_of_filter). by exists g.
  - intros (g & Hg & Hpub & Hid). exists g. split; [done|].
    by apply list_elem_of_filter.
Qed.

Lemma visible_sites_filter (groups : list Group) (sites : list Site) :
  filter (λ site, Site.is_public site = Some 1%Z
                  ∧ Some (Site.group_id site)
                    ∈ Group.id <$> filter (λ g, Group.is_public g = Some 1%Z) groups)
         sites
  = filter (site_visible groups) sites.
Proof.
  apply list_filter_iff. intros s. unfold site_visible.
  by rewrite public_group_ids.
Qed.

(** C9. For a visitor ([isAuthenticated] false) [getGroups] returns exactly
    the public groups, [getSites] exactly the public sites whose [group_id]
    is the id of a public group, and [getGroupsWithSites] the public groups,
    each with those of these sites that belong to it.  For an authenticated
    caller the same methods return all groups and all sites; no query
    changes the store. *)
Theorem visibility_filter c st :
  (isAuthenticated c = false →
     getGroups c st = Normal st (filter group_public (mockGroups st))
     ∧ getSites c None st
       = Normal st (filter (site_visible (mockGroups st)) (mockSites st))
     ∧ getGroupsWithSites c st
       = Normal st
           ((λ group,
               GroupWithSites.mk group
                 (filter (λ site, Some (Site.group_id site) = Group.id group)
                         (filter (site_visible (mockGroups st)) (mockSites st))))
            <$> filter group_public (mockGroups st)))
  ∧ (isAuthenticated c = true →
     getGroups c st = Normal st (mockGroups st)
     ∧ getSites c None st = Normal st (mockSites st)
     ∧ getGroupsWithSites c st
       = Normal st
           ((λ group,
               GroupWithSites.mk group
                 (filter (λ site, Some (Site.group_id site) = Group.id group)
                         (mockSites st)))
            <$> mockGroups st)).
Proof.
  unfold getGroups, getSites, getGroupsWithSites. split; intros ->; js_simpl.
  - rewrite visible_sites_filter. done.
  - done.
Qed.

(** With a group id that is not zero, [getSites] keeps the sites of that
    group among the ones it would return without it. *)
Lemma getSites_by_group c groupId st :
  groupId ≠ 0%Z →
  ∃ sites,
    getSites c None st = Normal st sites
    ∧ getSites c (Some groupId) st
      = Normal st (filter (λ site, Site.group_id site = groupId) sites).
Proof.
  intros Hnz. unfold getSites. js_simpl. rewrite decide_False by done.
  by eexists.
Qed.

(** ** Configuration *)


Lemma assign_insert key value (m : gmap string string) :
  key ≠ "__proto__" ∨ is_Some (m !! key) → assign key value m = <[key := value]> m.
Proof.
  intros Hkey. unfold assign. apply decide_False. intros [-> Hnone].
  destruct Hkey as [?|[? Hsome]]; [done|]. by rewrite Hnone in Hsome.
Qed.

Lemma assign_ignored value (m : gmap string string) :
  m !! "__proto__" = None → assign "__proto__" value m = m.
Proof. intros Hnone. unfold assign. by apply decide_True. Qed.



(** ** Further properties of the single-entity operations *)

Section CrudRoundTrips.

Variable clock : nat → string.

(** A fresh id lies above every id in use, as long as the sum is exact. *)
Lemma next_id_above ids k : room_for 1 ids → Some k ∈ ids → (k < next_id ids)%Z.
Proof.
  intros Hroom Hin%max_id_above. rewrite next_id_exact by done. lia.
Qed.

Lemma next_id_not_in ids : room_for 1 ids → Some (next_id ids) ∉ ids.
Proof. intros Hroom Hin. apply next_id_above in Hin; [lia|done]. Qed.

Lemma list_find_snoc_fresh {A} (P : A → Prop) `{!∀ x, Decision (P x)}
    (l : list A) (x : A) :
  (∀ y, y ∈ l → ¬ P y) → P x → list_find P (l ++ [x]) = Some (length l, x).
Proof.
  intros Hl Hx. apply list_find_Some. split_and!.
  - by rewrite lookup_app_r, Nat.sub_diag.
  - done.
  - intros j y Hj Hlt. apply Hl. rewrite lookup_app_l in Hj by done.
    by eapply list_elem_of_lookup_2.
Qed.

Lemma list_find_no_id_group (id : Z) (l : list Group) :
  (∀ g, g ∈ l → Group.id g ≠ Some id) →
  list_find (λ g, Group.id g = Some id) l = None.
Proof. intros Hl. apply list_find_None, Forall_forall. auto. Qed.

Lemma list_find_no_id_site (id : Z) (l : list Site) :
  (∀ s, s ∈ l → Site.id s ≠ Some id) →
  list_find (λ s, Site.id s = Some id) l = None.
Proof. intros Hl. apply list_find_None, Forall_forall. auto. Qed.


(** X2. With an id that no live group (site) bears, [getGroup] and
    [updateGroup] return null and [deleteGroup] returns false (likewise for
    sites), and none of them changes the store or reads the clock. *)
Theorem unknown_id_is_no_op id group site st :
  (∀ g, g ∈ mockGroups st → Group.id g ≠ Some id) →
  (∀ s, s ∈ mockSites st → Site.id s ≠ Some id) →
  getGroup id st = Normal st None
  ∧ updateGroup clock id group st = Normal st None
  ∧ deleteGroup id st = Normal st false
  ∧ getSite id st = Normal st None
  ∧ updateSite clock id site st = Normal st None
  ∧ deleteSite id st = Normal st false.
Proof.
  intros Hg%list_find_no_id_group Hs%list_find_no_id_site.
  unfold getGroup, updateGroup, deleteGroup, getSite, updateSite, deleteSite.
  js_simpl. by rewrite Hg, Hs.
Qed.

(** The first element with a given key in a list without duplicate keys
    is the element with that key. *)
Lemma list_find_unique {A B} `{EqDecision B} (f : A → B) (l : list A) i x :
  NoDup (f <$> l) → l !! i = Some x →
  list_find (λ y, f y = f x) l = Some (i, x).
Proof.
  intros Hnd Hi. apply list_find_Some. split_and!; [done..|].
  intros j y Hj Hlt Heq.
  assert (j = i); [|lia].
  eapply (NoDup_lookup (f <$> l)); [done|..].
  - by rewrite list_lookup_fmap, Hj.
  - by rewrite list_lookup_fmap, Hi, Heq.
Qed.

Lemma list_find_delete_unique {A B} `{EqDecision B} (f : A → B) (l : list A) i x :
  NoDup (f <$> l) → l !! i = Some x →
  list_find (λ y, f y = f x) (delete i l) = None.
Proof.
  intros Hnd Hi. apply list_find_None, Forall_forall. intros y Hy Heq.
  apply list_elem_of_lookup in Hy as [j Hj].
  destruct (decide (j < i)) as [Hlt|Hge].
  - rewrite list_lookup_delete_lt in Hj by done.
    assert (j = i); [|lia].
    eapply (NoDup_lookup (f <$> l)); [done|..].
    + by rewrite list_lookup_fmap, Hj.
    + by rewrite list_lookup_fmap, Hi, Heq.
  - rewrite list_lookup_delete_ge in Hj by lia.
    assert (S j = i); [|lia].
    eapply (NoDup_lookup (f <$> l)); [done|..].
    + by rewrite list_lookup_fmap, Hj.
    + by rewrite list_lookup_fmap, Hi, Heq.
Qed.




Lemma delete_snoc {A} (l : list A) (x : A) : delete (length l) (l ++ [x]) = l.
Proof.
  induction l as [|y l IH]; [done|]. simpl. by rewrite IH.
Qed.

(** X23. Deleting what was just created undoes the creation, as long as
    the largest id in use is below 2^53 (so that the new id is not one in
    use): after [createGroup], [deleteGroup] with the id it assigned returns
    true and leaves the collections exactly as they were before the
    creation (only the clock has moved on); the same for [createSite] and
    [deleteSite]. *)
Theorem delete_undoes_create group site st :
  (room_for 1 (Group.id <$> mockGroups st) →
   ∃ st1 created id st2,
     createGroup clock group st = Normal st1 created
     ∧ Group.id created = Some id
     ∧ deleteGroup id st1 = Normal st2 true
     ∧ mockGroups st2 = mockGroups st
     ∧ mockSites st2 = mockSites st
     ∧ mockConfigs st2 = mockConfigs st)
  ∧ (room_for 1 (Site.id <$> mockSites st) →
     ∃ st1 created id st2,
       createSite clock site st = Normal st1 created
       ∧ Site.id created = Some id
       ∧ deleteSite id st1 = Normal st2 true
       ∧ mockGroups st2 = mockGroups st
       ∧ mockSites st2 = mockSites st
       ∧ mockConfigs st2 = mockConfigs st).
Proof.
  split; intros Hroom.
  - eexists _, _, _, _. rewrite createGroup_run. split; [done|]. split; [done|].
    unfold deleteGroup. js_simpl. rewrite list_find_snoc_fresh; [| |done].
    + simpl. split; [done|]. by rewrite delete_snoc.
    + intros g Hg Hid. eapply next_id_not_in; [done|]. rewrite <-Hid.
      by apply list_elem_of_fmap_2.
  - eexists _, _, _, _. rewrite createSite_run. split; [done|]. split; [done|].
    unfold deleteSite. js_simpl. rewrite list_find_snoc_fresh; [| |done].
    + simpl. split; [done|]. by rewrite delete_snoc.
    + intros s Hs Hid. eapply next_id_not_in; [done|]. rewrite <-Hid.
      by apply list_elem_of_fmap_2.
Qed.

End CrudRoundTrips.

Lemma elem_of_delete_unique {A} (l : list A) i x y :
  NoDup l → l !! i = Some x → y ∈ delete i l ↔ y ∈ l ∧ y ≠ x.
Proof.
  intros Hnd Hi. pose proof (take_drop_middle l i x Hi) as Hsplit.
  assert (y ∈ l ↔ y ∈ take i l ∨ y = x ∨ y ∈ drop (S i) l) as ->.
  { rewrite <-Hsplit at 1. by rewrite elem_of_app, elem_of_cons. }
  rewrite <-Hsplit in Hnd. apply NoDup_app in Hnd as (_ & Hdisj & Hnd2).
  apply NoDup_cons in Hnd2 as [Hx2 _].
  rewrite delete_take_drop, elem_of_app. split.
  - intros [Hy|Hy]; (split; [tauto|intros ->]).
    + apply (Hdisj x Hy). by left.
    + done.
  - intros [[?|[?|?]] ?]; tauto.
Qed.

(** X3. When the ids of the live groups are pairwise distinct, deleting
    a live group by its id returns true and removes that group and no
    other: [getGroup] no longer finds the id, every other group stays, and
    the sites (also those of the deleted group) and the settings are not
    touched. *)
Theorem deleteGroup_then_getGroup id g st :
  NoDup (Group.id <$> mockGroups st) →
  g ∈ mockGroups st →
  Group.id g = Some id →
  ∃ st',
    deleteGroup id st = Normal st' true
    ∧ getGroup id st' = Normal st' None
    ∧ (∀ g', g' ∈ mockGroups st' ↔ g' ∈ mockGroups st ∧ g' ≠ g)
    ∧ S (length (mockGroups st')) = length (mockGroups st)
    ∧ mockSites st' = mockSites st
    ∧ mockConfigs st' = mockConfigs st
    ∧ ticks st' = ticks st.
Proof.
  intros Hnd [index Hindex]%list_elem_of_lookup Hid.
  pose proof (list_find_unique Group.id _ _ _ Hnd Hindex) as Hfind.
  pose proof (list_find_delete_unique Group.id _ _ _ Hnd Hindex) as Hgone.
  rewrite Hid in Hfind, Hgone.
  eexists. split; [unfold deleteGroup; js_simpl; by rewrite Hfind|].
  split_and!; try done.
  - unfold getGroup. js_simpl. by rewrite Hgone.
  - intros g'. simpl. apply elem_of_delete_unique; [|done].
    by eapply NoDup_fmap_1.
  - simpl. rewrite length_delete by eauto.
    apply lookup_lt_Some in Hindex. lia.
Qed.

(** X4. The same for sites: with pairwise distinct site ids, deleting a
    live site by its id removes that site and no other, and leaves the
    groups alone. *)
Theorem deleteSite_then_getSite id s st :
  NoDup (Site.id <$> mockSites st) →
  s ∈ mockSites st →
  Site.id s = Some id →
  ∃ st',
    deleteSite id st = Normal st' true
    ∧ getSite id st' = Normal st' None
    ∧ (∀ s', s' ∈ mockSites st' ↔ s' ∈ mockSites st ∧ s' ≠ s)
    ∧ S (length (mockSites st')) = length (mockSites st)
    ∧ mockGroups st' = mockGroups st
    ∧ mockConfigs st' = mockConfigs st
    ∧ ticks st' = ticks st.
Proof.
  intros Hnd [index Hindex]%list_elem_of_lookup Hid.
  pose proof (list_find_unique Site.id _ _ _ Hnd Hindex) as Hfind.
  pose proof (list_find_delete_unique Site.id _ _ _ Hnd Hindex) as Hgone.
  rewrite Hid in Hfind, Hgone.
  eexists. split; [unfold deleteSite; js_simpl; by rewrite Hfind|].
  split_and!; try done.
  - unfold getSite. js_simpl. by rewrite Hgone.
  - intros s'. simpl. apply elem_of_delete_unique; [|done].
    by eapply NoDup_fmap_1.
  - simpl. rewrite length_delete by eauto.
    apply lookup_lt_Some in Hindex. lia.
Qed.

(** ** Batch reordering, in general *)

Section Reordered.

Context {A : Type} (id_of : A → option Z) (set_order : A → Z → A).

Hypothesis id_of_set_order : ∀ x n, id_of (set_order x n) = id_of x.
Hypothesis set_order_twice : ∀ x n m, set_order (set_order x n) m = set_order x m.

Lemma reordered_cons order orders (l : list A) :
  reordered id_of set_order (order :: orders) l =
    reordered id_of set_order orders
      (match list_find (λ x, id_of x = Some (Order.id order)) l with
       | Some (index, x) => <[index := set_order x (Order.order_num order)]> l
       | None => l
       end).
Proof. done. Qed.

(** One order keeps the ids, and every element is what it was up to its
    order number. *)
Lemma reorder_one_pointwise order (l : list A) i x :
  l !! i = Some x →
  ∃ x',
    match list_find (λ x, id_of x = Some (Order.id order)) l with
    | Some (index, y) => <[index := set_order y (Order.order_num order)]> l
    | None => l
    end !! i = Some x'
    ∧ (x' = x
       ∨ (id_of x = Some (Order.id order)
          ∧ x' = set_order x (Order.order_num order))).
Proof.
  intros Hi.
  destruct (list_find _ l) as [[index y]|] eqn:Hfind; [|eauto].
  apply list_find_Some in Hfind as (Hindex & Hid & _).
  destruct (decide (i = index)) as [->|Hne].
  - simplify_eq. rewrite list_lookup_insert_eq by by eapply lookup_lt_Some. eauto.
  - rewrite list_lookup_insert_ne by done. eauto.
Qed.

Lemma reordered_pointwise orders :
  ∀ (l : list A) i x,
    l !! i = Some x →
    ∃ x', reordered id_of set_order orders l !! i = Some x'
          ∧ id_of x' = id_of x
          ∧ (x' = x
             ∨ ∃ order, order ∈ orders
                        ∧ id_of x = Some (Order.id order)
                        ∧ x' = set_order x (Order.order_num order)).
Proof.
  induction orders as [|order orders IH]; intros l i x Hi.
  - exists x. eauto.
  - rewrite reordered_cons.
    destruct (reorder_one_pointwise order l i x Hi) as (x1 & Hx1 & Hcase).
    destruct (IH _ i x1 Hx1) as (x' & Hx' & Hid & Hcase').
    exists x'. split; [done|].
    destruct Hcase as [->|[Hidx ->]].
    + split; [done|]. destruct Hcase' as [->|(o & Ho & Hido & ->)]; [by left|].
      right. exists o. split; [by right|done].
    + rewrite id_of_set_order in Hid. split; [done|].
      right. destruct Hcase' as [->|(o & Ho & Hido & ->)].
      * exists order. split; [by left|done].
      * exists o. rewrite set_order_twice. split; [by right|].
        by rewrite id_of_set_order in Hido.
Qed.

Lemma reordered_length orders :
  ∀ l : list A, length (reordered id_of set_order orders l) = length l.
Proof.
  induction orders as [|order orders IH]; intros l; [done|].
  rewrite reordered_cons, IH.
  destruct (list_find _ l) as [[index y]|]; [by rewrite length_insert|done].
Qed.

Lemma reordered_ids orders (l : list A) :
  id_of <$> reordered id_of set_order orders l = id_of <$> l.
Proof.
  apply list_eq. intros i. rewrite !list_lookup_fmap.
  destruct (l !! i) as [x|] eqn:Hi.
  - destruct (reordered_pointwise orders l i x Hi) as (x' & Hx' & Hid & _).
    rewrite Hx'. simpl. by rewrite Hid.
  - apply lookup_ge_None in Hi. rewrite <-(reordered_length orders) in Hi.
    apply lookup_ge_None in Hi. by rewrite Hi.
Qed.

(** Whatever does not depend on the order number is kept. *)
Lemma reordered_fmap {B} (f : A → B) orders (l : list A) :
  (∀ x n, f (set_order x n) = f x) →
  f <$> reordered id_of set_order orders l = f <$> l.
Proof.
  intros Hf. apply list_eq. intros i. rewrite !list_lookup_fmap.
  destruct (l !! i) as [x|] eqn:Hi.
  - destruct (reordered_pointwise orders l i x Hi) as (x' & Hx' & _ & Hcase).
    rewrite Hx'. simpl. f_equal.
    destruct Hcase as [->|(order & _ & _ & ->)]; [done|apply Hf].
  - apply lookup_ge_None in Hi. rewrite <-(reordered_length orders) in Hi.
    apply lookup_ge_None in Hi. by rewrite Hi.
Qed.

(** With distinct ids in the list and distinct ids among the orders, each
    order reaches the element that bears its id. *)
Lemma reordered_applies orders :
  ∀ (l : list A) order i x,
    NoDup (id_of <$> l) →
    NoDup (Order.id <$> orders) →
    order ∈ orders →
    l !! i = Some x →
    id_of x = Some (Order.id order) →
    reordered id_of set_order orders l !! i
      = Some (set_order x (Order.order_num order)).
Proof.
  intros l order i x Hl Horders Horder Hi Hid.
  destruct (reordered_pointwise orders l i x Hi) as (x' & Hx' & _ & Hcase).
  revert l i x x' Hl Horder Hi Hid Hx' Hcase.
  induction orders as [|o orders IH]; intros l i x x' Hl Horder Hi Hid Hx' Hcase.
  - by apply elem_of_nil in Horder.
  - rewrite fmap_cons in Horders. apply NoDup_cons in Horders as [Hfresh Horders].
    rewrite reordered_cons in Hx' |- *.
    apply elem_of_cons in Horder as [->|Horder].
    + (* this order: it lands on [x], and no later order bears its id *)
      assert (id_of x = Some (Order.id o)) as Hido by done.
      rewrite <-Hid.
      rewrite (list_find_unique id_of l i x Hl Hi).
      set (l1 := <[i := set_order x (Order.order_num o)]> l) in *.
      assert (l1 !! i = Some (set_order x (Order.order_num o))) as Hi1.
      { apply list_lookup_insert_eq. by eapply lookup_lt_Some. }
      destruct (reordered_pointwise orders l1 i _ Hi1) as (x2 & Hx2 & _ & Hcase2).
      rewrite Hx2. destruct Hcase2 as [->|(o' & Ho' & Hido' & _)]; [done|].
      rewrite id_of_set_order, Hido in Hido'. simplify_eq.
      destruct Hfresh. rewrite Hido'. by apply list_elem_of_fmap_2.
    + (* a later order *)
      destruct (reorder_one_pointwise o l i x Hi) as (x1 & Hx1 & Hcase1).
      assert (id_of <$>
                match list_find (λ x, id_of x = Some (Order.id o)) l with
                | Some (index, y) => <[index := set_order y (Order.order_num o)]> l
                | None => l
                end = id_of <$> l) as Hids.
      { destruct (list_find _ l) as [[index y]|] eqn:Hfind; [|done].
        apply list_find_Some in Hfind as (Hindex & _ & _).
        rewrite list_fmap_insert, id_of_set_order. apply list_insert_id.
        by rewrite list_lookup_fmap, Hindex. }
      destruct (reordered_pointwise orders _ i x1 Hx1) as (x2 & Hx2 & Hid2 & Hcase2).
      rewrite (IH Horders _ i x1 x2); [| by rewrite Hids | done | done | | done | done].
      * destruct Hcase1 as [->|[_ ->]]; [done|]. by rewrite set_order_twice.
      * destruct Hcase1 as [->|[_ ->]]; [done|]. by rewrite id_of_set_order.
Qed.

End Reordered.

Lemma updateGroupOrder_run groupOrders :
  ∀ st,
    updateGroupOrder groupOrders st =
      Normal (mkStore (reordered Group.id set_group_order groupOrders (mockGroups st))
                      (mockSites st) (mockConfigs st) (ticks st))
             true.
Proof.
  unfold updateGroupOrder.
  induction groupOrders as [|order groupOrders IH]; intros st.
  - by destruct st.
  - rewrite reordered_cons. simpl. js_simpl.
    destruct (list_find (λ g, Group.id g = Some (Order.id order)) (mockGroups st))
      as [[index group]|] eqn:Hfind.
    + by rewrite IH.
    + rewrite IH. done.
Qed.

Lemma updateSiteOrder_run siteOrders :
  ∀ st,
    updateSiteOrder siteOrders st =
      Normal (mkStore (mockGroups st)
                      (reordered Site.id set_site_order siteOrders (mockSites st))
                      (mockConfigs st) (ticks st))
             true.
Proof.
  unfold updateSiteOrder.
  induction siteOrders as [|order siteOrders IH]; intros st.
  - by destruct st.
  - rewrite reordered_cons. simpl. js_simpl.
    destruct (list_find (λ s, Site.id s = Some (Order.id order)) (mockSites st))
      as [[index site]|] eqn:Hfind.
    + by rewrite IH.
    + rewrite IH. done.
Qed.

(** X7. A batch reordering returns true and changes nothing but order
    numbers: the collections keep their length, every element keeps all its
    other fields, an element whose id no order names is not touched at all
    (ids that match nothing are skipped silently), and the other collection,
    the settings and the clock are left alone. *)
Theorem reorder_frame groupOrders siteOrders st :
  (∃ st',
     updateGroupOrder groupOrders st = Normal st' true
     ∧ (λ g, set_group_order g 0%Z) <$> mockGroups st'
       = (λ g, set_group_order g 0%Z) <$> mockGroups st
     ∧ (∀ i g, mockGroups st !! i = Some g →
               (∀ order, order ∈ groupOrders → Group.id g ≠ Some (Order.id order)) →
               mockGroups st' !! i = Some g)
     ∧ mockSites st' = mockSites st
     ∧ mockConfigs st' = mockConfigs st
     ∧ ticks st' = ticks st)
  ∧ (∃ st',
       updateSiteOrder siteOrders st = Normal st' true
       ∧ (λ s, set_site_order s 0%Z) <$> mockSites st'
         = (λ s, set_site_order s 0%Z) <$> mockSites st
       ∧ (∀ i s, mockSites st !! i = Some s →
                 (∀ order, order ∈ siteOrders → Site.id s ≠ Some (Order.id order)) →
                 mockSites st' !! i = Some s)
       ∧ mockGroups st' = mockGroups st
       ∧ mockConfigs st' = mockConfigs st
       ∧ ticks st' = ticks st).
Proof.
  split.
  - eexists. rewrite updateGroupOrder_run. split; [done|]. simpl.
    split_and!; try done.
    + apply list_eq. intros i. rewrite !list_lookup_fmap.
      destruct (mockGroups st !! i) as [g|] eqn:Hi.
      * destruct (reordered_pointwise Group.id set_group_order
                    (λ _ _, eq_refl) (λ _ _ _, eq_refl) groupOrders _ i g Hi)
          as (g' & -> & _ & [->|(o & _ & _ & ->)]); done.
      * apply lookup_ge_None in Hi.
        rewrite <-(reordered_length Group.id set_group_order groupOrders) in Hi.
        apply lookup_ge_None in Hi. by rewrite Hi.
    + intros i g Hi Hno.
      destruct (reordered_pointwise Group.id set_group_order
                  (λ _ _, eq_refl) (λ _ _ _, eq_refl) groupOrders _ i g Hi)
        as (g' & -> & _ & [->|(o & Ho & Hid & _)]); [done|].
      by destruct (Hno o Ho).
  - eexists. rewrite updateSiteOrder_run. split; [done|]. simpl.
    split_and!; try done.
    + apply list_eq. intros i. rewrite !list_lookup_fmap.
      destruct (mockSites st !! i) as [s|] eqn:Hi.
      * destruct (reordered_pointwise Site.id set_site_order
                    (λ _ _, eq_refl) (λ _ _ _, eq_refl) siteOrders _ i s Hi)
          as (s' & -> & _ & [->|(o & _ & _ & ->)]); done.
      * apply lookup_ge_None in Hi.
        rewrite <-(reordered_length Site.id set_site_order siteOrders) in Hi.
        apply lookup_ge_None in Hi. by rewrite Hi.
    + intros i s Hi Hno.
      destruct (reordered_pointwise Site.id set_site_order
                  (λ _ _, eq_refl) (λ _ _ _, eq_refl) siteOrders _ i s Hi)
        as (s' & -> & _ & [->|(o & Ho & Hid & _)]); [done|].
      by destruct (Hno o Ho).
Qed.

(** X8. When the ids of the live groups are pairwise distinct and no id
    occurs twice among the orders, [updateGroupOrder] gives every group
    named by an order exactly that order number; likewise [updateSiteOrder]
    for sites. *)
Theorem reorder_applies groupOrders siteOrders st :
  NoDup (Group.id <$> mockGroups st) →
  NoDup (Order.id <$> groupOrders) →
  NoDup (Site.id <$> mockSites st) →
  NoDup (Order.id <$> siteOrders) →
  (∀ order i g,
     order ∈ groupOrders → mockGroups st !! i = Some g →
     Group.id g = Some (Order.id order) →
     mockGroups (store_of (updateGroupOrder groupOrders st)) !! i
       = Some (set_group_order g (Order.order_num order)))
  ∧ (∀ order i s,
       order ∈ siteOrders → mockSites st !! i = Some s →
       Site.id s = Some (Order.id order) →
       mockSites (store_of (updateSiteOrder siteOrders st)) !! i
         = Some (set_site_order s (Order.order_num order))).
Proof.
  intros Hg Hgo Hs Hso. split.
  - intros order i g Horder Hi Hid. rewrite updateGroupOrder_run. simpl.
    by apply (reordered_applies Group.id set_group_order
                (λ _ _, eq_refl) (λ _ _ _, eq_refl)).
  - intros order i s Horder Hi Hid. rewrite updateSiteOrder_run. simpl.
    by apply (reordered_applies Site.id set_site_order
                (λ _ _, eq_refl) (λ _ _ _, eq_refl)).
Qed.
(** ** The identity invariant under every operation *)

Section Identity.

Variable clock : nat → string.

Lemma updateGroupOrder_identity groupOrders st :
  identity_invariant st →
  identity_invariant (store_of (updateGroupOrder groupOrders st)).
Proof.
  intros [Hgroups Hsites]. rewrite updateGroupOrder_run. split; [|done]. simpl.
  by rewrite (reordered_fmap Group.id set_group_order (λ _ _, eq_refl)
                (λ _ _ _, eq_refl) Group.name).
Qed.

Lemma updateSiteOrder_identity siteOrders st :
  identity_invariant st →
  identity_invariant (store_of (updateSiteOrder siteOrders st)).
Proof.
  intros [Hgroups Hsites]. rewrite updateSiteOrder_run. split; [done|]. simpl.
  by rewrite (reordered_fmap Site.id set_site_order (λ _ _, eq_refl)
                (λ _ _ _, eq_refl) site_key).
Qed.

Lemma setConfig_identity key value st :
  identity_invariant st → identity_invariant (store_of (setConfig key value st)).
Proof. done. Qed.

Lemma deleteConfig_identity key st :
  identity_invariant st → identity_invariant (store_of (deleteConfig key st)).
Proof. unfold deleteConfig. js_simpl. by case_decide. Qed.

(** The operations that only read leave the collections alone. *)
Lemma queries_identity (c : Client) (groupId : option Z) (id : Z) (key : string) st :
  identity_invariant st →
  Forall identity_invariant
    [ store_of (getGroups c st); store_of (getGroupsWithSites c st);
      store_of (getGroup id st); store_of (getSites c groupId st);
      store_of (getSite id st); store_of (getConfigs st);
      store_of (getConfig key st); store_of (exportData clock st) ].
Proof.
  intros Hinv. repeat apply Forall_cons_2; try apply Forall_nil_2; try done.
  - unfold getGroups. js_simpl. by destruct (isAuthenticated c).
  - unfold getGroupsWithSites. js_simpl. by destruct (isAuthenticated c).
  - unfold getSites. js_simpl. destruct groupId as [groupId|]; [|done].
    by destruct (decide (groupId = 0%Z)).
  - unfold getConfig. js_simpl.
    destruct (mockConfigs st !! key); repeat case_decide; done.
Qed.

(** C5 (as amended). In a store where the identity invariant holds (group
    names pairwise distinct, (group_id, url) pairs of sites pairwise
    distinct), it still holds after [importData] (for every snapshot,
    however the import ends), after [deleteGroup], [deleteSite], both batch
    reorderings, [setConfig], [deleteConfig] and every operation that only
    reads.  It holds after [createGroup], respectively [createSite], exactly
    when the new name, respectively the new (group_id, url) pair, is not in
    use; and after [updateGroup], respectively [updateSite], exactly when
    the update leaves the name, respectively the pair, of the matched entity
    as it was or moves it to one that is not in use. *)
Theorem identity_invariant_preserved st :
  identity_invariant st →
  (∀ data, identity_invariant (store_of (importData clock data st)))
  ∧ (∀ id, identity_invariant (store_of (deleteGroup id st)))
  ∧ (∀ id, identity_invariant (store_of (deleteSite id st)))
  ∧ (∀ groupOrders, identity_invariant (store_of (updateGroupOrder groupOrders st)))
  ∧ (∀ siteOrders, identity_invariant (store_of (updateSiteOrder siteOrders st)))
  ∧ (∀ key value, identity_invariant (store_of (setConfig key value st)))
  ∧ (∀ key, identity_invariant (store_of (deleteConfig key st)))
  ∧ (∀ c groupId id key,
       Forall identity_invariant
         [ store_of (getGroups c st); store_of (getGroupsWithSites c st);
           store_of (getGroup id st); store_of (getSites c groupId st);
           store_of (getSite id st); store_of (getConfigs st);
           store_of (getConfig key st); store_of (exportData clock st) ])
  ∧ (∀ group,
       identity_invariant (store_of (createGroup clock group st))
       ↔ Group.name group ∉ Group.name <$> mockGroups st)
  ∧ (∀ site,
       identity_invariant (store_of (createSite clock site st))
       ↔ site_key site ∉ site_key <$> mockSites st)
  ∧ (∀ id group,
       identity_invariant (store_of (updateGroup clock id group st))
       ↔ ∀ index existing name,
           list_find (λ g, Group.id g = Some id) (mockGroups st) = Some (index, existing) →
           PartialGroup.name group = Some name →
           name = Group.name existing ∨ name ∉ Group.name <$> mockGroups st)
  ∧ (∀ id site,
       identity_invariant (store_of (updateSite clock id site st))
       ↔ ∀ index existing,
           list_find (λ s, Site.id s = Some id) (mockSites st) = Some (index, existing) →
           let key := (default (Site.group_id existing) (PartialSite.group_id site),
                       default (Site.url existing) (PartialSite.url site)) in
           key = site_key existing ∨ key ∉ site_key <$> mockSites st).
Proof.
  intros Hinv. split_and!.
  - intros data. by apply importData_identity.
  - intros id. by apply deleteGroup_identity.
  - intros id. by apply deleteSite_identity.
  - intros groupOrders. by apply updateGroupOrder_identity.
  - intros siteOrders. by apply updateSiteOrder_identity.
  - intros key value. by apply setConfig_identity.
  - intros key. by apply deleteConfig_identity.
  - intros c groupId id key. by apply queries_identity.
  - intros group. split; [apply (createGroup_identity_inv clock)|by apply createGroup_identity].
  - intros site. split; [apply (createSite_identity_inv clock)|by apply createSite_identity].
  - intros id group. split.
    + intros Hafter index existing name. by apply (updateGroup_identity_inv clock id).
    + by apply updateGroup_identity.
  - intros id site. split.
    + intros Hafter index existing. by apply (updateSite_identity_inv clock id).
    + by apply updateSite_identity.
Qed.

End Identity.

(** ** Settings *)

(** X9. [setConfig] returns true, leaves the groups and sites alone and
    changes what [getConfig] returns for no other key.  Unless the key is
    [__proto__] and the table has no entry of its own by that name, the
    value is then what [getConfigs] lists for the key and, when it is not
    the empty string, what [getConfig] returns for it.  In the excepted
    case nothing is stored, and [getConfig] returns the inherited property
    as before. *)
Theorem setConfig_then_getConfig key value st :
  ∃ st',
    setConfig key value st = Normal st' true
    ∧ mockGroups st' = mockGroups st
    ∧ mockSites st' = mockSites st
    ∧ (∀ key', key' ≠ key →
         result_of (getConfig key' st') = result_of (getConfig key' st))
    ∧ (key ≠ "__proto__" ∨ is_Some (mockConfigs st !! key) →
       (∃ table, getConfigs st' = Normal st' table ∧ table !! key = Some value)
       ∧ (value ≠ EmptyString →
          getConfig key st' = Normal st' (Some (OwnString value))))
    ∧ (key = "__proto__" → mockConfigs st !! key = None →
       st' = st ∧ getConfig key st' = Normal st' (Some (Inherited key))).
Proof.
  eexists. split; [done|]. split_and!; try done.
  - intros key' Hne.
    assert (assign key value (mockConfigs st) !! key' = mockConfigs st !! key')
      as Hsame.
    { unfold assign. case_decide; [done|]. by rewrite lookup_insert_ne. }
    unfold getConfig. js_simpl. rewrite Hsame.
    destruct (mockConfigs st !! key') as [v|]; repeat case_decide; done.
  - intros Hkey. simpl. rewrite (assign_insert _ _ _ Hkey). split.
    + eexists. split; [done|]. simpl. by rewrite lookup_insert_eq.
    + intros Hvalue. unfold getConfig. js_simpl. rewrite lookup_insert_eq.
      by rewrite decide_False.
  - intros -> Hnone. simpl. rewrite (assign_ignored _ _ Hnone).
    split; [by destruct st|]. unfold getConfig. js_simpl. by rewrite Hnone.
Qed.

(** X10. [deleteConfig] returns true exactly when [key in mockConfigs]:
    when the key is bound or is the name of a property of
    [Object.prototype].  Afterwards the key is not bound, and [getConfig]
    returns null for it unless it is such a name; every other key is bound
    as before, and deleting a key that was not bound leaves the store as it
    was. *)
Theorem deleteConfig_then_getConfig key st :
  ∃ st',
    deleteConfig key st
      = Normal st' (bool_decide (is_Some (mockConfigs st !! key)
                                 ∨ key ∈ Object_prototype_keys))
    ∧ mockConfigs st' !! key = None
    ∧ getConfig key st'
      = Normal st' (if decide (key ∈ Object_prototype_keys)
                    then Some (Inherited key) else None)
    ∧ (∀ key', key' ≠ key → mockConfigs st' !! key' = mockConfigs st !! key')
    ∧ (mockConfigs st !! key = None → st' = st)
    ∧ mockGroups st' = mockGroups st
    ∧ mockSites st' = mockSites st.
Proof.
  unfold deleteConfig, getConfig, has_property. js_simpl.
  destruct (decide (is_Some (mockConfigs st !! key) ∨ key ∈ Object_prototype_keys))
    as [Hhas|Hnot]; js_simpl.
  - eexists. split; [by rewrite bool_decide_eq_true_2|]. simpl.
    rewrite lookup_delete_eq. split_and!; try done.
    + by case_decide.
    + intros key' Hne. by rewrite lookup_delete_ne.
    + intros Hnone. rewrite delete_id by done. by destruct st.
  - exists st. split; [by rewrite bool_decide_eq_false_2|].
    assert (mockConfigs st !! key = None) as Hnone.
    { destruct (mockConfigs st !! key) eqn:Hkey; [|done].
      destruct Hnot. left. by eexists. }
    rewrite Hnone. split_and!; try done. by case_decide.
Qed.

(** ** Queries by group *)

(** X11. The joined query agrees with the query by group: whatever the
    caller, each entry of [getGroupsWithSites] whose group has an id other
    than zero carries exactly the sites that [getSites] returns for that id.
    With the id zero [getSites] does not filter by group at all. *)
Theorem getGroupsWithSites_agrees_with_getSites c st :
  (∀ entries entry id,
     getGroupsWithSites c st = Normal st entries →
     entry ∈ entries →
     Group.id (GroupWithSites.group entry) = Some id →
     id ≠ 0%Z →
     getSites c (Some id) st = Normal st (GroupWithSites.sites entry))
  ∧ getSites c (Some 0%Z) st = getSites c None st.
Proof.
  split; [|done].
  intros entries entry id Hrun Hentry Hid Hnz.
  unfold getSites. js_simpl. rewrite decide_False by done.
  unfold getGroupsWithSites in Hrun. js_simpl.
  destruct (isAuthenticated c); simpl in *; simplify_eq.
  - apply list_elem_of_fmap in Hentry as (g & -> & _). simpl in *.
    f_equal. apply list_filter_iff. intros s. rewrite Hid.
    split; [by intros ->|by intros [= ->]].
  - apply list_elem_of_fmap in Hentry as (g & -> & _). simpl in *.
    f_equal. apply list_filter_iff. intros s. rewrite Hid.
    split; [by intros ->|by intros [= ->]].
Qed.

(** ** The session across a reload *)

(** X12. With a [localStorage], a client constructed after [setToken]
    holds the token that was set and is authenticated exactly when that
    token is not the empty string; a client constructed after [clearToken]
    or [logout] holds no token and is not authenticated; without a
    [localStorage] a new client never holds a token. *)
Theorem session_survives_reload token c items :
  Session.constructor (Session.setToken token c (Some items)).2
    = mkClient (Some token) (bool_decide (token ≠ EmptyString))
  ∧ Session.constructor (Session.clearToken c (Some items)).2 = mkClient None false
  ∧ Session.constructor (Session.logout c (Some items)).2 = mkClient None false
  ∧ Session.constructor (Session.setToken token c None).2 = mkClient None false.
Proof.
  unfold Session.constructor, Session.logout, Session.clearToken, Session.setToken.
  simpl. rewrite lookup_insert_eq, lookup_delete_eq. done.
Qed.

(** X13. [isAuthenticated] and [isLoggedIn] agree on a client that was
    just constructed, and after [clearToken]; after [setToken] they agree
    exactly when the token is not the empty string (with the empty string
    the flag is set while [isLoggedIn] is false). *)
Theorem isAuthenticated_vs_isLoggedIn token c localStorage :
  isAuthenticated (Session.constructor localStorage)
    = isLoggedIn (Session.constructor localStorage)
  ∧ isAuthenticated (Session.clearToken c localStorage).1
    = isLoggedIn (Session.clearToken c localStorage).1
  ∧ isAuthenticated (Session.setToken token c localStorage).1 = true
  ∧ (isLoggedIn (Session.setToken token c localStorage).1 = true
     ↔ token ≠ EmptyString).
Proof.
  split_and!; try done.
  - unfold Session.constructor. destruct localStorage as [items|]; [|done].
    simpl. by destruct (items !! "auth_token").
  - simpl. unfold isLoggedIn. simpl. apply bool_decide_eq_true.
Qed.

(** ** A rule for [importData] *)

Section ImportRule.

Variable clock : nat → string.

Lemma hoare_for_of_elements {A L} (body : A → L → Js L) (all : list A)
    (Inv : L → Store → Prop) (E : Store → Prop) :
  (∀ x acc, x ∈ all → hoare (Inv acc) (body x acc) Inv E) →
  ∀ l acc, (∀ x, x ∈ l → x ∈ all) →
    hoare (Inv acc) (for_of body l acc) Inv E.
Proof.
  intros Hbody l. induction l as [|x l IH]; intros acc Hsub; simpl.
  - intros st HI. by js_simpl.
  - eapply hoare_bind.
    + apply Hbody, Hsub. by left.
    + intros acc'. apply IH. intros y Hy. apply Hsub. by right.
Qed.

(** An invariant of the locals and the store that holds for the initial
    locals and that every step on an element of the snapshot keeps holds
    before the settings are merged; on failure the store satisfies what the
    invariant implies. *)
Lemma importData_try_rule (P E : Store → Prop) (Inv : Locals → Store → Prop) data :
  (∀ st n m, P st →
     Inv (mkLocals (Stats.mk (GroupStats.mk n 0 0) (SiteStats.mk m 0 0 0)) ∅) st) →
  (∀ loc g st st' loc',
     Some g ∈ snapshot_groups data → Inv loc st →
     group_step clock g loc st st' loc' → Inv loc' st') →
  (∀ loc s st st' loc',
     Some s ∈ snapshot_sites data → Inv loc st →
     site_step clock s loc st st' loc' → Inv loc' st') →
  (∀ loc st, Inv loc st → E st) →
  (∀ st, P st → E st) →
  hoare P (importData_try clock data)
    (λ s st',
       ∃ loc stB configs,
         s = stats loc
         ∧ Inv loc stB
         ∧ data ≫= ExportData.configs = Some configs
         ∧ st' = mkStore (mockGroups stB) (mockSites stB)
                   (merged_configs (mockConfigs stB) configs) (ticks stB))
    E.
Proof.
  intros Hinit Hgroup Hsite HE HPE. unfold importData_try.
  eapply hoare_bind with (R := λ d st, data = Some d ∧ P st);
    [apply hoare_read; auto|]. intros d.
  eapply hoare_bind
    with (R := λ groups st, (data = Some d ∧ ExportData.groups d = Some groups) ∧ P st).
  { apply hoare_read; [by intros ?? ? [? ?]|intros ? _ [_ ?]; auto]. }
  intros groups.
  eapply hoare_bind
    with (R := λ sites st,
            (data = Some d ∧ ExportData.groups d = Some groups
             ∧ ExportData.sites d = Some sites) ∧ P st).
  { apply hoare_read; [by intros ?? ? [[? ?] ?]|intros ? _ [_ ?]; auto]. }
  intros sites.
  eapply hoare_bind
    with (R := λ loc st,
            (data = Some d ∧ ExportData.groups d = Some groups
             ∧ ExportData.sites d = Some sites) ∧ Inv loc st).
  { intros st [Hd HP].
    pose proof (hoare_for_of_elements (importGroup clock) groups
                  (λ loc st, Inv loc st) E) as Hloop.
    specialize (Hloop
      (λ element acc Hin,
         hoare_importGroup clock (Inv acc) element acc Inv E
           (λ g s0 s1 l1 Heq HI Hstep,
              Hgroup acc g s0 s1 l1
                ltac:(destruct Hd as (-> & Hg & _); unfold snapshot_groups;
                      simpl; rewrite Hg; simpl; by rewrite <-Heq)
                HI Hstep)
           (λ s0 _ HI, HE acc s0 HI))
      groups
      (mkLocals (Stats.mk (GroupStats.mk (length groups) 0 0)
                          (SiteStats.mk (length sites) 0 0 0)) ∅)
      (λ _ H, H) st (Hinit _ _ _ HP)).
    simpl in Hloop. by destruct (for_of _ _ _ st). }
  intros loc1.
  eapply hoare_bind
    with (R := λ loc st, data = Some d ∧ Inv loc st).
  { intros st [Hd HI].
    pose proof (hoare_for_of_elements (importSite clock) sites
                  (λ loc st, Inv loc st) E) as Hloop.
    specialize (Hloop
      (λ element acc Hin,
         hoare_importSite clock (Inv acc) element acc Inv E
           (λ s s0 s1 l1 Heq HI' Hstep,
              Hsite acc s s0 s1 l1
                ltac:(destruct Hd as (-> & _ & Hs); unfold snapshot_sites;
                      simpl; rewrite Hs; simpl; by rewrite <-Heq)
                HI' Hstep)
           (λ s0 _ HI', HE acc s0 HI'))
      sites loc1 (λ _ H, H) st HI).
    simpl in Hloop. destruct (for_of _ _ _ st); [|done]. by destruct Hd. }
  intros loc2.
  eapply hoare_bind
    with (R := λ _ st',
            ∃ stB configs,
              Inv loc2 stB
              ∧ data ≫= ExportData.configs = Some configs
              ∧ st' = mkStore (mockGroups stB) (mockSites stB)
                        (merged_configs (mockConfigs stB) configs) (ticks stB)).
  - intros st [-> HI]. unfold importConfigs.
    destruct (ExportData.configs d) as [configs|] eqn:Hc; js_simpl.
    + exists st, configs. by rewrite Hc.
    + by eapply HE.
  - intros _ st' (stB & configs & HI & Hc & ->). js_simpl.
    by exists loc2, stB, configs.
Qed.

(** The same with invariants that count the elements still to come: [InvG k]
    holds when [k] elements of [data.groups] are left, [InvS k] when [k]
    elements of [data.sites] are left. *)
Lemma importData_try_counted (P E : Store → Prop)
    (InvG InvS : nat → Locals → Store → Prop) data :
  (∀ st n m, P st →
     InvG (length (snapshot_groups data))
          (mkLocals (Stats.mk (GroupStats.mk n 0 0) (SiteStats.mk m 0 0 0)) ∅) st) →
  (∀ k loc g st st' loc',
     InvG (S k) loc st → group_step clock g loc st st' loc' → InvG k loc' st') →
  (∀ loc st, InvG 0 loc st → InvS (length (snapshot_sites data)) loc st) →
  (∀ k loc s st st' loc',
     InvS (S k) loc st → site_step clock s loc st st' loc' → InvS k loc' st') →
  (∀ k loc st, InvG k loc st → E st) →
  (∀ k loc st, InvS k loc st → E st) →
  (∀ st, P st → E st) →
  hoare P (importData_try clock data)
    (λ s st',
       ∃ loc stB configs,
         s = stats loc
         ∧ InvS 0 loc stB
         ∧ data ≫= ExportData.configs = Some configs
         ∧ st' = mkStore (mockGroups stB) (mockSites stB)
                   (merged_configs (mockConfigs stB) configs) (ticks stB))
    E.
Proof.
  intros Hinit Hgroup Hmid Hsite HEG HES HPE. unfold importData_try.
  eapply hoare_bind with (R := λ d st, data = Some d ∧ P st);
    [apply hoare_read; auto|]. intros d.
  eapply hoare_bind
    with (R := λ groups st, (data = Some d ∧ ExportData.groups d = Some groups) ∧ P st).
  { apply hoare_read; [by intros ?? ? [? ?]|intros ? _ [_ ?]; auto]. }
  intros groups.
  eapply hoare_bind
    with (R := λ sites st,
            (data = Some d ∧ ExportData.groups d = Some groups
             ∧ ExportData.sites d = Some sites) ∧ P st).
  { apply hoare_read; [by intros ?? ? [[? ?] ?]|intros ? _ [_ ?]; auto]. }
  intros sites.
  eapply hoare_bind
    with (R := λ loc st,
            (data = Some d ∧ ExportData.sites d = Some sites) ∧ InvG 0 loc st).
  { intros st [(-> & Hg & Hs) HP].
    assert (snapshot_groups (Some d) = groups) as Hsnapshot.
    { unfold snapshot_groups. simpl. by rewrite Hg. }
    pose proof (hoare_for_of (importGroup clock) (λ l, InvG (length l)) E) as Hloop.
    specialize (Hloop
      (λ element l acc,
         hoare_importGroup clock (InvG (S (length l)) acc) element acc
           (InvG (length l)) E
           (λ g s0 s1 l1 _ HI Hstep, Hgroup (length l) acc g s0 s1 l1 HI Hstep)
           (λ s0 _ HI, HEG _ acc s0 HI))
      groups
      (mkLocals (Stats.mk (GroupStats.mk (length groups) 0 0)
                          (SiteStats.mk (length sites) 0 0 0)) ∅)
      st).
    rewrite <-Hsnapshot in Hloop at 1. specialize (Hloop (Hinit _ _ _ HP)).
    simpl in Hloop. destruct (for_of _ _ _ st); [|done]. by simpl in *. }
  intros loc1.
  eapply hoare_bind
    with (R := λ loc st, data = Some d ∧ InvS 0 loc st).
  { intros st [[-> Hs] HI].
    assert (snapshot_sites (Some d) = sites) as Hsnapshot.
    { unfold snapshot_sites. simpl. by rewrite Hs. }
    apply Hmid in HI. rewrite Hsnapshot in HI.
    pose proof (hoare_for_of (importSite clock) (λ l, InvS (length l)) E) as Hloop.
    specialize (Hloop
      (λ element l acc,
         hoare_importSite clock (InvS (S (length l)) acc) element acc
           (InvS (length l)) E
           (λ s s0 s1 l1 _ HI' Hstep, Hsite (length l) acc s s0 s1 l1 HI' Hstep)
           (λ s0 _ HI', HES _ acc s0 HI'))
      sites loc1 st HI).
    simpl in Hloop. destruct (for_of _ _ _ st); [|done]. by simpl in *. }
  intros loc2.
  eapply hoare_bind
    with (R := λ _ st',
            ∃ stB configs,
              InvS 0 loc2 stB
              ∧ data ≫= ExportData.configs = Some configs
              ∧ st' = mkStore (mockGroups stB) (mockSites stB)
                        (merged_configs (mockConfigs stB) configs) (ticks stB)).
  - intros st [-> HI]. unfold importConfigs.
    destruct (ExportData.configs d) as [configs|] eqn:Hc; js_simpl.
    + exists st, configs. by rewrite Hc.
    + by eapply HES.
  - intros _ st' (stB & configs & HI & Hc & ->). js_simpl.
    by exists loc2, stB, configs.
Qed.

Lemma importData_outcome (P E : Store → Prop) (Q : Stats → Store → Prop) data st :
  hoare P (importData_try clock data) Q E →
  P st → import_outcome (importData clock data st) Q E.
Proof.
  intros Htry HP. specialize (Htry st HP). rewrite importData_unfold.
  by destruct (importData_try clock data st).
Qed.

End ImportRule.

(** ** Further properties of [importData] *)

Section ImportExtra.

Variable clock : nat → string.

(** Key by key, the snapshot's value is written, except that [__proto__]
    is written only over an entry of the table's own. *)
Lemma merged_configs_lookup (live incoming : gmap string string) key :
  merged_configs live incoming !! key
  = match incoming !! key with
    | Some value =>
        if decide (key = "__proto__" ∧ live !! key = None) then None else Some value
    | None => live !! key
    end.
Proof.
  unfold merged_configs. revert key.
  induction incoming as [|k v incoming Hk Hfold IH] using map_first_key_ind;
    intros key.
  - by rewrite map_fold_empty, lookup_empty.
  - rewrite map_fold_insert_first_key by done.
    set (acc := map_fold assign live incoming) in *.
    destruct (decide (key = k)) as [->|Hne].
    + rewrite lookup_insert_eq. unfold assign.
      pose proof (IH k) as Hacc. rewrite Hk in Hacc. rewrite Hacc.
      destruct (decide (k = "__proto__" ∧ live !! k = None)) as [[_ Hnone]|_].
      * by rewrite Hacc.
      * by rewrite lookup_insert_eq.
    + rewrite lookup_insert_ne by done. rewrite <-IH. unfold assign.
      case_decide; [done|]. by rewrite lookup_insert_ne.
Qed.

Lemma merged_configs_idemp (live incoming : gmap string string) :
  merged_configs (merged_configs live incoming) incoming = merged_configs live incoming.
Proof.
  apply map_eq. intros key.
  rewrite (merged_configs_lookup (merged_configs live incoming)).
  rewrite (merged_configs_lookup live incoming key).
  destruct (incoming !! key) as [value|]; [|done].
  destruct (decide (key = "__proto__" ∧ live !! key = None)) as [[-> Hnone]|Hnot].
  - by rewrite decide_True.
  - rewrite decide_False; [done|]. by intros [_ ?].
Qed.

Lemma merged_configs_self (live : gmap string string) :
  merged_configs live live = live.
Proof.
  apply map_eq. intros key. rewrite merged_configs_lookup.
  destruct (live !! key) as [value|] eqn:Hkey; [|done].
  rewrite decide_False; [done|]. by intros [_ ?].
Qed.

Lemma merged_site_frame index existingSite incoming updated_at (l : list Site) :
  l !! index = Some existingSite →
  site_frame <$> <[index := merged_site existingSite incoming updated_at]> l
    = site_frame <$> l.
Proof.
  intros Hlookup. rewrite list_fmap_insert. apply list_insert_id.
  by rewrite list_lookup_fmap, Hlookup.
Qed.

Lemma importData_prefix data st :
  mockGroups st `prefix_of` mockGroups (store_of (importData clock data st))
  ∧ site_frame <$> mockSites st
    `prefix_of` site_frame <$> mockSites (store_of (importData clock data st))
  ∧ ticks st ≤ ticks (store_of (importData clock data st)).
Proof.
  set (keeps := λ st' : Store,
         mockGroups st `prefix_of` mockGroups st'
         ∧ site_frame <$> mockSites st `prefix_of` site_frame <$> mockSites st'
         ∧ ticks st ≤ ticks st').
  change (keeps (store_of (importData clock data st))).
  apply (importData_invariant clock (λ st', st' = st) keeps); [|done].
  apply importData_try_invariant with (Inv := λ _, keeps); try done.
  - by intros st' _ ->.
  - intros loc g st1 st' loc' (Hg & Hs & Ht) Hstep.
    destruct Hstep as [index existing Hfind|Hfind]; [done|].
    split_and!; simpl; [by apply prefix_app_r|done|lia].
  - intros loc s st1 st' loc' (Hg & Hs & Ht) Hstep.
    destruct Hstep as [Hres|gid index existing Hres Hfind|gid Hres Hfind]; [done|..].
    + apply list_find_Some in Hfind as (Hlookup & _ & _).
      split_and!; simpl; [done| |lia]. by rewrite merged_site_frame.
    + split_and!; simpl; [done| |lia]. rewrite fmap_app. by apply prefix_app_r.
  - by intros st' ->.
Qed.

(** X14. Whatever the snapshot and however it ends, [importData] only
    appends: the live groups stay as they were, in place; every live site
    stays in place with its id, group, url, order number, visibility and
    creation time; nothing is removed and the clock does not go back. *)
Theorem importData_only_appends data st :
  mockGroups st `prefix_of` mockGroups (store_of (importData clock data st))
  ∧ site_frame <$> mockSites st
    `prefix_of` site_frame <$> mockSites (store_of (importData clock data st))
  ∧ ticks st ≤ ticks (store_of (importData clock data st)).
Proof. apply importData_prefix. Qed.

Lemma importData_configs_merged data st :
  import_outcome (importData clock data st)
    (λ _ st',
       ∃ d configs,
         data = Some d
         ∧ ExportData.configs d = Some configs
         ∧ mockConfigs st' = merged_configs (mockConfigs st) configs)
    (λ st', mockConfigs st' = mockConfigs st).
Proof.
  apply (importData_outcome clock (λ st', st' = st)); [|done].
  eapply hoare_conseq;
    [apply (importData_try_rule clock (λ st', st' = st)
              (λ st', mockConfigs st' = mockConfigs st)
              (λ _ st', mockConfigs st' = mockConfigs st))
    |done| |done].
  - by intros st' _ _ ->.
  - intros loc g st1 st' loc' _ HI Hstep. by destruct Hstep.
  - intros loc s st1 st' loc' _ HI Hstep. by destruct Hstep.
  - done.
  - by intros st' ->.
  - intros s st' (loc & stB & configs & _ & HI & Hc & ->).
    destruct data as [d|]; [|done]. exists d, configs. simpl in *.
    by rewrite HI.
Qed.

(** X15. On success the settings of the snapshot overwrite the live ones
    key by key and the other live keys stay, except that a snapshot key
    [__proto__] is written only when the live table has an entry of its own
    by that name (the assignment is otherwise swallowed by the setter that a
    plain object inherits); on failure the settings are as they were (the
    settings are merged last). *)
Theorem importData_configs data st :
  import_outcome (importData clock data st)
    (λ _ st',
       ∃ d configs,
         data = Some d
         ∧ ExportData.configs d = Some configs
         ∧ ∀ key,
             mockConfigs st' !! key
             = match configs !! key with
               | Some value =>
                   if decide (key = "__proto__" ∧ mockConfigs st !! key = None)
                   then None else Some value
               | None => mockConfigs st !! key
               end)
    (λ st', mockConfigs st' = mockConfigs st).
Proof.
  pose proof (importData_configs_merged data st) as Hmerged.
  destruct (importData clock data st) as [st' [s|message]|]; [|done..].
  simpl in *. destruct Hmerged as (d & configs & -> & Hc & ->).
  exists d, configs. split_and!; [done..|].
  intros key. apply merged_configs_lookup.
Qed.

Lemma importData_lengths data st st' s :
  importData clock data st = Normal st' (ImportSuccess s) →
  length (mockGroups st')
    = length (mockGroups st) + GroupStats.created (Stats.groups s)
  ∧ length (mockSites st')
    = length (mockSites st) + SiteStats.created (Stats.sites s).
Proof.
  intros Hrun.
  pose proof (importData_outcome clock (λ st', st' = st) (λ _, True)
                (λ s st',
                   length (mockGroups st')
                   = length (mockGroups st) + GroupStats.created (Stats.groups s)
                   ∧ length (mockSites st')
                     = length (mockSites st) + SiteStats.created (Stats.sites s))
                data st) as Hout.
  rewrite Hrun in Hout. apply Hout; [|done].
  eapply hoare_conseq;
    [apply (importData_try_rule clock (λ st', st' = st) (λ _, True)
              (λ loc st',
                 length (mockGroups st')
                 = length (mockGroups st)
                   + GroupStats.created (Stats.groups (stats loc))
                 ∧ length (mockSites st')
                   = length (mockSites st)
                     + SiteStats.created (Stats.sites (stats loc))))
    |done| |done].
  - intros st1 n m ->. simpl. lia.
  - intros loc g st1 st1' loc' _ [Hg Hs] Hstep.
    destruct Hstep; simpl; [done|]. rewrite length_app. simpl. lia.
  - intros loc s0 st1 st1' loc' _ [Hg Hs] Hstep.
    destruct Hstep; simpl; [done| |].
    + rewrite length_insert. lia.
    + rewrite length_app. simpl. lia.
  - done.
  - done.
  - by intros s0 st1 (loc & stB & configs & -> & HI & _ & ->).
Qed.

(** X16. The statistics of a successful import tell how much the store
    grew: the number of groups rises by [groups.created] and the number of
    sites by [sites.created]. *)
Theorem importData_growth data st st' s :
  importData clock data st = Normal st' (ImportSuccess s) →
  length (mockGroups st')
    = length (mockGroups st) + GroupStats.created (Stats.groups s)
  ∧ length (mockSites st')
    = length (mockSites st) + SiteStats.created (Stats.sites s).
Proof. apply importData_lengths. Qed.

(** The loops stop at the first missing element: a loop that returns has
    seen objects only. *)
Lemma importGroups_Normal_elements groups :
  ∀ loc st st' loc',
    for_of (importGroup clock) groups loc st = Normal st' loc' →
    Forall is_Some groups.
Proof.
  induction groups as [|element groups IH]; intros loc st st' loc'; [done|].
  intros (st1 & loc1 & (g & -> & _)%importGroup_Normal & Hrest)%for_of_cons_Normal.
  constructor; [done|by eapply IH].
Qed.

Lemma importSites_Normal_elements sites :
  ∀ loc st st' loc',
    for_of (importSite clock) sites loc st = Normal st' loc' →
    Forall is_Some sites.
Proof.
  induction sites as [|element sites IH]; intros loc st st' loc'; [done|].
  intros (st1 & loc1 & (s & -> & _)%importSite_Normal & Hrest)%for_of_cons_Normal.
  constructor; [done|by eapply IH].
Qed.

Lemma Forall_is_Some_fmap {A} (l : list (option A)) :
  Forall is_Some l → ∃ k, l = Some <$> k.
Proof.
  induction 1 as [|x l [a ->] _ [k ->]]; [by exists []|by exists (a :: k)].
Qed.

(** X17. [importData] succeeds exactly on the snapshots none of whose parts
    is missing: the snapshot, its three collections and every element of its
    two sequences are there.  Nothing else about the snapshot is checked. *)
Theorem importData_succeeds_iff_well_formed data st :
  (∃ st' s, importData clock data st = Normal st' (ImportSuccess s))
  ↔ well_formed data.
Proof.
  split.
  - intros (st' & s & Hrun).
    apply importData_success, importData_try_Normal in Hrun
      as (d & groups & sites & configs & stA & locA & stB & locB
          & -> & Hg & Hs & Hc & HA & HB & _).
    exists d, groups, sites, configs. split_and!; try done.
    + by eapply importGroups_Normal_elements.
    + by eapply importSites_Normal_elements.
  - intros (d & groups & sites & configs & -> & Hg & Hs & Hc
            & [gl ->]%Forall_is_Some_fmap & [sl ->]%Forall_is_Some_fmap).
    destruct d as [dg ds dc version exportDate]. simpl in *. subst.
    apply importData_well_formed.
Qed.

(** *** Surrogate ids *)

Lemma room_for_le n m ids : m ≤ n → room_for n ids → room_for m ids.
Proof. unfold room_for. lia. Qed.

Lemma room_for_next n ids :
  room_for (S n) ids → room_for n (ids ++ [Some (next_id ids)]).
Proof.
  intros Hroom. unfold room_for in *.
  rewrite max_id_snoc, next_id_exact by (unfold room_for; lia). lia.
Qed.

Lemma group_step_ids n g loc st st' loc' :
  group_step clock g loc st st' loc' →
  NoDup (Group.id <$> mockGroups st) ∧ room_for (S n) (Group.id <$> mockGroups st) →
  (NoDup (Group.id <$> mockGroups st') ∧ room_for n (Group.id <$> mockGroups st'))
  ∧ mockSites st' = mockSites st.
Proof.
  intros Hstep [Hg Hroom]. destruct Hstep as [index existing Hfind|Hfind].
  - split; [|done]. split; [done|]. eapply room_for_le; [|done]. lia.
  - split; [|done]. simpl. rewrite fmap_app. split.
    + apply NoDup_snoc_fresh; [done|]. apply next_id_not_in.
      eapply room_for_le; [|done]. lia.
    + by apply room_for_next.
Qed.

Lemma site_step_ids n s loc st st' loc' :
  site_step clock s loc st st' loc' →
  NoDup (Site.id <$> mockSites st) ∧ room_for (S n) (Site.id <$> mockSites st) →
  (NoDup (Site.id <$> mockSites st') ∧ room_for n (Site.id <$> mockSites st'))
  ∧ mockGroups st' = mockGroups st.
Proof.
  intros Hstep [Hs Hroom].
  destruct Hstep as [Hres|gid index existing Hres Hfind|gid Hres Hfind].
  - split; [|done]. split; [done|]. eapply room_for_le; [|done]. lia.
  - split; [|done]. simpl. apply list_find_Some in Hfind as (Hlookup & _ & _).
    rewrite list_fmap_insert, list_insert_id
      by by rewrite list_lookup_fmap, Hlookup.
    split; [done|]. eapply room_for_le; [|done]. lia.
  - split; [|done]. simpl. rewrite fmap_app. split.
    + apply NoDup_snoc_fresh; [done|]. apply next_id_not_in.
      eapply room_for_le; [|done]. lia.
    + by apply room_for_next.
Qed.

Lemma importData_ids_unique data st :
  ids_unique st →
  room_for (length (snapshot_groups data)) (Group.id <$> mockGroups st) →
  room_for (length (snapshot_sites data)) (Site.id <$> mockSites st) →
  ids_unique (store_of (importData clock data st)).
Proof.
  intros [Hg Hs] Hroomg Hrooms.
  pose proof (importData_outcome clock (λ st', st' = st) ids_unique
                (λ _, ids_unique) data st) as Hout.
  assert (import_outcome (importData clock data st) (λ _, ids_unique) ids_unique)
    as Hresult.
  { apply Hout; [|done].
    eapply hoare_conseq;
      [apply (importData_try_counted clock (λ st', st' = st) ids_unique
                (λ k _ st',
                   (NoDup (Group.id <$> mockGroups st')
                    ∧ room_for k (Group.id <$> mockGroups st'))
                   ∧ mockSites st' = mockSites st)
                (λ k _ st',
                   NoDup (Group.id <$> mockGroups st')
                   ∧ NoDup (Site.id <$> mockSites st')
                   ∧ room_for k (Site.id <$> mockSites st')))
      |done| |done].
    - by intros st' _ _ ->.
    - intros k loc g st1 st' loc' [HI Hsites] Hstep.
      destruct (group_step_ids k _ _ _ _ _ Hstep HI) as [HI' Hsame].
      split; [done|]. by rewrite Hsame.
    - intros loc st' [[Hg' _] ->]. done.
    - intros k loc s st1 st' loc' (Hg' & HI) Hstep.
      destruct (site_step_ids k _ _ _ _ _ Hstep HI) as [[? ?] Hsame].
      by rewrite Hsame.
    - intros k loc st' [[Hg' _] Hsame]. split; [done|]. by rewrite Hsame.
    - intros k loc st' (? & ? & _). by split.
    - by intros st' ->.
    - intros s st' (loc & stB & configs & _ & (? & ? & _) & _ & ->). by split. }
  by destruct (importData clock data st) as [st' [s|message]|].
Qed.

(** X18. Pairwise distinct ids stay pairwise distinct through [deleteGroup],
    [deleteSite], both batch reorderings, and [updateGroup] and [updateSite]
    when the partial record carries no id or the id the update was called
    with.  They stay so through [createGroup], [createSite] and [importData]
    (however it ends) as long as the largest id in use leaves room, up to
    2^53, for the entities that may be created: one for a creation, the
    number of elements of [data.groups], respectively [data.sites], for an
    import. *)
Theorem ids_unique_preserved st :
  ids_unique st →
  (∀ data,
     room_for (length (snapshot_groups data)) (Group.id <$> mockGroups st) →
     room_for (length (snapshot_sites data)) (Site.id <$> mockSites st) →
     ids_unique (store_of (importData clock data st)))
  ∧ (∀ group,
       room_for 1 (Group.id <$> mockGroups st) →
       ids_unique (store_of (createGroup clock group st)))
  ∧ (∀ site,
       room_for 1 (Site.id <$> mockSites st) →
       ids_unique (store_of (createSite clock site st)))
  ∧ (∀ id, ids_unique (store_of (deleteGroup id st)))
  ∧ (∀ id, ids_unique (store_of (deleteSite id st)))
  ∧ (∀ groupOrders, ids_unique (store_of (updateGroupOrder groupOrders st)))
  ∧ (∀ siteOrders, ids_unique (store_of (updateSiteOrder siteOrders st)))
  ∧ (∀ id group,
       PartialGroup.id group = None ∨ PartialGroup.id group = Some (Some id) →
       ids_unique (store_of (updateGroup clock id group st)))
  ∧ (∀ id site,
       PartialSite.id site = None ∨ PartialSite.id site = Some (Some id) →
       ids_unique (store_of (updateSite clock id site st))).
Proof.
  intros Hinv. pose proof Hinv as [Hg Hs]. split_and!.
  - intros data. by apply importData_ids_unique.
  - intros group Hroom. rewrite createGroup_run. split; [|done]. simpl.
    rewrite fmap_app. apply NoDup_snoc_fresh; [done|]. by apply next_id_not_in.
  - intros site Hroom. rewrite createSite_run. split; [done|]. simpl.
    rewrite fmap_app. apply NoDup_snoc_fresh; [done|]. by apply next_id_not_in.
  - intros id. unfold deleteGroup. js_simpl.
    destruct (list_find _ (mockGroups st)) as [[index g]|]; [|done].
    split; [|done]. simpl. rewrite list_fmap_delete. by apply NoDup_delete.
  - intros id. unfold deleteSite. js_simpl.
    destruct (list_find _ (mockSites st)) as [[index s]|]; [|done].
    split; [done|]. simpl. rewrite list_fmap_delete. by apply NoDup_delete.
  - intros groupOrders. rewrite updateGroupOrder_run. split; [|done]. simpl.
    by rewrite (reordered_ids Group.id set_group_order (λ _ _, eq_refl)
                  (λ _ _ _, eq_refl)).
  - intros siteOrders. rewrite updateSiteOrder_run. split; [done|]. simpl.
    by rewrite (reordered_ids Site.id set_site_order (λ _ _, eq_refl)
                  (λ _ _ _, eq_refl)).
  - intros id group Hid. split.
    + rewrite (updateGroup_ids clock).
      destruct (list_find (λ g, Group.id g = Some id) (mockGroups st))
        as [[index existing]|] eqn:Hfind; [|done].
      destruct Hid as [->| ->]; [done|].
      apply list_find_Some in Hfind as (Hlookup & Hexisting & _).
      rewrite list_insert_id; [done|].
      by rewrite list_lookup_fmap, Hlookup, <-Hexisting.
    + destruct (list_find (λ g, Group.id g = Some id) (mockGroups st))
        as [[index existing]|] eqn:Hfind.
      * by rewrite (updateGroup_found _ _ _ _ _ _ Hfind).
      * by rewrite updateGroup_not_found.
  - intros id site Hid. split.
    + destruct (list_find (λ s, Site.id s = Some id) (mockSites st))
        as [[index existing]|] eqn:Hfind.
      * by rewrite (updateSite_found _ _ _ _ _ _ Hfind).
      * by rewrite updateSite_not_found.
    + rewrite (updateSite_ids clock).
      destruct (list_find (λ s, Site.id s = Some id) (mockSites st))
        as [[index existing]|] eqn:Hfind; [|done].
      destruct Hid as [->| ->]; [done|].
      apply list_find_Some in Hfind as (Hlookup & Hexisting & _).
      rewrite list_insert_id; [done|].
      by rewrite list_lookup_fmap, Hlookup, <-Hexisting.
Qed.

(** *** The store after a second import *)

Lemma prefix_same_length {A} (l k : list A) :
  l `prefix_of` k → length k = length l → k = l.
Proof.
  intros [ext ->] Hlen. rewrite length_app in Hlen.
  destruct ext; [by rewrite (right_id_L [] (++))|simpl in Hlen; lia].
Qed.

(** X19. After a successful import, importing the same snapshot again
    changes no group and no setting, adds no site, and leaves every site
    with its id, group, url, order number, visibility and creation time; all
    it rewrites are the display fields and [updated_at] of the sites it
    matches. *)
Theorem import_twice_store data st st1 stats1 :
  importData clock data st = Normal st1 (ImportSuccess stats1) →
  ∃ st2 stats2,
    importData clock data st1 = Normal st2 (ImportSuccess stats2)
    ∧ mockGroups st2 = mockGroups st1
    ∧ mockConfigs st2 = mockConfigs st1
    ∧ site_frame <$> mockSites st2 = site_frame <$> mockSites st1.
Proof.
  intros Hfirst.
  destruct (import_twice clock _ _ _ _ Hfirst)
    as (st2 & stats2 & Hsecond & _ & Hgc & _ & _ & Hsc & _).
  exists st2, stats2. split; [done|].
  destruct (importData_lengths _ _ _ _ Hsecond) as [Hlg Hls].
  rewrite Hgc in Hlg. rewrite Hsc in Hls.
  pose proof (importData_prefix data st1) as (Hpg & Hps & _).
  rewrite Hsecond in Hpg, Hps. simpl in Hpg, Hps.
  split_and!.
  - apply prefix_same_length; [done|lia].
  - pose proof (importData_configs_merged data st) as H1. rewrite Hfirst in H1.
    pose proof (importData_configs_merged data st1) as H2. rewrite Hsecond in H2.
    simpl in H1, H2.
    destruct H1 as (d & configs & -> & Hc & Heq1).
    destruct H2 as (d' & configs' & [= <-] & Hc' & Heq2).
    rewrite Hc in Hc'. injection Hc' as <-.
    by rewrite Heq2, Heq1, merged_configs_idemp.
  - apply prefix_same_length; [done|]. rewrite !length_fmap. lia.
Qed.

(** *** Foreign keys *)

Lemma import_outcome_store (c : Completion ImportResult) (E : Store → Prop) :
  import_outcome c (λ _, E) E → E (store_of c).
Proof. by destruct c as [st' [s|message]|]. Qed.

Lemma groupMap_by_name_grow data st st' m :
  (∀ e, e ∈ mockGroups st → e ∈ mockGroups st') →
  groupMap_by_name data st m → groupMap_by_name data st' m.
Proof.
  intros Hgrow Hm k v Hkv.
  destruct (Hm k v Hkv) as (g & e & ? & ? & ? & ? & ?).
  exists g, e. split_and!; auto.
Qed.

Lemma filed_under_grow data st st' s' :
  (∀ e, e ∈ mockGroups st → e ∈ mockGroups st') →
  filed_under data st s' → filed_under data st' s'.
Proof.
  intros Hgrow (s & g & e & ? & ? & ? & ? & ? & ? & ?).
  exists s, g, e. split_and!; auto.
Qed.

Lemma importData_filed data st :
  ∀ s', s' ∈ mockSites (store_of (importData clock data st)) →
        s' ∈ mockSites st
        ∨ filed_under data (store_of (importData clock data st)) s'.
Proof.
  set (E := λ st' : Store,
         ∀ s', s' ∈ mockSites st' → s' ∈ mockSites st ∨ filed_under data st' s').
  change (E (store_of (importData clock data st))).
  apply import_outcome_store.
  apply (importData_outcome clock (λ st', st' = st)); [|done].
  eapply hoare_conseq;
    [apply (importData_try_rule clock (λ st', st' = st) E
              (λ loc st', groupMap_by_name data st' (groupMap loc) ∧ E st'))
    |done| |done].
  - intros st' n m ->. split; [|by left].
    intros k v Hkv. simpl in Hkv. by rewrite lookup_empty in Hkv.
  - (* a group step *)
    intros loc g st1 st' loc' Hin [Hm HE] Hstep.
    destruct Hstep as [index existing Hfind|Hfind].
    + split; [|done]. simpl. unfold groupMap_set_existing.
      destruct (truthy (Group.id g)) as [a|] eqn:Ha; [|done].
      destruct (truthy (Group.id existing)) as [b|] eqn:Hb; [|done].
      apply truthy_Some in Ha as [Ha _]. apply truthy_Some in Hb as [Hb _].
      apply list_find_Some in Hfind as (Hlookup & Hname & _).
      intros k v. rewrite lookup_insert. case_decide; [|by apply Hm].
      intros; simplify_eq. exists g, existing. split_and!; try done.
      by eapply list_elem_of_lookup_2.
    + set (st2 := mkStore (mockGroups st1 ++ [pushed_group clock g st1])
                    (mockSites st1) (mockConfigs st1) (S (S (ticks st1)))).
      assert (∀ e, e ∈ mockGroups st1 → e ∈ mockGroups st2) as Hgrow.
      { intros e He. simpl. apply elem_of_app. by left. }
      split.
      * simpl. unfold groupMap_set_new.
        destruct (truthy (Group.id g)) as [a|] eqn:Ha;
          [|by eapply groupMap_by_name_grow].
        apply truthy_Some in Ha as [Ha _].
        intros k v. rewrite lookup_insert. case_decide.
        -- intros; simplify_eq. exists g, (pushed_group clock g st1).
           split_and!; try done. simpl. apply elem_of_app. right.
           by apply list_elem_of_singleton.
        -- intros Hkv.
           by apply (groupMap_by_name_grow data st1 st2 (groupMap loc) Hgrow Hm).
      * intros s' Hs'. destruct (HE s' Hs') as [?|Hfiled]; [by left|right].
        by eapply filed_under_grow.
  - (* a site step *)
    intros loc s st1 st' loc' Hin [Hm HE] Hstep.
    destruct Hstep as [Hres|gid index existing Hres Hfind|gid Hres Hfind]; [done|..].
    + apply resolve_Some in Hres as [Hget _].
      destruct (Hm _ _ Hget) as (g & e & Hg & Hgid & He & Heid & Hname).
      apply list_find_Some in Hfind as (Hlookup & [Hexg Hexu] & _).
      split; [done|]. intros s' Hs'. simpl in Hs'.
      apply list_elem_of_lookup in Hs' as [j Hj].
      destruct (decide (j = index)) as [->|Hne].
      * rewrite list_lookup_insert_eq in Hj by by eapply lookup_lt_Some.
        injection Hj as <-. right. exists s, g, e. simpl.
        split_and!; try done. by rewrite Hexg.
      * rewrite list_lookup_insert_ne in Hj by done.
        apply list_elem_of_lookup_2 in Hj.
        destruct (HE s' Hj) as [?|(s0 & g0 & e0 & ?)]; [by left|right].
        by exists s0, g0, e0.
    + apply resolve_Some in Hres as [Hget _].
      destruct (Hm _ _ Hget) as (g & e & Hg & Hgid & He & Heid & Hname).
      split; [done|]. intros s' Hs'. simpl in Hs'.
      apply elem_of_app in Hs' as [Hs'|Hs'].
      * destruct (HE s' Hs') as [?|(s0 & g0 & e0 & ?)]; [by left|right].
        by exists s0, g0, e0.
      * apply list_elem_of_singleton in Hs' as ->. right.
        exists s, g, e. simpl. by split_and!.
  - by intros loc st' [_ ?].
  - intros st' -> s' Hs'. by left.
  - intros _ st' (loc & stB & configs & _ & [_ HE] & _ & ->) s' Hs'. simpl in *.
    destruct (HE s' Hs') as [?|(s0 & g0 & e0 & ?)]; [by left|right].
    by exists s0, g0, e0.
Qed.

(** X20. Foreign keys are remapped by name: whatever the snapshot, every
    site of the store after [importData] that is not a site of the store
    before has the url of a snapshot site, and its [group_id] is the id of a
    live group that bears the name of a snapshot group whose id that
    snapshot site referred to. *)
Theorem importData_remaps_by_name data st :
  ∀ s', s' ∈ mockSites (store_of (importData clock data st)) →
        s' ∈ mockSites st
        ∨ ∃ s g e,
            Some s ∈ snapshot_sites data
            ∧ Some g ∈ snapshot_groups data
            ∧ e ∈ mockGroups (store_of (importData clock data st))
            ∧ Group.id g = Some (Site.group_id s)
            ∧ Group.name e = Group.name g
            ∧ Group.id e = Some (Site.group_id s')
            ∧ Site.url s' = Site.url s.
Proof. apply importData_filed. Qed.

(** *** Importing one's own export *)

Lemma NoDup_fmap_elem_eq {A B} (f : A → B) (l : list A) x y :
  NoDup (f <$> l) → x ∈ l → y ∈ l → f x = f y → x = y.
Proof.
  intros Hnd [i Hi]%list_elem_of_lookup [j Hj]%list_elem_of_lookup Heq.
  assert (i = j) as ->; [|congruence].
  eapply (NoDup_lookup (f <$> l)); [done|..].
  - by rewrite list_lookup_fmap, Hi.
  - by rewrite list_lookup_fmap, Hj, Heq.
Qed.

Lemma site_key_without_updated_at (l : list Site) :
  site_key <$> (without_updated_at <$> l) = site_key <$> l.
Proof. rewrite <-list_fmap_compose. by apply list_fmap_ext. Qed.

Lemma snapshot_of_export_groups (l : list Group) g sites configs version exportDate :
  Some g ∈ snapshot_groups
             (Some (ExportData.mk (Some (Some <$> l)) sites configs version exportDate)) →
  g ∈ l.
Proof.
  unfold snapshot_groups. simpl. intros (g' & [= ->] & ?)%list_elem_of_fmap. done.
Qed.

Lemma snapshot_of_export_sites (l : list Site) s groups configs version exportDate :
  Some s ∈ snapshot_sites
             (Some (ExportData.mk groups (Some (Some <$> l)) configs version exportDate)) →
  s ∈ l.
Proof.
  unfold snapshot_sites. simpl. intros (s' & [= ->] & ?)%list_elem_of_fmap. done.
Qed.

Lemma export_import_invariant st :
  identity_invariant st →
  let data :=
    Some (ExportData.mk (Some (Some <$> mockGroups st)) (Some (Some <$> mockSites st))
                        (Some (mockConfigs st)) "1.0" (clock (ticks st))) in
  hoare (λ st', st' = mkStore (mockGroups st) (mockSites st) (mockConfigs st)
                        (S (ticks st)))
    (importData_try clock data)
    (λ s st',
       GroupStats.created (Stats.groups s) = 0
       ∧ SiteStats.created (Stats.sites s) = 0
       ∧ mockGroups st' = mockGroups st
       ∧ mockConfigs st' = mockConfigs st
       ∧ without_updated_at <$> mockSites st'
         = without_updated_at <$> mockSites st)
    (λ _, True).
Proof.
  intros [Hnames Hkeys] data.
  eapply hoare_conseq;
    [apply (importData_try_rule clock
              (λ st', st' = mkStore (mockGroups st) (mockSites st) (mockConfigs st)
                              (S (ticks st)))
              (λ _, True)
              (λ loc st',
                 GroupStats.created (Stats.groups (stats loc)) = 0
                 ∧ SiteStats.created (Stats.sites (stats loc)) = 0
                 ∧ mockGroups st' = mockGroups st
                 ∧ mockConfigs st' = mockConfigs st
                 ∧ without_updated_at <$> mockSites st'
                   = without_updated_at <$> mockSites st
                 ∧ ∀ k v, groupMap loc !! k = Some v → v = k))
    |done| |done].
  - intros st' n m ->. simpl. by split_and!.
  - (* every exported group is found, under its own id *)
    intros loc g st1 st' loc' Hin%snapshot_of_export_groups
      (Hgc & Hsc & Hg & Hc & Hs & Hid) Hstep.
    destruct Hstep as [index existing Hfind|Hfind]; simpl.
    + apply list_find_Some in Hfind as (Hlookup & Hname & _).
      assert (existing = g) as ->.
      { eapply (NoDup_fmap_elem_eq Group.name); [done| |done..].
        rewrite <-Hg. by eapply list_elem_of_lookup_2. }
      split_and!; try done.
      unfold groupMap_set_existing.
      destruct (truthy (Group.id g)) as [a|]; [|done].
      intros k v. rewrite lookup_insert. case_decide; [|by apply Hid].
      intros; by simplify_eq.
    + apply (list_find_None_fmap Group.name) in Hfind. destruct Hfind.
      rewrite Hg. by apply list_elem_of_fmap_2.
  - (* every exported site is found, at its own place *)
    intros loc s st1 st' loc' Hin%snapshot_of_export_sites
      (Hgc & Hsc & Hg & Hc & Hs & Hid) Hstep.
    assert (site_key <$> mockSites st1 = site_key <$> mockSites st) as Hkeys1.
    { by rewrite <-(site_key_without_updated_at (mockSites st1)), Hs,
        site_key_without_updated_at. }
    destruct Hstep as [Hres|gid index existing Hres Hfind|gid Hres Hfind]; [done|..].
    + apply resolve_Some in Hres as [Hget _]. apply Hid in Hget as ->.
      apply list_find_Some in Hfind as (Hlookup & [Hexg Hexu] & _).
      apply list_elem_of_lookup in Hin as [j Hj].
      assert (index = j) as ->.
      { eapply (NoDup_lookup (site_key <$> mockSites st)); [done|..].
        - rewrite <-Hkeys1, list_lookup_fmap, Hlookup. simpl. unfold site_key.
          by rewrite Hexg, Hexu.
        - by rewrite list_lookup_fmap, Hj. }
      assert (without_updated_at existing = without_updated_at s) as Hsame.
      { assert ((without_updated_at <$> mockSites st1) !! j
                = (without_updated_at <$> mockSites st) !! j) as Hj' by by rewrite Hs.
        rewrite !list_lookup_fmap, Hlookup, Hj in Hj'. simpl in Hj'. congruence. }
      simpl. split_and!; try done.
      rewrite list_fmap_insert, <-Hs. apply list_insert_id.
      rewrite list_lookup_fmap, Hlookup. simpl. f_equal.
      unfold without_updated_at in *. simpl. injection Hsame as -> -> -> -> -> -> -> -> -> ->.
      done.
    + apply resolve_Some in Hres as [Hget _]. apply Hid in Hget as ->.
      apply site_find_None_key in Hfind. destruct Hfind.
      rewrite Hkeys1. by apply (list_elem_of_fmap_2 site_key).
  - done.
  - done.
  - intros s st' (loc & stB & configs & -> & (Hgc & Hsc & Hg & Hc & Hs & _) & Hcfg & ->).
    simpl in *. injection Hcfg as <-.
    split_and!; try done.
    by rewrite Hc, merged_configs_self.
Qed.

(** X21. Importing a store's own export changes nothing but timestamps:
    when the identity invariant holds, [exportData] followed by [importData]
    of what it returned succeeds, creates no group and no site, leaves the
    groups and the settings as they were and every site as it was up to its
    [updated_at]. *)
Theorem export_then_import st :
  identity_invariant st →
  ∃ st1 data st2 s,
    exportData clock st = Normal st1 data
    ∧ importData clock (Some data) st1 = Normal st2 (ImportSuccess s)
    ∧ GroupStats.created (Stats.groups s) = 0
    ∧ GroupStats.merged (Stats.groups s) = length (mockGroups st)
    ∧ SiteStats.created (Stats.sites s) = 0
    ∧ mockGroups st2 = mockGroups st
    ∧ mockConfigs st2 = mockConfigs st
    ∧ without_updated_at <$> mockSites st2 = without_updated_at <$> mockSites st.
Proof.
  intros Hinv. eexists _, _. 
  destruct (importData_well_formed clock (mockGroups st) (mockSites st)
              (mockConfigs st) "1.0" (clock (ticks st))
              (mkStore (mockGroups st) (mockSites st) (mockConfigs st) (S (ticks st))))
    as (st2 & s & Hrun).
  exists st2, s. split; [done|]. split; [exact Hrun|].
  pose proof (importData_outcome clock _ _ _ _ _
                (export_import_invariant st Hinv) eq_refl) as Hout.
  rewrite Hrun in Hout. destruct Hout as (Hgc & Hsc & Hg & Hc & Hs).
  apply importData_success in Hrun.
  match type of Hrun with
  | importData_try _ ?data ?st1 = _ =>
      pose proof (importData_try_conserves clock data st1 I) as Hcons
  end.
  rewrite Hrun in Hcons.
  destruct Hcons as (d & groups & sites & [= <-] & [= <-] & _ & Htg & _ & Hsum & _).
  rewrite length_fmap in Htg. split_and!; try done. lia.
Qed.

(** *** Which sites are skipped *)

Lemma importGroups_map_domain groups :
  ∀ loc st st' loc',
    for_of (importGroup clock) (Some <$> groups) loc st = Normal st' loc' →
    (∀ e, e ∈ mockGroups st → ∃ k, Group.id e = Some k ∧ k ≠ 0%Z) →
    (∀ k v, groupMap loc !! k = Some v → v ≠ 0%Z) →
    (∀ k v, groupMap loc' !! k = Some v → v ≠ 0%Z)
    ∧ (∀ k, is_Some (groupMap loc' !! k) ↔
            is_Some (groupMap loc !! k)
            ∨ (k ≠ 0%Z ∧ Some k ∈ Group.id <$> groups)).
Proof.
  induction groups as [|g groups IH]; intros loc st st' loc'.
  - simpl. js_simpl. intros [= <- <-] _ Hnz. split; [done|].
    intros k. split; [by left|]. intros [?|[_ Hin]]; [done|].
    by apply elem_of_nil in Hin.
  - rewrite fmap_cons.
    intros (st1 & loc1 & (g' & [= <-] & Hstep)%importGroup_Normal & Hrest)%for_of_cons_Normal
      Hlive Hnz.
    assert ((∀ e, e ∈ mockGroups st1 → ∃ k, Group.id e = Some k ∧ k ≠ 0%Z)
            ∧ (∀ k v, groupMap loc1 !! k = Some v → v ≠ 0%Z)
            ∧ (∀ k, is_Some (groupMap loc1 !! k) ↔
                    is_Some (groupMap loc !! k)
                    ∨ (k ≠ 0%Z ∧ Group.id g = Some k))) as (Hlive1 & Hnz1 & Hdom1).
    { destruct Hstep as [index existing Hfind|Hfind]; simpl.
      - apply list_find_Some in Hfind as (Hlookup & _ & _).
        destruct (Hlive existing) as (b & Hb & Hbnz);
          [by eapply list_elem_of_lookup_2|].
        split; [done|]. unfold groupMap_set_existing. rewrite Hb.
        rewrite (proj2 (truthy_Some (Some b) b)) by done.
        destruct (truthy (Group.id g)) as [a|] eqn:Ha.
        + apply truthy_Some in Ha as [Ha Hanz]. split.
          * intros k v. rewrite lookup_insert. case_decide; [|by apply Hnz].
            intros; by simplify_eq.
          * intros k. rewrite lookup_insert. case_decide.
            -- subst. split; [by right|by eauto].
            -- split; [by left|]. intros [?|[_ Hk]]; [done|]. congruence.
        + split; [done|]. intros k. split; [by left|].
          intros [?|[Hk Hid]]; [done|].
          apply truthy_None in Ha as [Ha|Ha]; congruence.
      - split.
        { intros e [He|He]%elem_of_app; [by apply Hlive|].
          apply list_elem_of_singleton in He as ->. eexists. split; [done|].
          pose proof (next_id_positive (Group.id <$> mockGroups st)). lia. }
        unfold groupMap_set_new.
        destruct (truthy (Group.id g)) as [a|] eqn:Ha.
        + apply truthy_Some in Ha as [Ha Hanz]. split.
          * intros k v. rewrite lookup_insert. case_decide; [|by apply Hnz].
            intros; simplify_eq.
            pose proof (next_id_positive (Group.id <$> mockGroups st)). lia.
          * intros k. rewrite lookup_insert. case_decide.
            -- subst. split; [by right|by eauto].
            -- split; [by left|]. intros [?|[_ Hk]]; [done|]. congruence.
        + split; [done|]. intros k. split; [by left|].
          intros [?|[Hk Hid]]; [done|].
          apply truthy_None in Ha as [Ha|Ha]; congruence. }
    destruct (IH _ _ _ _ Hrest Hlive1 Hnz1) as [Hnz' Hdom'].
    split; [done|]. intros k. rewrite Hdom', Hdom1, fmap_cons, elem_of_cons.
    split.
    + intros [[?|[? ?]]|[? ?]]; [by left|right..]; eauto.
    + intros [?|[? [?|?]]]; [by left; left| |by right].
      left. right. eauto.
Qed.

(** X22. When every live group has an id other than zero, a successful
    import of a snapshot skips exactly the sites whose [group_id] is zero or
    is not the id of any group of the snapshot: [sites.skipped] is their
    number. *)
Theorem importData_skips_unreferenced groups sites configs version exportDate
    st st' s :
  (∀ e, e ∈ mockGroups st → ∃ k, Group.id e = Some k ∧ k ≠ 0%Z) →
  importData clock
    (Some (ExportData.mk (Some (Some <$> groups)) (Some (Some <$> sites))
                         (Some configs) version exportDate)) st
    = Normal st' (ImportSuccess s) →
  SiteStats.skipped (Stats.sites s)
  = length (filter (λ x, Site.group_id x = 0%Z
                         ∨ Some (Site.group_id x) ∉ Group.id <$> groups) sites).
Proof.
  intros Hlive
    (d & gl & sl & cfg & stA & locA & stB & locB
     & [= <-] & [= <-] & [= <-] & _ & HA & HB & _ & ->)%importData_success%importData_try_Normal.
  destruct (importGroups_map_domain _ _ _ _ _ HA Hlive) as [Hnz Hdom].
  { intros k v Hkv. simpl in Hkv. by rewrite lookup_empty in Hkv. }
  rewrite (importSites_skipped clock _ _ _ _ _ HB).
  match type of HA with
  | for_of _ _ ?loc0 _ = _ =>
      pose proof (importGroup_counters clock (length (Some <$> groups))
                    (SiteStats.mk (length (Some <$> sites)) 0 0 0) (Some <$> groups)
                    loc0 st) as Hc
  end.
  rewrite HA in Hc. destruct Hc as (_ & _ & ->); [by split_and!; simpl; try lia|].
  simpl. f_equal. apply list_filter_iff. intros x.
  rewrite resolve_None. split.
  - intros [Hnone|Hzero]; [|by destruct (Hnz _ _ Hzero)].
    destruct (decide (Site.group_id x = 0%Z)) as [?|Hx]; [by left|right].
    intros Hin. apply eq_None_not_Some in Hnone. apply Hnone, Hdom.
    right. done.
  - intros Hx. left. apply eq_None_not_Some. intros [Hk|[Hk Hin]]%Hdom.
    + simpl in Hk. rewrite lookup_empty in Hk. by destruct Hk.
    + destruct Hx; done.
Qed.

End ImportExtra.

(** ** The scenarios of the specification *)

(** Scenario A: into an empty store, one group and one site are created. *)
Example scenario_A :
  importData sample_clock (Some snapshot_A) empty_store =
    Normal
      store_A
      (ImportSuccess (Stats.mk (GroupStats.mk 1 1 0) (SiteStats.mk 1 1 0 0))).
Proof. vm_compute. reflexivity. Qed.

(** Scenario B: the group merges into the live group 5 and the site is
    created under it. *)
Example scenario_B :
  ∃ st' site,
    importData sample_clock (Some snapshot_A) store_B =
      Normal st' (ImportSuccess (Stats.mk (GroupStats.mk 1 0 1) (SiteStats.mk 1 1 0 0)))
    ∧ mockGroups st' = mockGroups store_B
    ∧ mockSites st' = [site]
    ∧ Site.group_id site = 5%Z.
Proof. eexists _, _. vm_compute. split_and!; reflexivity. Qed.

(** Scenario C: a site without a resolvable group is skipped. *)
Example scenario_C :
  importData sample_clock (Some snapshot_C) empty_store =
    Normal empty_store
      (ImportSuccess (Stats.mk (GroupStats.mk 0 0 0) (SiteStats.mk 1 0 0 1))).
Proof. vm_compute. reflexivity. Qed.

(** Scenario D: updating a group that does not exist returns null and
    leaves the store as it was. *)
Example scenario_D :
  updateGroup sample_clock 42%Z partial_order_5 live_store = Normal live_store None.
Proof. vm_compute. reflexivity. Qed.

(** Malformed snapshots: a missing snapshot, a missing element after a
    good one (the group created before it stays), a missing table. *)
Example import_missing_snapshot :
  importData sample_clock None empty_store =
    Normal empty_store
      (ImportFailure "Cannot read properties of undefined (reading 'groups')").
Proof. vm_compute. reflexivity. Qed.

Example import_missing_element :
  ∃ st',
    importData sample_clock
      (Some (ExportData.mk (Some [Some dev_group; None]) (Some []) (Some ∅) "1.0" "2025-01-01T00:00:00.000Z"))
      empty_store
    = Normal st' (ImportFailure "Cannot read properties of undefined (reading 'name')")
    ∧ Group.name <$> mockGroups st' = ["Dev"].
Proof. eexists. vm_compute. split; reflexivity. Qed.

Example import_missing_configs :
  ∃ st',
    importData sample_clock
      (Some (ExportData.mk (Some []) (Some []) None "1.0" "2025-01-01T00:00:00.000Z")) empty_store
    = Normal st' (ImportFailure "Cannot convert undefined or null to object").
Proof. eexists. vm_compute. reflexivity. Qed.

(** Ids at the edge of exact integer arithmetic: with the id 2^53 in use,
    [max + 1] is rounded back to 2^53 and the new group takes an id that is
    in use; one below, the sum is exact. *)
Example createGroup_repeats_id_at_2_53 :
  next_id [Some (2 ^ 53)%Z] = (2 ^ 53)%Z
  ∧ next_id [Some (2 ^ 53 - 1)%Z] = (2 ^ 53)%Z
  ∧ next_id [Some (2 ^ 53 + 2)%Z] = (2 ^ 53 + 4)%Z
  ∧ Group.id <$> mockGroups (store_of (createGroup sample_clock ops_group store_at_2_53))
    = [Some (2 ^ 53)%Z; Some (2 ^ 53)%Z].
Proof. vm_compute. split_and!; reflexivity. Qed.

(** ** The theorems at sample inputs *)

Lemma live_store_identity : identity_invariant live_store.
Proof. split; apply (bool_decide_unpack _); vm_compute; exact I. Defined.

Lemma live_store_references : reference_integrity live_store.
Proof.
  intros s Hs. unfold live_store in Hs. simpl in Hs.
  repeat (apply elem_of_cons in Hs as [->|Hs]);
    [| | |by apply elem_of_nil in Hs]; simpl.
  - eexists. split; [apply list_elem_of_here|reflexivity].
  - eexists. split; [apply list_elem_of_here|reflexivity].
  - eexists. split; [apply list_elem_of_further, list_elem_of_here|reflexivity].
Defined.

Lemma import_twice_idempotent_witness :
  importData sample_clock (Some snapshot_A) empty_store
    = Normal store_A (ImportSuccess stats_A)
  ∧ SiteStats.skipped (Stats.sites stats_A) = 0
  ∧ ∃ st2 stats2,
      importData sample_clock (Some snapshot_A) store_A
        = Normal st2 (ImportSuccess stats2)
      ∧ GroupStats.created (Stats.groups stats2) = 0
      ∧ GroupStats.merged (Stats.groups stats2) = GroupStats.total (Stats.groups stats2)
      ∧ SiteStats.created (Stats.sites stats2) = 0
      ∧ SiteStats.updated (Stats.sites stats2) = SiteStats.total (Stats.sites stats2).
Proof.
  assert (importData sample_clock (Some snapshot_A) empty_store
          = Normal store_A (ImportSuccess stats_A)) as Hfirst
    by (vm_compute; reflexivity).
  assert (SiteStats.skipped (Stats.sites stats_A) = 0) as Hskipped by reflexivity.
  exact (conj Hfirst (conj Hskipped
           (import_twice_idempotent sample_clock _ _ _ _ Hfirst Hskipped))).
Defined.

Lemma importData_stats_conservation_witness :
  importData sample_clock (Some snapshot_A) store_B
    = Normal (store_of (importData sample_clock (Some snapshot_A) store_B))
             (ImportSuccess (Stats.mk (GroupStats.mk 1 0 1) (SiteStats.mk 1 1 0 0)))
  ∧ ∃ d groups sites,
      Some snapshot_A = Some d
      ∧ ExportData.groups d = Some groups
      ∧ ExportData.sites d = Some sites
      ∧ 1 = length groups
      ∧ 1 = length sites
      ∧ 0 + 1 = 1
      ∧ 1 + 0 + 0 = 1.
Proof.
  assert (importData sample_clock (Some snapshot_A) store_B
          = Normal (store_of (importData sample_clock (Some snapshot_A) store_B))
              (ImportSuccess (Stats.mk (GroupStats.mk 1 0 1) (SiteStats.mk 1 1 0 0))))
    as Hrun by (vm_compute; reflexivity).
  exact (conj Hrun (importData_stats_conservation sample_clock _ _ _ _ Hrun)).
Defined.

Lemma import_update_frame_witness :
  groupMap locals_10_to_1 !! Site.group_id incoming_x = Some 1%Z
  ∧ 1%Z ≠ 0%Z
  ∧ ∃ st' loc' updated,
      importSite sample_clock (Some incoming_x) locals_10_to_1 live_store
        = Normal st' loc'
      ∧ mockSites st' !! 0 = Some updated
      ∧ Site.name updated = "X renamed"
      ∧ Site.updated_at updated = Some "2025-01-01T00:00:00.000Z"
      ∧ Site.id updated = Some 1%Z
      ∧ Site.order_num updated = 0%Z
      ∧ Site.is_public updated = Some 1%Z
      ∧ mockSites st' !! 1 = mockSites live_store !! 1
      ∧ mockSites st' !! 2 = mockSites live_store !! 2.
Proof.
  assert (groupMap locals_10_to_1 !! Site.group_id incoming_x = Some 1%Z) as Hget
    by (vm_compute; reflexivity).
  assert (1%Z ≠ 0%Z) as Hnz by discriminate.
  split; [exact Hget|]. split; [exact Hnz|].
  destruct (import_update_frame sample_clock incoming_x locals_10_to_1 live_store
              1%Z 0 live_x Hget Hnz eq_refl)
    as (st' & loc' & updated & Hrun & Hlookup & (Hname & _ & _ & _ & Hupd)
        & (_ & _ & Hid & Hpub & Hord & _) & Hothers & _).
  exists st', loc', updated.
  repeat split; try assumption.
  - apply Hothers. discriminate.
  - apply Hothers. discriminate.
Defined.

Lemma identity_invariant_preserved_witness :
  identity_invariant live_store
  ∧ identity_invariant (store_of (importData sample_clock (Some snapshot_A) live_store))
  ∧ identity_invariant (store_of (deleteGroup 1%Z live_store))
  ∧ identity_invariant (store_of (updateSiteOrder sample_orders live_store))
  ∧ identity_invariant (store_of (setConfig "site.title" "NaviHive 2" live_store))
  ∧ identity_invariant (store_of (createGroup sample_clock ops_group live_store))
  ∧ identity_invariant (store_of (updateGroup sample_clock 1%Z partial_order_5 live_store))
  ∧ identity_invariant (store_of (createSite sample_clock site_w live_store))
  ∧ identity_invariant
      (store_of (updateSite sample_clock 1%Z partial_site_order_5 live_store)).
Proof.
  destruct (identity_invariant_preserved sample_clock live_store live_store_identity)
    as (Himport & HdeleteG & _ & _ & HorderS & Hset & _ & _
        & HcreateG & HcreateS & HupdateG & HupdateS).
  split; [exact live_store_identity|]. split; [apply Himport|].
  split; [apply HdeleteG|]. split; [apply HorderS|]. split; [apply Hset|].
  split; [|split; [|split]].
  - apply HcreateG. apply (bool_decide_unpack _). vm_compute. exact I.
  - apply HupdateG. intros index existing name _ Hname. discriminate Hname.
  - apply HcreateS. apply (bool_decide_unpack _). vm_compute. exact I.
  - apply HupdateS. intros index existing _. left. reflexivity.
Defined.

Lemma update_overwrites_id_from_record_witness :
  PartialGroup.id partial_own_id_1 = Some (Some 1%Z)
  ∧ PartialSite.id partial_site_order_5 = None
  ∧ Group.id <$> mockGroups
                   (store_of (updateGroup sample_clock 1%Z partial_own_id_1 live_store))
    = Group.id <$> mockGroups live_store
  ∧ Site.id <$> mockSites
                  (store_of (updateSite sample_clock 1%Z partial_site_order_5 live_store))
    = Site.id <$> mockSites live_store.
Proof.
  split; [reflexivity|]. split; [reflexivity|].
  destruct (update_overwrites_id_from_record sample_clock 1%Z partial_own_id_1
              partial_site_order_5 live_store) as (Hgroups & Hsites & _ & _).
  split; [apply Hgroups; right; reflexivity|apply Hsites; left; reflexivity].
Defined.

Lemma importData_reference_integrity_witness :
  reference_integrity live_store
  ∧ reference_integrity (store_of (importData sample_clock (Some snapshot_A) live_store)).
Proof.
  split; [exact live_store_references|].
  apply (importData_reference_integrity sample_clock (Some snapshot_A) live_store).
  exact live_store_references.
Defined.


Lemma visibility_filter_witness :
  isAuthenticated visitor = false
  ∧ isAuthenticated admin = true
  ∧ (Group.name <$> default [] (result_of (getGroups visitor live_store)) = ["Dev"]
     ∧ Site.name <$> default [] (result_of (getSites visitor None live_store)) = ["X"])
  ∧ (Group.name <$> default [] (result_of (getGroups admin live_store))
       = ["Dev"; "Private"]
     ∧ Site.name <$> default [] (result_of (getSites admin None live_store))
       = ["X"; "Y"; "Z"]).
Proof.
  split; [reflexivity|]. split; [reflexivity|]. split.
  - destruct (proj1 (visibility_filter visitor live_store) eq_refl) as (-> & -> & _).
    vm_compute. split; reflexivity.
  - destruct (proj2 (visibility_filter admin live_store) eq_refl) as (-> & -> & _).
    vm_compute. split; reflexivity.
Defined.

(** ** Where the code departs from the specification *)

(** None of the four single-entity writers looks for an entity with the same
    business key: [createGroup] with a name in use, [createSite] with a
    (group_id, url) pair in use, [updateGroup] to a name in use and
    [updateSite] to a url in use in the group each leave two entities with
    one key. *)
Lemma writers_duplicate_business_keys :
  identity_invariant live_store
  ∧ ¬ identity_invariant (store_of (createGroup sample_clock dev_group live_store))
  ∧ ¬ identity_invariant (store_of (createSite sample_clock site_x live_store))
  ∧ ¬ identity_invariant
        (store_of (updateGroup sample_clock 2%Z partial_name_Dev live_store))
  ∧ ¬ identity_invariant
        (store_of (updateSite sample_clock 2%Z partial_url_x live_store)).
Proof.
  split; [exact live_store_identity|]. split_and!.
  - intros [Hgroups _]. revert Hgroups. by_evaluation.
  - intros [_ Hsites]. revert Hsites. by_evaluation.
  - intros [Hgroups _]. revert Hgroups. by_evaluation.
  - intros [_ Hsites]. revert Hsites. by_evaluation.
Qed.

(** [updateGroup] and [updateSite] spread the whole partial record, its
    [id] included. *)
Lemma updates_can_change_ids :
  (∃ st' before after,
     updateGroup sample_clock 1%Z partial_id_7 live_store = Normal st' (Some after)
     ∧ mockGroups live_store !! 0 = Some before
     ∧ mockGroups st' !! 0 = Some after
     ∧ Group.id before = Some 1%Z
     ∧ Group.id after = Some 7%Z
     ∧ Group.id after ≠ Group.id before)
  ∧ (∃ st' before after,
       updateSite sample_clock 1%Z partial_site_id_9 live_store = Normal st' (Some after)
       ∧ mockSites live_store !! 0 = Some before
       ∧ mockSites st' !! 0 = Some after
       ∧ Site.id before = Some 1%Z
       ∧ Site.id after = Some 9%Z
       ∧ Site.id after ≠ Site.id before).
Proof.
  split; eexists _, _, _; vm_compute; split_and!; (reflexivity || discriminate).
Qed.

(** A site left dangling by [deleteGroup] still dangles after a successful
    import. *)
Lemma import_keeps_dangling_site :
  ∃ st' s,
    importData sample_clock (Some empty_snapshot) orphaned_store
      = Normal st' (ImportSuccess s)
    ∧ ¬ reference_integrity st'.
Proof.
  eexists _, _. split; [vm_compute; reflexivity|].
  intros Hint.
  destruct (Hint live_x) as (g & Hg & Hid).
  - apply list_elem_of_here.
  - simpl in Hg. apply elem_of_cons in Hg as [->|Hg]; [discriminate Hid|].
    by apply elem_of_nil in Hg.
Qed.

(** A site left dangling may also be taken over: once the last group is
    deleted its id is handed out again, so the next group created by an
    import adopts the site left behind, and a snapshot site at the same url
    rewrites it. *)
Lemma import_adopts_dangling_site :
  ¬ group_live store_without_private (Site.group_id live_z)
  ∧ live_z ∈ mockSites store_without_private
  ∧ ∃ st' s adopted,
      importData sample_clock (Some snapshot_ops) store_without_private
        = Normal st' (ImportSuccess s)
      ∧ SiteStats.updated (Stats.sites s) = 1
      ∧ mockSites st' !! 2 = Some adopted
      ∧ Site.id adopted = Site.id live_z
      ∧ Site.name adopted = "Z of Ops"
      ∧ Group.id <$> mockGroups st' = [Some 1%Z; Some 2%Z]
      ∧ Group.name <$> mockGroups st' = ["Dev"; "Ops"].
Proof.
  split_and!.
  - intros (g & Hg & Hid). vm_compute in Hg.
    apply list_elem_of_singleton in Hg. subst g. discriminate Hid.
  - vm_compute. apply list_elem_of_further, list_elem_of_further, list_elem_of_here.
  - eexists _, _, _. vm_compute. split_and!; reflexivity.
Qed.


(** C7. [updateGroupOrder] and [updateSiteOrder] write [order_num] and
    leave [updated_at] at its old value, while [updateGroup] and
    [updateSite], given the same order number, refresh it from the clock. *)
Theorem reorder_leaves_updated_at_stale :
  (∃ st' g,
     updateGroupOrder [Order.mk 1%Z 5%Z] live_store = Normal st' true
     ∧ mockGroups st' !! 0 = Some g
     ∧ Group.order_num g = 5%Z
     ∧ Group.updated_at g = Some "2024-06-01T00:00:00.000Z")
  ∧ (∃ st' s,
       updateSiteOrder [Order.mk 1%Z 5%Z] live_store = Normal st' true
       ∧ mockSites st' !! 0 = Some s
       ∧ Site.order_num s = 5%Z
       ∧ Site.updated_at s = Some "2024-06-03T00:00:00.000Z")
  ∧ (∃ st' g,
       updateGroup sample_clock 1%Z partial_order_5 live_store = Normal st' (Some g)
       ∧ Group.order_num g = 5%Z
       ∧ Group.updated_at g = Some "2025-01-01T00:00:00.000Z")
  ∧ (∃ st' s,
       updateSite sample_clock 1%Z partial_site_order_5 live_store = Normal st' (Some s)
       ∧ Site.order_num s = 5%Z
       ∧ Site.updated_at s = Some "2025-01-01T00:00:00.000Z").
Proof.
  split_and!; eexists _, _; vm_compute; split_and!; reflexivity.
Qed.

(** ** The further theorems at sample inputs *)

Lemma live_store_ids_unique : ids_unique live_store.
Proof. split; by_evaluation. Defined.

Lemma live_store_no_group_42 :
  ∀ g, g ∈ mockGroups live_store → Group.id g ≠ Some 42%Z.
Proof. apply Forall_forall. by_evaluation. Defined.

Lemma live_store_no_site_42 :
  ∀ s, s ∈ mockSites live_store → Site.id s ≠ Some 42%Z.
Proof. apply Forall_forall. by_evaluation. Defined.

Lemma unknown_id_is_no_op_witness :
  (∀ g, g ∈ mockGroups live_store → Group.id g ≠ Some 42%Z)
  ∧ (∀ s, s ∈ mockSites live_store → Site.id s ≠ Some 42%Z)
  ∧ updateGroup sample_clock 42%Z partial_order_5 live_store = Normal live_store None
  ∧ deleteSite 42%Z live_store = Normal live_store false.
Proof.
  split; [exact live_store_no_group_42|]. split; [exact live_store_no_site_42|].
  destruct (unknown_id_is_no_op sample_clock 42%Z partial_order_5
              partial_site_order_5 live_store
              live_store_no_group_42 live_store_no_site_42)
    as (_ & Hupdate & _ & _ & _ & Hdelete).
  exact (conj Hupdate Hdelete).
Defined.

Lemma deleteGroup_then_getGroup_witness :
  NoDup (Group.id <$> mockGroups live_store)
  ∧ live_dev ∈ mockGroups live_store
  ∧ Group.id live_dev = Some 1%Z
  ∧ ∃ st',
      deleteGroup 1%Z live_store = Normal st' true
      ∧ getGroup 1%Z st' = Normal st' None
      ∧ mockSites st' = mockSites live_store.
Proof.
  assert (NoDup (Group.id <$> mockGroups live_store)) as Hnd by by_evaluation.
  assert (live_dev ∈ mockGroups live_store) as Hin by apply list_elem_of_here.
  split; [exact Hnd|]. split; [exact Hin|]. split; [reflexivity|].
  destruct (deleteGroup_then_getGroup 1%Z live_dev live_store Hnd Hin eq_refl)
    as (st' & Hrun & Hget & _ & _ & Hsites & _).
  exists st'. exact (conj Hrun (conj Hget Hsites)).
Defined.

Lemma deleteSite_then_getSite_witness :
  NoDup (Site.id <$> mockSites live_store)
  ∧ live_x ∈ mockSites live_store
  ∧ Site.id live_x = Some 1%Z
  ∧ ∃ st',
      deleteSite 1%Z live_store = Normal st' true
      ∧ getSite 1%Z st' = Normal st' None
      ∧ mockGroups st' = mockGroups live_store.
Proof.
  assert (NoDup (Site.id <$> mockSites live_store)) as Hnd by by_evaluation.
  assert (live_x ∈ mockSites live_store) as Hin by apply list_elem_of_here.
  split; [exact Hnd|]. split; [exact Hin|]. split; [reflexivity|].
  destruct (deleteSite_then_getSite 1%Z live_x live_store Hnd Hin eq_refl)
    as (st' & Hrun & Hget & _ & _ & Hgroups & _).
  exists st'. exact (conj Hrun (conj Hget Hgroups)).
Defined.



Lemma reorder_frame_witness :
  ∃ st',
    updateGroupOrder [Order.mk 9%Z 3%Z] live_store = Normal st' true
    ∧ mockGroups st' !! 0 = Some live_dev
    ∧ ticks st' = ticks live_store.
Proof.
  destruct (proj1 (reorder_frame [Order.mk 9%Z 3%Z] [] live_store))
    as (st' & Hrun & _ & Hkeep & _ & _ & Hticks).
  exists st'. split; [exact Hrun|]. split; [|exact Hticks].
  apply Hkeep; [reflexivity|].
  intros order Horder%list_elem_of_singleton. subst order. discriminate.
Defined.

Lemma reorder_applies_witness :
  NoDup (Group.id <$> mockGroups live_store)
  ∧ NoDup (Order.id <$> sample_orders)
  ∧ NoDup (Site.id <$> mockSites live_store)
  ∧ mockGroups (store_of (updateGroupOrder sample_orders live_store)) !! 0
    = Some (set_group_order live_dev 5%Z)
  ∧ mockSites (store_of (updateSiteOrder sample_orders live_store)) !! 1
    = Some (set_site_order live_y 7%Z).
Proof.
  assert (NoDup (Group.id <$> mockGroups live_store)) as Hg by by_evaluation.
  assert (NoDup (Order.id <$> sample_orders)) as Ho by by_evaluation.
  assert (NoDup (Site.id <$> mockSites live_store)) as Hs by by_evaluation.
  split; [exact Hg|]. split; [exact Ho|]. split; [exact Hs|].
  destruct (reorder_applies sample_orders sample_orders live_store Hg Ho Hs Ho)
    as [Hgroups Hsites].
  split.
  - apply (Hgroups (Order.mk 1%Z 5%Z) 0 live_dev); [|reflexivity..].
    apply list_elem_of_further, list_elem_of_here.
  - apply (Hsites (Order.mk 2%Z 7%Z) 1 live_y); [|reflexivity..].
    apply list_elem_of_here.
Defined.

Lemma setConfig_then_getConfig_witness :
  "site.title" ≠ "__proto__"
  ∧ "NaviHive 2" ≠ EmptyString
  ∧ ∃ st',
      setConfig "site.title" "NaviHive 2" live_store = Normal st' true
      ∧ getConfig "site.title" st' = Normal st' (Some (OwnString "NaviHive 2")).
Proof.
  assert ("site.title" ≠ "__proto__") as Hkey by discriminate.
  assert ("NaviHive 2" ≠ EmptyString) as Hne by discriminate.
  split; [exact Hkey|]. split; [exact Hne|].
  destruct (setConfig_then_getConfig "site.title" "NaviHive 2" live_store)
    as (st' & Hset & _ & _ & _ & Hstored & _).
  exists st'. split; [exact Hset|].
  exact (proj2 (Hstored (or_introl Hkey)) Hne).
Defined.

Lemma deleteConfig_then_getConfig_witness :
  ∃ st',
    deleteConfig "site.title" live_store = Normal st' true
    ∧ getConfig "site.title" st' = Normal st' None
    ∧ mockConfigs st' !! "site.customCss" = Some EmptyString.
Proof.
  destruct (deleteConfig_then_getConfig "site.title" live_store)
    as (st' & Hdel & _ & Hget & Hother & _).
  exists st'. split; [exact Hdel|]. split; [exact Hget|].
  rewrite Hother; [reflexivity|discriminate].
Defined.

Lemma importData_configs_witness :
  ∃ st' s,
    importData sample_clock (Some snapshot_proto) live_store
      = Normal st' (ImportSuccess s)
    ∧ mockConfigs st' !! "site.title" = Some "Imported"
    ∧ mockConfigs st' !! "__proto__" = None
    ∧ mockConfigs st' !! "site.customCss" = Some EmptyString.
Proof.
  pose proof (importData_configs sample_clock (Some snapshot_proto) live_store)
    as Hout.
  destruct (importData sample_clock (Some snapshot_proto) live_store)
    as [st' [s|message]|] eqn:Hrun.
  - exists st', s. split; [reflexivity|].
    destruct Hout as (d & configs & Hd & Hconfigs & Hkeys).
    injection Hd as <-. injection Hconfigs as <-.
    split; [|split]; rewrite Hkeys; reflexivity.
  - vm_compute in Hrun. discriminate Hrun.
  - vm_compute in Hrun. discriminate Hrun.
Defined.

Lemma getGroupsWithSites_agrees_with_getSites_witness :
  getGroupsWithSites visitor live_store = Normal live_store [dev_entry]
  ∧ getSites visitor (Some 1%Z) live_store = Normal live_store [live_x].
Proof.
  assert (getGroupsWithSites visitor live_store = Normal live_store [dev_entry])
    as Hrun by (vm_compute; reflexivity).
  split; [exact Hrun|].
  apply (proj1 (getGroupsWithSites_agrees_with_getSites visitor live_store)
           [dev_entry] dev_entry 1%Z Hrun);
    [apply list_elem_of_here|reflexivity|discriminate].
Defined.

Lemma importData_growth_witness :
  importData sample_clock (Some snapshot_A) store_B
    = Normal (store_of (importData sample_clock (Some snapshot_A) store_B))
             (ImportSuccess (Stats.mk (GroupStats.mk 1 0 1) (SiteStats.mk 1 1 0 0)))
  ∧ length (mockGroups (store_of (importData sample_clock (Some snapshot_A) store_B)))
    = 1 + 0
  ∧ length (mockSites (store_of (importData sample_clock (Some snapshot_A) store_B)))
    = 0 + 1.
Proof.
  assert (importData sample_clock (Some snapshot_A) store_B
          = Normal (store_of (importData sample_clock (Some snapshot_A) store_B))
              (ImportSuccess (Stats.mk (GroupStats.mk 1 0 1) (SiteStats.mk 1 1 0 0))))
    as Hrun by (vm_compute; reflexivity).
  exact (conj Hrun (importData_growth sample_clock _ _ _ _ Hrun)).
Defined.

Lemma live_store_room :
  room_for 1 (Group.id <$> mockGroups live_store)
  ∧ room_for 1 (Site.id <$> mockSites live_store).
Proof. split; unfold room_for; by_evaluation. Defined.

Lemma ids_unique_preserved_witness :
  ids_unique live_store
  ∧ room_for 1 (Group.id <$> mockGroups live_store)
  ∧ room_for 1 (Site.id <$> mockSites live_store)
  ∧ ids_unique (store_of (importData sample_clock (Some snapshot_A) live_store))
  ∧ ids_unique (store_of (createGroup sample_clock dev_group live_store))
  ∧ ids_unique (store_of (deleteGroup 1%Z live_store))
  ∧ ids_unique (store_of (updateGroup sample_clock 1%Z partial_own_id_1 live_store)).
Proof.
  destruct (ids_unique_preserved sample_clock live_store live_store_ids_unique)
    as (Himport & HcreateG & _ & HdeleteG & _ & _ & _ & HupdateG & _).
  split; [exact live_store_ids_unique|].
  split; [exact (proj1 live_store_room)|].
  split; [exact (proj2 live_store_room)|].
  split; [apply Himport; [exact (proj1 live_store_room)|exact (proj2 live_store_room)]|].
  split; [apply HcreateG; exact (proj1 live_store_room)|].
  split; [apply HdeleteG|].
  apply HupdateG. right. reflexivity.
Defined.

Lemma import_twice_store_witness :
  importData sample_clock (Some snapshot_A) empty_store
    = Normal store_A (ImportSuccess stats_A)
  ∧ ∃ st2 stats2,
      importData sample_clock (Some snapshot_A) store_A
        = Normal st2 (ImportSuccess stats2)
      ∧ mockGroups st2 = mockGroups store_A
      ∧ mockConfigs st2 = mockConfigs store_A
      ∧ site_frame <$> mockSites st2 = site_frame <$> mockSites store_A.
Proof.
  assert (importData sample_clock (Some snapshot_A) empty_store
          = Normal store_A (ImportSuccess stats_A)) as Hfirst
    by (vm_compute; reflexivity).
  exact (conj Hfirst (import_twice_store sample_clock _ _ _ _ Hfirst)).
Defined.

Lemma importData_remaps_by_name_witness :
  site_x_in_5 ∈ mockSites (store_of (importData sample_clock (Some snapshot_A) store_B))
  ∧ (site_x_in_5 ∈ mockSites store_B
     ∨ ∃ s g e,
         Some s ∈ snapshot_sites (Some snapshot_A)
         ∧ Some g ∈ snapshot_groups (Some snapshot_A)
         ∧ e ∈ mockGroups (store_of (importData sample_clock (Some snapshot_A) store_B))
         ∧ Group.id g = Some (Site.group_id s)
         ∧ Group.name e = Group.name g
         ∧ Group.id e = Some (Site.group_id site_x_in_5)
         ∧ Site.url site_x_in_5 = Site.url s).
Proof.
  assert (site_x_in_5
          ∈ mockSites (store_of (importData sample_clock (Some snapshot_A) store_B)))
    as Hin by (vm_compute; apply list_elem_of_here).
  exact (conj Hin
           (importData_remaps_by_name sample_clock (Some snapshot_A) store_B
              site_x_in_5 Hin)).
Defined.

Lemma export_then_import_witness :
  identity_invariant live_store
  ∧ ∃ st1 data st2 s,
      exportData sample_clock live_store = Normal st1 data
      ∧ importData sample_clock (Some data) st1 = Normal st2 (ImportSuccess s)
      ∧ GroupStats.created (Stats.groups s) = 0
      ∧ GroupStats.merged (Stats.groups s) = length (mockGroups live_store)
      ∧ SiteStats.created (Stats.sites s) = 0
      ∧ mockGroups st2 = mockGroups live_store
      ∧ mockConfigs st2 = mockConfigs live_store
      ∧ without_updated_at <$> mockSites st2
        = without_updated_at <$> mockSites live_store.
Proof.
  exact (conj live_store_identity
           (export_then_import sample_clock live_store live_store_identity)).
Defined.

Lemma store_B_groups_have_ids :
  ∀ e, e ∈ mockGroups store_B → ∃ k, Group.id e = Some k ∧ k ≠ 0%Z.
Proof.
  intros e He. apply list_elem_of_singleton in He. subst e.
  exists 5%Z. split; [reflexivity|discriminate].
Defined.

Lemma importData_skips_unreferenced_witness :
  (∀ e, e ∈ mockGroups store_B → ∃ k, Group.id e = Some k ∧ k ≠ 0%Z)
  ∧ importData sample_clock (Some snapshot_C) store_B
    = Normal (store_of (importData sample_clock (Some snapshot_C) store_B))
             (ImportSuccess (Stats.mk (GroupStats.mk 0 0 0) (SiteStats.mk 1 0 0 1)))
  ∧ 1 = length (filter (λ x, Site.group_id x = 0%Z
                             ∨ Some (Site.group_id x) ∉ Group.id <$> [])
                       [site_x]).
Proof.
  assert (importData sample_clock (Some snapshot_C) store_B
          = Normal (store_of (importData sample_clock (Some snapshot_C) store_B))
              (ImportSuccess (Stats.mk (GroupStats.mk 0 0 0) (SiteStats.mk 1 0 0 1))))
    as Hrun by (vm_compute; reflexivity).
  split; [exact store_B_groups_have_ids|]. split; [exact Hrun|].
  exact (importData_skips_unreferenced sample_clock [] [site_x] ∅ "1.0"
           "2025-01-01T00:00:00.000Z" store_B _ _ store_B_groups_have_ids Hrun).
Defined.


Lemma delete_undoes_create_witness :
  room_for 1 (Group.id <$> mockGroups live_store)
  ∧ ∃ st1 created id st2,
      createGroup sample_clock ops_group live_store = Normal st1 created
      ∧ Group.id created = Some id
      ∧ deleteGroup id st1 = Normal st2 true
      ∧ mockGroups st2 = mockGroups live_store.
Proof.
  split; [exact (proj1 live_store_room)|].
  destruct (proj1 (delete_undoes_create sample_clock ops_group site_w live_store)
              (proj1 live_store_room))
    as (st1 & created & id & st2 & Hcreate & Hid & Hdelete & Hgroups & _).
  exists st1, created, id, st2.
  exact (conj Hcreate (conj Hid (conj Hdelete Hgroups))).
Defined.
